(** * juliet::sync::Map -- a read-mostly map (include/sync/map.hpp)

    A sequential model of [juliet::sync::map::Entry] and
    [juliet::sync::map::Map].  One thread runs at a time, so the mutexes
    ([mu_], [Read::mu]) guard nothing that the model can observe and are
    left out; everything else is kept: the tri-state tag of an entry and
    its compare-and-swap loops, the entries shared by reference between
    the published table and the overlay, the miss counter and the
    promotion of the overlay. *)

From stdpp Require Import gmap strings list fin_maps.
From Stdlib Require Import ZArith Lia.

Local Open Scope Z_scope.

(** ** Entry *)

Module Entry.

(** [enum EState { kNull, kValue, kExpunged }] *)
Inductive EState := kNull | kValue | kExpunged.

#[global] Instance EState_eq_dec : EqDecision EState.
Proof. solve_decision. Defined.

Section Entry.
Context {Value : Type}.

(** The fields [ptr_] (a [std::shared_ptr<Value>], [None] for [nullptr])
    and [state_] of [class Entry]. *)
Record Entry := mkEntry { ptr_ : option Value; state_ : EState }.

Definition set_ptr (p : option Value) (e : Entry) : Entry :=
  {| ptr_ := p; state_ := state_ e |}.
Definition set_state (st : EState) (e : Entry) : Entry :=
  {| ptr_ := ptr_ e; state_ := st |}.

(** [explicit Entry(Ptr ptr)] *)
Definition make (ptr : option Value) : Entry :=
  {| ptr_ := ptr;
     state_ := match ptr with Some _ => kValue | None => kNull end |}.

(** [NewEntry(val)] without the allocation, which is the map's. *)
Definition NewEntry (val : Value) : Entry := make (Some val).

(** [state_.compare_exchange_strong(expected, desired)]: the result, the
    new content of [expected], and the entry. *)
Definition compare_exchange_strong (expected desired : EState) (e : Entry)
  : bool * EState * Entry :=
  if decide (state_ e = expected)
  then (true, expected, set_state desired e)
  else (false, state_ e, e).

(** A [for (;;)] around a compare-and-swap is run for at most [spin]
    rounds, [None] standing for a round that is still to come.  With one
    thread the first exchange succeeds (the [_fuel] lemmas below), so the
    bound is never met. *)
Definition spin : nat := 1.

Record LoadResult := mkLoadResult { value : option Value; loaded : bool }.

Definition Load (e : Entry) : LoadResult :=
  let state := state_ e in
  if decide (state = kNull \/ state = kExpunged)
  then {| value := None; loaded := false |}
  else {| value := ptr_ e; loaded := true |}.

Fixpoint TryStore_loop (fuel : nat) (val : Value) (cur_state : EState)
    (e : Entry) : option (bool * Entry) :=
  match fuel with
  | O => None
  | S fuel =>
      if decide (cur_state = kExpunged) then Some (false, e)
      else
        let '(swapped, cur_state, e) :=
          compare_exchange_strong cur_state kValue e in
        if swapped then Some (true, set_ptr (Some val) e)
        else TryStore_loop fuel val cur_state e
  end.

Definition TryStore (val : Value) (e : Entry) : option (bool * Entry) :=
  TryStore_loop spin val (state_ e) e.

Fixpoint StoreLocked_loop (fuel : nat) (val : Value) (cur_state : EState)
    (e : Entry) : option (unit * Entry) :=
  match fuel with
  | O => None
  | S fuel =>
      let '(swapped, cur_state, e) :=
        compare_exchange_strong cur_state kValue e in
      if swapped then Some (tt, set_ptr (Some val) e)
      else StoreLocked_loop fuel val cur_state e
  end.

Definition StoreLocked (val : Value) (e : Entry) : option (unit * Entry) :=
  StoreLocked_loop spin val (state_ e) e.

Record TryLoadOrStoreResult :=
  mkTryLoadOrStoreResult { actual : option Value; tl_loaded : bool; ok : bool }.

Fixpoint TryLoadOrStore_loop (fuel : nat) (val : Value) (cur_state : EState)
    (e : Entry) : option (TryLoadOrStoreResult * Entry) :=
  match fuel with
  | O => None
  | S fuel =>
      (* assert(cur_state == kNull) *)
      if decide (cur_state = kNull) then
        let '(swapped, cur_state, e) :=
          compare_exchange_strong cur_state kValue e in
        if swapped then
          let e := set_ptr (Some val) e in
          Some ({| actual := ptr_ e; tl_loaded := false; ok := true |}, e)
        else if decide (cur_state = kExpunged) then
          Some ({| actual := None; tl_loaded := false; ok := false |}, e)
        else if decide (cur_state <> kNull) then
          Some ({| actual := ptr_ e; tl_loaded := true; ok := true |}, e)
        else TryLoadOrStore_loop fuel val cur_state e
      else None
  end.

Definition TryLoadOrStore (val : Value) (e : Entry)
  : option (TryLoadOrStoreResult * Entry) :=
  let cur_state := state_ e in
  if decide (cur_state = kExpunged) then
    Some ({| actual := None; tl_loaded := false; ok := false |}, e)
  else if decide (cur_state <> kNull) then
    Some ({| actual := ptr_ e; tl_loaded := true; ok := true |}, e)
  else TryLoadOrStore_loop spin val cur_state e.

(** [Delete(Value *val)]: [Some v] is the result [true] with [v] moved to
    [*val] (dropped when [val] is null), [None] the result [false].  The
    outer [None] is the failed [assert(ptr != nullptr)]. *)
Fixpoint Delete_loop (fuel : nat) (cur_state : EState) (e : Entry)
  : option (option Value * Entry) :=
  match fuel with
  | O => None
  | S fuel =>
      if decide (cur_state = kNull \/ cur_state = kExpunged)
      then Some (None, e)
      else
        let '(swapped, cur_state, e) :=
          compare_exchange_strong cur_state kNull e in
        if swapped then
          let ptr := ptr_ e in
          let e := set_ptr None e in
          match ptr with
          | Some v => Some (Some v, e)
          | None => None
          end
        else Delete_loop fuel cur_state e
  end.

Definition Delete (e : Entry) : option (option Value * Entry) :=
  Delete_loop spin (state_ e) e.

Fixpoint TryExpungeLocked_loop (fuel : nat) (cur_state : EState) (e : Entry)
  : option (bool * Entry) :=
  match fuel with
  | O => None
  | S fuel =>
      if decide (cur_state = kNull) then
        let '(swapped, cur_state, e) :=
          compare_exchange_strong cur_state kExpunged e in
        if swapped then Some (true, e)
        else TryExpungeLocked_loop fuel cur_state e
      else Some (bool_decide (cur_state = kExpunged), e)
  end.

Definition TryExpungeLocked (e : Entry) : option (bool * Entry) :=
  TryExpungeLocked_loop spin (state_ e) e.

Definition UnexpungeLocked (e : Entry) : bool * Entry :=
  let '(swapped, _, e) := compare_exchange_strong kExpunged kNull e in
  if swapped then (true, set_ptr None e) else (false, e).

(** What [TryExpungeLocked] leaves of an entry. *)
Definition expunge (e : Entry) : Entry :=
  match state_ e with
  | kNull => set_state kExpunged e
  | _ => e
  end.

(** The tag and the value agree: Present with a value, Null and Expunged
    without one. *)
Definition consistent (e : Entry) : Prop :=
  state_ e = kValue <-> is_Some (ptr_ e).

End Entry.

Arguments Entry : clear implicits.
Arguments LoadResult : clear implicits.
Arguments TryLoadOrStoreResult : clear implicits.

End Entry.

(** ** Map *)

Import Entry.

(** A [std::shared_ptr<Entry<Value>>] is the index of the entry in the
    store [heap] of the map state: two tables that hold the same index
    share the entry. *)
Abbreviation EntryPtr := nat.

Section Map.
Context `{Countable Key} {Value : Type}.

Abbreviation InnerMap := (gmap Key EntryPtr).
Abbreviation RawMap := (gmap Key Value).

(** [struct ReadOnly]; the table is held by value, the code never writes
    to a table it has published. *)
Record ReadOnly := mkReadOnly { m : InnerMap; amended : bool }.

(** [ReadOnly()] and [ReadOnly(std::shared_ptr<InnerMap>)] *)
Definition ReadOnly_new : ReadOnly := {| m := ∅; amended := false |}.
Definition ReadOnly_of (_m : InnerMap) : ReadOnly :=
  {| m := _m; amended := false |}.

(** [class Map]: [read_], [dirty_] (null or a table) and [misses_], and
    the entries that the shared pointers of the tables own. *)
Record Map := mkMap {
  heap : list (Entry Value);
  read_ : ReadOnly;
  dirty_ : option InnerMap;
  misses_ : Z
}.

(** A default-constructed map. *)
Definition Map_new : Map :=
  {| heap := []; read_ := ReadOnly_new; dirty_ := None; misses_ := 0 |}.

(** *** Running a member function

    A member function is a state transformer that can fail: [None] is a
    failed [assert], a null pointer that is dereferenced, a signed
    overflow, or a call that binds to no function. *)
Definition M (A : Type) : Type := Map -> option (A * Map).

Definition ret {A} (a : A) : M A := fun s => Some (a, s).
Definition fail {A} : M A := fun _ => None.
Definition bind {A B} (c : M A) (k : A -> M B) : M B :=
  fun s => match c s with
           | Some (a, s') => k a s'
           | None => None
           end.

Notation "'let*' x := c 'in' k" := (bind c (fun x => k))
  (at level 10, x name, c at level 100, k at level 200).
Notation "c1 >> c2" := (bind c1 (fun _ => c2))
  (at level 100, c2 at level 200, right associativity).

Definition set_heap (h : list (Entry Value)) (s : Map) : Map :=
  {| heap := h; read_ := read_ s; dirty_ := dirty_ s; misses_ := misses_ s |}.
Definition set_read (ro : ReadOnly) (s : Map) : Map :=
  {| heap := heap s; read_ := ro; dirty_ := dirty_ s; misses_ := misses_ s |}.
Definition set_dirty (d : option InnerMap) (s : Map) : Map :=
  {| heap := heap s; read_ := read_ s; dirty_ := d; misses_ := misses_ s |}.
Definition set_misses (n : Z) (s : Map) : Map :=
  {| heap := heap s; read_ := read_ s; dirty_ := dirty_ s; misses_ := n |}.

(** [read_.Load()], [read_.Store(ro)], [read_.readOnly.amended = b] *)
Definition read_Load : M ReadOnly := fun s => Some (read_ s, s).
Definition read_Store (ro : ReadOnly) : M unit :=
  fun s => Some (tt, set_read ro s).
Definition read_set_amended (b : bool) : M unit :=
  fun s => Some (tt, set_read {| m := m (read_ s); amended := b |} s).

(** [dirty_], [dirty_ = d], and [*dirty_] *)
Definition get_dirty : M (option InnerMap) := fun s => Some (dirty_ s, s).
Definition put_dirty (d : option InnerMap) : M unit :=
  fun s => Some (tt, set_dirty d s).
Definition deref_dirty : M InnerMap :=
  fun s => match dirty_ s with
           | Some d => Some (d, s)
           | None => None
           end.

(** Assignment to the mapping of [key] in [*dirty_],
    [dirty_->emplace(key, entry)] (which keeps a mapping that is there)
    and [dirty_->erase(key)] *)
Definition dirty_assign (key : Key) (entry : EntryPtr) : M unit :=
  let* d := deref_dirty in put_dirty (Some (<[key := entry]> d)).
Definition dirty_emplace (key : Key) (entry : EntryPtr) : M unit :=
  let* d := deref_dirty in
  match d !! key with
  | Some _ => ret tt
  | None => put_dirty (Some (<[key := entry]> d))
  end.
Definition dirty_erase (key : Key) : M unit :=
  let* d := deref_dirty in put_dirty (Some (delete key d)).

(** [entry->f()] for a member function [f] of the entry that writes to
    it, and for a [const] one. *)
Definition on_entry {B} (entry : EntryPtr)
    (f : Entry Value -> option (B * Entry Value)) : M B :=
  fun s => match heap s !! entry with
           | Some e =>
               match f e with
               | Some (b, e') => Some (b, set_heap (<[entry := e']> (heap s)) s)
               | None => None
               end
           | None => None
           end.
Definition read_entry {B} (entry : EntryPtr) (f : Entry Value -> B) : M B :=
  fun s => match heap s !! entry with
           | Some e => Some (f e, s)
           | None => None
           end.

(** [std::make_shared<Entry>(...)] *)
Definition new_entry (e : Entry Value) : M EntryPtr :=
  fun s => Some (length (heap s), set_heap (heap s ++ [e]) s).

(** [*ptr] for a [std::shared_ptr<Value>] *)
Definition deref {A} (ptr : option A) : M A :=
  match ptr with
  | Some v => ret v
  | None => fail
  end.

(** *** [int] *)
Definition INT_MAX : Z := 2147483647.

(** [static_cast<int>(n)] for a [size_t] *)
Definition static_cast_int (n : nat) : Z :=
  let z := Z.of_nat n mod 2 ^ 32 in
  if z <=? INT_MAX then z else z - 2 ^ 32.

(** [++misses_], whose overflow is undefined *)
Definition incr_misses : M Z :=
  fun s => if misses_ s <? INT_MAX
           then Some (misses_ s + 1, set_misses (misses_ s + 1) s)
           else None.
Definition put_misses (n : Z) : M unit := fun s => Some (tt, set_misses n s).

(** *** Private member functions *)

Definition MissLocked : M unit :=
  let* misses := incr_misses in
  let* dirty := deref_dirty in
  if misses <? static_cast_int (size dirty) then ret tt
  else
    read_Store (ReadOnly_of dirty) >>
    put_dirty None >>
    put_misses 0.

Fixpoint DirtyLocked_loop (kvs : list (Key * EntryPtr)) : M unit :=
  match kvs with
  | [] => ret tt
  | (key, entry) :: kvs =>
      let* expunged := on_entry entry TryExpungeLocked in
      (if negb expunged then dirty_emplace key entry else ret tt) >>
      DirtyLocked_loop kvs
  end.

Definition DirtyLocked : M unit :=
  let* dirty := get_dirty in
  match dirty with
  | Some _ => ret tt
  | None =>
      put_dirty (Some ∅) >>
      let* read := read_Load in
      DirtyLocked_loop (map_to_list (m read))
  end.

(** *** Public member functions *)

Definition Store (key : Key) (value : Value) : M unit :=
  let* read := read_Load in
  let* stored :=
    match m read !! key with
    | Some entry => on_entry entry (Entry.TryStore value)
    | None => ret false
    end in
  if stored then ret tt
  else
    (* std::lock_guard<std::mutex> guard(mu_) *)
    let* read := read_Load in
    match m read !! key with
    | Some entry =>
        let* unexpunged :=
          on_entry entry (fun e => Some (Entry.UnexpungeLocked e)) in
        (if unexpunged then dirty_assign key entry else ret tt) >>
        on_entry entry (Entry.StoreLocked value)
    | None =>
        let* dirty := get_dirty in
        match dirty ≫= (.!! key) with
        | Some entry => on_entry entry (Entry.StoreLocked value)
        | None =>
            (if negb (amended read)
             then DirtyLocked >> read_set_amended true
             else ret tt) >>
            let* entry := new_entry (Entry.NewEntry value) in
            dirty_assign key entry
        end
    end.

(** [bool Load(const Key &key, Value *value)]: [Some v] is the result
    [true] with [v] written to [*value], [None] the result [false]. *)
Definition Load (key : Key) : M (option Value) :=
  let* read := read_Load in
  let* entry :=
    match m read !! key with
    | Some entry => ret (Some entry)
    | None =>
        if amended read then
          (* std::lock_guard<std::mutex> guard(mu_) *)
          let* read := read_Load in
          match m read !! key with
          | Some entry => ret (Some entry)
          | None =>
              if amended read then
                let* dirty := deref_dirty in
                let entry := dirty !! key in
                MissLocked >> ret entry
              else ret None
          end
        else ret None
    end in
  match entry with
  | Some entry =>
      let* load_result := read_entry entry Entry.Load in
      if loaded load_result then
        let* v := deref (value load_result) in
        ret (Some v)
      else ret None
  | None => ret None
  end.

(** [bool LoadOrStore(key, value, Value *actual)]: the pair of [*actual]
    and the result. *)
Definition LoadOrStore (key : Key) (value : Value) : M (Value * bool) :=
  let* read := read_Load in
  let* fast :=
    match m read !! key with
    | Some entry =>
        let* try_result := on_entry entry (Entry.TryLoadOrStore value) in
        if ok try_result then
          let* v := deref (actual try_result) in
          ret (Some (v, tl_loaded try_result))
        else ret None
    | None => ret None
    end in
  match fast with
  | Some result => ret result
  | None =>
      (* std::lock_guard<std::mutex> guard(mu_) *)
      let* read := read_Load in
      match m read !! key with
      | Some entry =>
          let* unexpunged :=
            on_entry entry (fun e => Some (Entry.UnexpungeLocked e)) in
          (if unexpunged then dirty_assign key entry else ret tt) >>
          let* try_result := on_entry entry (Entry.TryLoadOrStore value) in
          let* v := deref (actual try_result) in
          ret (v, tl_loaded try_result)
      | None =>
          let* dirty := get_dirty in
          match dirty ≫= (.!! key) with
          | Some entry =>
              let* try_result := on_entry entry (Entry.TryLoadOrStore value) in
              MissLocked >>
              let* v := deref (actual try_result) in
              ret (v, tl_loaded try_result)
          | None =>
              (if negb (amended read)
               then DirtyLocked >> read_set_amended true
               else ret tt) >>
              let* entry := new_entry (Entry.NewEntry value) in
              dirty_assign key entry >>
              ret (value, false)
          end
      end
  end.

(** [bool Delete(const Key &key, Value *value)]: [Some v] is the result
    [true] with [v] moved to [*value], [None] the result [false]. *)
Definition Delete (key : Key) : M (option Value) :=
  let* read := read_Load in
  let* entry :=
    match m read !! key with
    | Some entry => ret (Some entry)
    | None =>
        if amended read then
          (* std::lock_guard<std::mutex> guard(mu_) *)
          let* read := read_Load in
          match m read !! key with
          | Some entry => ret (Some entry)
          | None =>
              if amended read then
                let* dirty := deref_dirty in
                let entry := dirty !! key in
                (if entry is Some _ then dirty_erase key else ret tt) >>
                MissLocked >> ret entry
              else ret None
          end
        else ret None
    end in
  match entry with
  | Some entry => on_entry entry Entry.Delete
  | None => ret None
  end.

(** [raw->emplace(key, v)] *)
Definition raw_emplace (key : Key) (v : Value) (raw : RawMap) : RawMap :=
  match raw !! key with
  | Some _ => raw
  | None => <[key := v]> raw
  end.

Fixpoint Reset_loop (kvs : list (Key * EntryPtr)) (raw : RawMap) : M RawMap :=
  match kvs with
  | [] => ret raw
  | (key, entry) :: kvs =>
      let* load_result := read_entry entry Entry.Load in
      if loaded load_result then
        let* v := deref (value load_result) in
        Reset_loop kvs (raw_emplace key v raw)
      else Reset_loop kvs raw
  end.

(** [void Reset(RawMap *raw)]: [raw] is what [*raw] holds at the call
    ([None] for a null pointer), the result what it holds at the return.
    The local [read.m] is null when the map is amended and [dirty_] is
    null. *)
Definition Reset (raw : option RawMap) : M (option RawMap) :=
  let* read := read_Load in
  let* dirty := get_dirty in
  let read_m := if amended read then dirty else Some (m read) in
  read_Store ReadOnly_new >>
  put_dirty None >>
  put_misses 0 >>
  match raw with
  | Some raw =>
      let* table := deref read_m in
      let* raw := Reset_loop (map_to_list table) raw in
      ret (Some raw)
  | None => ret None
  end.

(** [Enumerator]: a [std::function], [None] when it is empty. *)
Definition Enumerator : Type := option (Key -> Value -> bool).

(** The loop of [Range]; the result lists the calls of the enumerator,
    in order. *)
Fixpoint Range_loop (enumerator : Key -> Value -> bool)
    (kvs : list (Key * EntryPtr)) : M (list (Key * Value)) :=
  match kvs with
  | [] => ret []
  | (key, entry) :: kvs =>
      let* load := read_entry entry Entry.Load in
      if loaded load then
        let* v := deref (value load) in
        if negb (enumerator key v) then ret [(key, v)]
        else
          let* calls := Range_loop enumerator kvs in
          ret ((key, v) :: calls)
      else Range_loop enumerator kvs
  end.

(** [void Range(const Enumerator &enumerator)].  When [dirty_] is null in
    an amended map the code publishes a null table and then fails
    [assert(read.m != nullptr)]; here the failure comes first. *)
Definition Range (enumerator : Enumerator) : M (list (Key * Value)) :=
  match enumerator with
  | None => ret []
  | Some enumerator =>
      let* read := read_Load in
      let* table :=
        if amended read then
          (* std::lock_guard<std::mutex> guard(mu_) *)
          let* read := read_Load in
          if amended read then
            let* dirty := deref_dirty in
            read_Store (ReadOnly_of dirty) >>
            put_dirty None >>
            put_misses 0 >>
            ret dirty
          else ret (m read)
        else ret (m read) in
      Range_loop enumerator (map_to_list table)
  end.

(** [callable name] is what a call [name(key, &result)] in a member
    function of the class binds to.  The class declares [Load] and
    [Delete] with these parameters; map.hpp declares no other function
    of that shape, in the class or outside of it. *)
Definition callable (name : string) : option (Key -> M (option Value)) :=
  if String.eqb name "Load" then Some Load
  else if String.eqb name "Delete" then Some Delete
  else None.

(** [Value Load(const Key &key)]: [Value result{}; Get(key, &result);
    return result;], with [result] for the default-constructed value. *)
Definition Load_value (result : Value) (key : Key) : M Value :=
  match callable "Get" with
  | Some Get =>
      let* found := Get key in
      ret (default result found)
  | None => fail
  end.

(** *** The out-parameters of [Load] and [LoadOrStore]

    A [Value *] argument is [None] for a null pointer and [Some v0] for
    a pointer to a [Value] that holds [v0]; a member function returns
    the argument as it leaves it. *)

(** [assert(p != nullptr)], and [*p = v] for a [p] that is not null *)
Definition assert_ptr (p : option Value) : M unit :=
  match p with
  | Some _ => ret tt
  | None => fail
  end.
Definition assign (p : option Value) (v : Value) : option Value := Some v.

(** [bool Load(const Key &key, Value *value)]: the result and [value]
    afterwards. *)
Definition Load_out (key : Key) (value : option Value)
  : M (bool * option Value) :=
  let* read := read_Load in
  let* entry :=
    match m read !! key with
    | Some entry => ret (Some entry)
    | None =>
        if amended read then
          (* std::lock_guard<std::mutex> guard(mu_) *)
          let* read := read_Load in
          match m read !! key with
          | Some entry => ret (Some entry)
          | None =>
              if amended read then
                let* dirty := deref_dirty in
                let entry := dirty !! key in
                MissLocked >> ret entry
              else ret None
          end
        else ret None
    end in
  match entry with
  | Some entry =>
      let* load_result := read_entry entry Entry.Load in
      if loaded load_result then
        let* v := deref (Entry.value load_result) in
        assert_ptr value >>
        ret (true, assign value v)
      else ret (false, value)
  | None => ret (false, value)
  end.

(** [bool LoadOrStore(key, value, Value *actual)]: the result and
    [actual] afterwards. *)
Definition LoadOrStore_out (key : Key) (value : Value)
    (actual : option Value) : M (bool * option Value) :=
  let* read := read_Load in
  let* fast :=
    match m read !! key with
    | Some entry =>
        let* try_result := on_entry entry (Entry.TryLoadOrStore value) in
        if ok try_result then
          assert_ptr actual >>
          let* v := deref (Entry.actual try_result) in
          ret (Some (tl_loaded try_result, assign actual v))
        else ret None
    | None => ret None
    end in
  match fast with
  | Some result => ret result
  | None =>
      (* std::lock_guard<std::mutex> guard(mu_) *)
      let* read := read_Load in
      match m read !! key with
      | Some entry =>
          let* unexpunged :=
            on_entry entry (fun e => Some (Entry.UnexpungeLocked e)) in
          (if unexpunged then dirty_assign key entry else ret tt) >>
          let* try_result := on_entry entry (Entry.TryLoadOrStore value) in
          assert_ptr actual >>
          let* v := deref (Entry.actual try_result) in
          ret (tl_loaded try_result, assign actual v)
      | None =>
          let* dirty := get_dirty in
          match dirty ≫= (.!! key) with
          | Some entry =>
              let* try_result := on_entry entry (Entry.TryLoadOrStore value) in
              MissLocked >>
              assert_ptr actual >>
              let* v := deref (Entry.actual try_result) in
              ret (tl_loaded try_result, assign actual v)
          | None =>
              (if negb (amended read)
               then DirtyLocked >> read_set_amended true
               else ret tt) >>
              let* entry := new_entry (Entry.NewEntry value) in
              dirty_assign key entry >>
              assert_ptr actual >>
              ret (false, assign actual value)
          end
      end
  end.

(** *** The states of a map *)

(** The invariant of the three structures: the pointers of both tables
    are those of entries; the overlay holds no Expunged entry, holds every
    entry of the published table that is not Expunged under the same key,
    and disagrees with the published table on no key; without an overlay
    the published table holds no Expunged entry; the map is amended when
    there is an overlay; no entry serves two keys of a table. *)
Record WFs (s : Map) : Prop := mkWFs {
  wf_read_valid : forall k p,
    m (read_ s) !! k = Some p -> is_Some (heap s !! p);
  wf_dirty_live : forall d k p,
    dirty_ s = Some d -> d !! k = Some p ->
    exists e, heap s !! p = Some e /\ state_ e <> kExpunged;
  wf_read_dirty : forall d k p e,
    dirty_ s = Some d -> m (read_ s) !! k = Some p ->
    heap s !! p = Some e -> state_ e <> kExpunged -> d !! k = Some p;
  wf_dirty_read : forall d k p p',
    dirty_ s = Some d -> d !! k = Some p' -> m (read_ s) !! k = Some p ->
    p' = p;
  wf_no_dirty : forall k p e,
    dirty_ s = None -> m (read_ s) !! k = Some p ->
    heap s !! p = Some e -> state_ e <> kExpunged;
  wf_amended : amended (read_ s) = true <-> is_Some (dirty_ s);
  wf_entry : forall p e, heap s !! p = Some e -> consistent e;
  wf_read_inj : forall k k' p,
    m (read_ s) !! k = Some p -> m (read_ s) !! k' = Some p -> k = k';
  wf_dirty_inj : forall d k k' p,
    dirty_ s = Some d -> d !! k = Some p -> d !! k' = Some p -> k = k'
}.

(** The miss counter stays below the size of the overlay. *)
Definition misses_ok (s : Map) : Prop :=
  match dirty_ s with
  | Some d => 0 <= misses_ s < Z.of_nat (size d)
  | None => misses_ s = 0
  end.

Definition WF (s : Map) : Prop := WFs s /\ misses_ok s.

(** The sizes of the tables, to bound them by [INT_MAX]. *)
Definition table_size (s : Map) : nat :=
  size (m (read_ s)) `max` from_option size 0%nat (dirty_ s).

(** The entry that serves [key], and the value that the map holds for
    [key]. *)
Definition locate (s : Map) (key : Key) : option EntryPtr :=
  match m (read_ s) !! key with
  | Some p => Some p
  | None => if amended (read_ s) then dirty_ s ≫= (.!! key) else None
  end.

Definition entry_value (h : list (Entry Value)) (p : EntryPtr)
  : option Value :=
  h !! p ≫= fun e => value (Entry.Load e).

Definition contents (s : Map) (key : Key) : option Value :=
  locate s key ≫= entry_value (heap s).

(** The state after the overlay [d] is promoted, and after a reset. *)
Definition promoted (d : InnerMap) (s : Map) : Map :=
  {| heap := heap s; read_ := ReadOnly_of d; dirty_ := None; misses_ := 0 |}.
Definition drained (s : Map) : Map :=
  {| heap := heap s; read_ := ReadOnly_new; dirty_ := None; misses_ := 0 |}.

(** The entry at [p] is Present. *)
Definition is_value (h : list (Entry Value)) (p : EntryPtr) : Prop :=
  exists e, h !! p = Some e /\ state_ e = kValue.

(** [s1] is [s] after [DirtyLocked] has built the overlay and the map has
    been marked amended: the Null entries of the published table are
    Expunged now, the Present ones form the overlay. *)
Record overlay_built (s s1 : Map) : Prop := mkOverlayBuilt {
  ob_read : read_ s1 = {| m := m (read_ s); amended := true |};
  ob_misses : misses_ s1 = misses_ s;
  ob_length : length (heap s1) = length (heap s);
  ob_heap : forall q e, heap s !! q = Some e ->
    heap s1 !! q = Some e \/
    (state_ e = kNull /\ heap s1 !! q = Some (expunge e));
  ob_read_heap : forall k q e,
    m (read_ s) !! k = Some q -> heap s !! q = Some e ->
    heap s1 !! q = Some (expunge e);
  ob_dirty : exists d1, dirty_ s1 = Some d1 /\
    forall k p, d1 !! k = Some p <->
      m (read_ s) !! k = Some p /\ is_value (heap s) p
}.

(** A Present entry with the value [v]; the state after the entry at [p]
    is overwritten, after a new entry enters the overlay [d] under [k],
    and after the entry at [p] is overwritten and enters the overlay [d]
    under [k]. *)
Definition present (v : Value) : Entry Value := mkEntry (Some v) kValue.
Definition upd (p : EntryPtr) (e' : Entry Value) (s : Map) : Map :=
  set_heap (<[p:=e']> (heap s)) s.
Definition inserted (k : Key) (e' : Entry Value) (d : InnerMap) (s : Map)
  : Map :=
  set_dirty (Some (<[k:=length (heap s)]> d)) (set_heap (heap s ++ [e']) s).
Definition resurrected (k : Key) (p : EntryPtr) (e' : Entry Value)
    (d : InnerMap) (s : Map) : Map :=
  set_heap (<[p:=e']> (heap s)) (set_dirty (Some (<[k:=p]> d)) s).

(** The state after a miss is recorded against the overlay [d]. *)
Definition miss (d : InnerMap) (s : Map) : Map :=
  if misses_ s + 1 <? static_cast_int (size d)
  then set_misses (misses_ s + 1) s
  else promoted d s.


(** The invariant with the counter in its range and tables of at most
    [n] keys. *)
Definition bounded (n : nat) (s : Map) : Prop :=
  WFs s /\ misses_ok s /\ (table_size s <= n)%nat.

(** The outcome [o] of a call in the state [s] is the result [res] and
    the state [s'], unless the miss counter overflows. *)
Definition returns {A} (o : option (A * Map)) (s : Map) (res : A)
    (s' : Map) : Prop :=
  o = Some (res, s') \/ (o = None /\ INT_MAX <= misses_ s).

(** One call of a public member function that returns. *)
Inductive step (s s' : Map) : Prop :=
  | step_Store key value : Store key value s = Some (tt, s') -> step s s'
  | step_Load key r : Load key s = Some (r, s') -> step s s'
  | step_LoadOrStore key value r :
      LoadOrStore key value s = Some (r, s') -> step s s'
  | step_Delete key r : Delete key s = Some (r, s') -> step s s'
  | step_Range enumerator r : Range enumerator s = Some (r, s') -> step s s'
  | step_Reset raw r : Reset raw s = Some (r, s') -> step s s'.

(** The states that calls reach from a new map. *)
Definition reachable (s : Map) : Prop := rtc step Map_new s.

(** The pairs of a table whose entry [Load] finds, in the order of the
    iteration. *)
Definition found_pair (h : list (Entry Value)) (kv : Key * EntryPtr)
  : option (Key * Value) :=
  entry_value h kv.2 ≫= fun v => Some (kv.1, v).
Definition found_pairs (h : list (Entry Value)) (table : InnerMap)
  : list (Key * Value) :=
  omap (found_pair h) (map_to_list table).

(** The table that [Reset] and [Range] read: the overlay of an amended
    map, the published table of another. *)
Definition final_table (s : Map) : option InnerMap :=
  if amended (read_ s) then dirty_ s else Some (m (read_ s)).

(** The pointers of a list of pairs are those of consistent entries. *)
Definition entries_ok (h : list (Entry Value)) (kvs : list (Key * EntryPtr))
  : Prop :=
  forall k p, (k, p) ∈ kvs -> exists e, h !! p = Some e /\ consistent e.

(** The calls of a predicate that is offered the pairs of a list in order
    and stops the iteration by answering [false]. *)
Fixpoint visited (predicate : Key -> Value -> bool)
    (kvs : list (Key * Value)) : list (Key * Value) :=
  match kvs with
  | [] => []
  | (k, v) :: kvs =>
      (k, v) :: (if predicate k v then visited predicate kvs else [])
  end.

End Map.

Arguments ReadOnly Key {_ _}.
Arguments Map Key {_ _} Value.
Arguments M Key {_ _} Value A.
Arguments Enumerator : clear implicits.

Notation "'let*' x := c 'in' k" := (bind c (fun x => k))
  (at level 10, x name, c at level 100, k at level 200).
Notation "c1 >> c2" := (bind c1 (fun _ => c2))
  (at level 100, c2 at level 200, right associativity).

Arguments mkEntry {Value} _ _.

(** ** A map from strings to integers *)

Abbreviation SMap := (Map string Z).

(** The state after a call. *)
Definition after {A} (c : M string Z A) (s : SMap) : SMap :=
  match c s with
  | Some (_, s') => s'
  | None => s
  end.

(** A predicate that collects every pair. *)
Definition collect : Enumerator string Z := Some (fun _ _ => true).

(** [store("a",1); store("b",2); load("a"); delete("a"); load("a");
    load_or_store("a",9); load("a"); range], with the results. *)
Definition scenario
  : M string Z (option Z * option Z * option Z * (Z * bool) * option Z
                * list (string * Z)) :=
  Store "a" 1 >>
  Store "b" 2 >>
  let* r1 := Load "a" in
  let* r2 := Delete "a" in
  let* r3 := Load "a" in
  let* r4 := LoadOrStore "a" 9 in
  let* r5 := Load "a" in
  let* r6 := Range collect in
  ret (r1, r2, r3, r4, r5, r6).

(** States for the examples: after [store("a",1)]; after [store("b",2)]
    as well, with its overlay; after a [Range] on the first. *)
Definition s_a : SMap := after (Store "a" 1) Map_new.
Definition s_ab : SMap := after (Store "b" 2) s_a.
Definition d_ab : gmap string EntryPtr := default ∅ (dirty_ s_ab).
Definition s_a_promoted : SMap := after (Range collect) s_a.

(** ** juliet::sync::HashTable (include/sync/hash_table.hpp)

    The table behind its reader-writer lock; one thread runs at a time. *)

Module HashTable.

(** [enum EPutStatus] *)
Inductive EPutStatus := PUT_SKIPPED | PUT_NEW | PUT_OVERWRITE.

Section HashTable.
Context `{Countable Key} {Value : Type}.

(** [class HashTable] with its field [map_]. *)
Record HashTable := mkHashTable { map_ : gmap Key Value }.

Definition HashTable_new : HashTable := {| map_ := ∅ |}.

(** [m.emplace(key, value)]: the table, and whether the pair went in. *)
Definition emplace (key : Key) (value : Value) (m : gmap Key Value)
  : gmap Key Value * bool :=
  match m !! key with
  | Some _ => (m, false)
  | None => (<[key:=value]> m, true)
  end.

Definition Put (key : Key) (value : Value) (t : HashTable)
  : EPutStatus * HashTable :=
  let '(m, inserted) := emplace key value (map_ t) in
  if inserted then (PUT_NEW, {| map_ := m |})
  else (PUT_OVERWRITE, {| map_ := <[key:=value]> m |}).

Definition TryPut (key : Key) (value : Value) (t : HashTable)
  : EPutStatus * HashTable :=
  let '(m, inserted) := emplace key value (map_ t) in
  (if inserted then PUT_NEW else PUT_SKIPPED, {| map_ := m |}).

(** [bool Get(const Key &key, Value &value)]: [Some v] is the result
    [true] with [v] assigned to [value]. *)
Definition Get (key : Key) (t : HashTable) : option Value :=
  map_ t !! key.

(** [Value Get(const Key &key)], with [result] for [Value{}]. *)
Definition Get_value (result : Value) (key : Key) (t : HashTable) : Value :=
  match Get key t with
  | Some v => v
  | None => result
  end.

(** [bool Remove(const Key &key, Value &value)] *)
Definition Remove (key : Key) (t : HashTable) : option Value * HashTable :=
  match map_ t !! key with
  | Some v => (Some v, {| map_ := delete key (map_ t) |})
  | None => (None, t)
  end.

(** [void Clear(Map &m)]: [m.clear(); map_.swap(m)]; the result is [m]
    at the return. *)
Definition Clear (m : gmap Key Value) (t : HashTable)
  : gmap Key Value * HashTable :=
  let m : gmap Key Value := ∅ in
  (map_ t, {| map_ := m |}).

(** [void ForEach(const Enumerator &)]: the calls of the enumerator, in
    order; an empty enumerator is not called. *)
Definition ForEach (enumerator : option (Key -> Value -> unit))
    (t : HashTable) : list (Key * Value) :=
  match enumerator with
  | None => []
  | Some _ => map_to_list (map_ t)
  end.

(** The loop of [RemoveIf] from the iterator at the head of [kvs].  When
    the predicate answers [true] the body steps the iterator and the loop
    steps it again, which is undefined at [end()]; when it answers [false]
    the body erases the element and the loop steps the erased iterator,
    which is undefined.  [None] is undefined behaviour. *)
Fixpoint RemoveIf_loop (predicator : Key -> Value -> bool)
    (kvs : list (Key * Value)) (count : Z) : option Z :=
  match kvs with
  | [] => Some count
  | (k, v) :: rest =>
      if predicator k v then
        match rest with
        | [] => None
        | _ :: rest => RemoveIf_loop predicator rest count
        end
      else None
  end.

Definition RemoveIf (predicator : option (Key -> Value -> bool))
    (t : HashTable) : option (Z * HashTable) :=
  let count := 0 in
  match predicator with
  | None => Some (count, t)
  | Some predicator =>
      match RemoveIf_loop predicator (map_to_list (map_ t)) count with
      | Some count => Some (count, t)
      | None => None
      end
  end.

End HashTable.

Arguments HashTable Key {_ _} Value.

End HashTable.

(** ** juliet::sync::CachedMap (include/sync/cached_map.hpp) *)

Module cached.

Section cached.
Context `{Countable Key} {Value : Type}.

(** [struct Entry] with its field [val_]. *)
Record Entry := mkEntry { val_ : Value }.

Definition Entry_Store (v : Value) (e : Entry) : Entry := {| val_ := v |}.
Definition Entry_Load (e : Entry) : Value := val_ e.

(** [class Read].  Every entry is made in [Update] and put under one key,
    and its pointer leaves the table only for the time of a call: the
    table holds the entries themselves. *)
Record Read := mkRead { map_ : gmap Key Entry }.

Definition Read_new : Read := {| map_ := ∅ |}.

(** [std::pair<EntryPtr, bool> Get(key)]: [None] is [{nullptr, false}]. *)
Definition Get (key : Key) (r : Read) : option Entry := map_ r !! key.

Definition TryStore (key : Key) (val : Value) (r : Read) : Read :=
  match Get key r with
  | None => r
  | Some entry => {| map_ := <[key:=Entry_Store val entry]> (map_ r) |}
  end.

Definition Update (key : Key) (val : Value) (r : Read) : Read :=
  let entry := {| val_ := val |} in
  match map_ r !! key with
  | None => {| map_ := <[key:=entry]> (map_ r) |}
  | Some entry => {| map_ := <[key:=Entry_Store val entry]> (map_ r) |}
  end.

Definition Clear (r : Read) : Read := {| map_ := ∅ |}.

End cached.

Arguments Entry : clear implicits.
Arguments Read Key {_ _} Value.

End cached.

Module CachedMap.

Import HashTable.

Section CachedMap.
Context `{Countable Key} {Value : Type}.

(** [ValuePtr], a [std::shared_ptr<Value>]: [None] is [nullptr]. *)
Abbreviation ValuePtr := (option Value).

(** [class CachedMap] with its fields [read_] and [write_]. *)
Record CachedMap := mkCachedMap {
  read_ : cached.Read Key ValuePtr;
  write_ : HashTable Key ValuePtr
}.

Definition CachedMap_new : CachedMap :=
  {| read_ := cached.Read_new; write_ := HashTable_new |}.

Definition Put (key : Key) (value : Value) (c : CachedMap)
  : EPutStatus * CachedMap :=
  let val := Some value in
  let '(status, w) := HashTable.Put key val (write_ c) in
  let r := cached.TryStore key val (read_ c) in
  (status, {| read_ := r; write_ := w |}).

Definition TryPut (key : Key) (value : Value) (c : CachedMap)
  : EPutStatus * CachedMap :=
  let val := Some value in
  let '(status, w) := HashTable.TryPut key val (write_ c) in
  let r :=
    match status with
    | PUT_NEW => cached.TryStore key val (read_ c)
    | _ => read_ c
    end in
  (status, {| read_ := r; write_ := w |}).

(** [bool Get(const Key &key, Value &value) const]: [Some v] is the
    result [true] with [v] assigned to [value].  The cache behind [read_]
    is written to. *)
Definition Get (key : Key) (c : CachedMap) : option Value * CachedMap :=
  match cached.Get key (read_ c) with
  | Some entry =>
      let val := cached.Entry_Load entry in
      (val, c)
  | None =>
      let val := HashTable.Get_value None key (write_ c) in
      (val, {| read_ := cached.Update key val (read_ c);
               write_ := write_ c |})
  end.

(** [bool Remove(const Key &key, Value &value)]; the outer [None] is
    [*val] for a null [val]. *)
Definition Remove (key : Key) (c : CachedMap)
  : option (option Value * CachedMap) :=
  match HashTable.Remove key (write_ c) with
  | (None, _) => Some (None, c)
  | (Some val, w) =>
      match val with
      | Some value =>
          Some (Some value,
                {| read_ := cached.Update key None (read_ c); write_ := w |})
      | None => None
      end
  end.

(** The loop of [Clear]: [m.emplace(kv.first, *kv.second)]. *)
Fixpoint Clear_loop (kvs : list (Key * ValuePtr)) (m : gmap Key Value)
  : option (gmap Key Value) :=
  match kvs with
  | [] => Some m
  | (k, val) :: kvs =>
      match val with
      | Some value =>
          Clear_loop kvs (match m !! k with
                          | Some _ => m
                          | None => <[k:=value]> m
                          end)
      | None => None
      end
  end.

(** [void Clear(Map &m)]: the result is [m] at the return. *)
Definition Clear (m : gmap Key Value) (c : CachedMap)
  : option (gmap Key Value * CachedMap) :=
  let '(w, wt) := HashTable.Clear ∅ (write_ c) in
  let r := cached.Clear (read_ c) in
  match Clear_loop (map_to_list w) m with
  | Some m => Some (m, {| read_ := r; write_ := wt |})
  | None => None
  end.

(** One call of a member function that returns. *)
Inductive step (c c' : CachedMap) : Prop :=
  | step_Put key value st : Put key value c = (st, c') -> step c c'
  | step_TryPut key value st : TryPut key value c = (st, c') -> step c c'
  | step_Get key r : Get key c = (r, c') -> step c c'
  | step_Remove key r : Remove key c = Some (r, c') -> step c c'
  | step_Clear m m' : Clear m c = Some (m', c') -> step c c'.

Definition reachable (c : CachedMap) : Prop := rtc step CachedMap_new c.

(** The cache agrees with the table, and the table holds no null
    pointer. *)
Definition coherent (c : CachedMap) : Prop :=
  (forall k e, cached.map_ (read_ c) !! k = Some e ->
     cached.val_ e = mjoin (HashTable.map_ (write_ c) !! k))
  /\ (forall k val, HashTable.map_ (write_ c) !! k = Some val ->
        is_Some val).

End CachedMap.

Arguments CachedMap Key {_ _} Value.

End CachedMap.

(** ** juliet::sync::List (include/sync/list.hpp) *)

Module SyncList.

Section SyncList.
Context {Type_ : Type}.

(** [class List] with its fields [list_] and [buffer_]. *)
Record List := mkList { list_ : list Type_; buffer_ : list Type_ }.

(** [List(const Container &)] and [List(std::list<Type> &&)] *)
Definition List_of (container : list Type_) : List :=
  {| list_ := container; buffer_ := [] |}.

Definition Add (value : Type_) (l : List) : List :=
  {| list_ := list_ l; buffer_ := buffer_ l ++ [value] |}.

(** [for (const auto &v : buffer) list_.emplace_back(v)] *)
Fixpoint drain (buffer : list Type_) (list_ : list Type_) : list Type_ :=
  match buffer with
  | [] => list_
  | v :: buffer => drain buffer (list_ ++ [v])
  end.

(** [for (const auto &v : list_) func(v)]: the calls of [func]. *)
Fixpoint visit (list_ : list Type_) (calls : list Type_) : list Type_ :=
  match list_ with
  | [] => calls
  | v :: list_ => visit list_ (calls ++ [v])
  end.

(** [void ForEach(func)]: the calls of [func], in order, and the list. *)
Definition ForEach (l : List) : list Type_ * List :=
  let buffer := buffer_ l in
  let l := {| list_ := drain buffer (list_ l); buffer_ := [] |} in
  (visit (list_ l) [], l).

(** [++count], whose overflow is undefined *)
Definition incr (count : Z) : option Z :=
  if count <? INT_MAX then Some (count + 1) else None.

(** The first loop of [ForEachRemove]: what is left of the list from the
    iterator on, and the count. *)
Fixpoint erase_loop (func : Type_ -> bool) (rest : list Type_) (count : Z)
  : option (list Type_ * Z) :=
  match rest with
  | [] => Some ([], count)
  | x :: rest =>
      if func x then
        match erase_loop func rest count with
        | Some (rest, count) => Some (x :: rest, count)
        | None => None
        end
      else
        match incr count with
        | Some count => erase_loop func rest count
        | None => None
        end
  end.

(** The second loop of [ForEachRemove], over the buffer. *)
Fixpoint buffer_loop (func : Type_ -> bool) (buffer : list Type_)
    (list_ : list Type_) (count : Z) : option (list Type_ * Z) :=
  match buffer with
  | [] => Some (list_, count)
  | v :: buffer =>
      if func v then buffer_loop func buffer (list_ ++ [v]) count
      else
        match incr count with
        | Some count => buffer_loop func buffer list_ count
        | None => None
        end
  end.

(** [int ForEachRemove(func)]: the count and the list. *)
Definition ForEachRemove (func : Type_ -> bool) (l : List)
  : option (Z * List) :=
  let count := 0 in
  match erase_loop func (list_ l) count with
  | Some (list1, count) =>
      let buffer := buffer_ l in
      match buffer_loop func buffer list1 count with
      | Some (list2, count) =>
          Some (count, {| list_ := list2; buffer_ := [] |})
      | None => None
      end
  | None => None
  end.

End SyncList.

Arguments List : clear implicits.

End SyncList.

(** ** DeferGuard (include/defer.hpp), juliet::sync::Once
    (include/sync/once.hpp) and juliet::sync::SingleCall
    (include/sync/single_call.hpp) *)

Module Defer.

(** How a call ends: it returns, or it throws. *)
Inductive Outcome := Returned | Thrown.

Section Defer.
Context {S : Type}.

(** [class DeferGuard] with its field [routine_], a [std::function] over
    the state [S] that it captures; [None] is the empty function. *)
Record DeferGuard := mkDeferGuard { routine_ : option (S -> S) }.

(** The constructor: the [std::bind] of a callable is not empty. *)
Definition DeferGuard_of (callOnExit : S -> S) : DeferGuard :=
  {| routine_ := Some callOnExit |}.

Definition Cancel (g : DeferGuard) : DeferGuard := {| routine_ := None |}.

(** [~DeferGuard()] *)
Definition destroy (g : DeferGuard) (s : S) : S :=
  match routine_ g with
  | Some routine => routine s
  | None => s
  end.

(** [DEFER(routine);] followed by the rest [body] of its block: the guard
    has a name that the block cannot write, so it is not cancelled, and it
    is destroyed when the block is left, by a return or by an
    exception. *)
Definition DEFER (routine : S -> S) (body : S -> S * Outcome)
  : S -> S * Outcome :=
  fun s =>
    let guard := DeferGuard_of routine in
    let '(s, outcome) := body s in
    (destroy guard s, outcome).

End Defer.

Arguments DeferGuard : clear implicits.

End Defer.

Module Once.

Import Defer.

Section Once.
Context {W : Type}.

(** [class Once] with its field [done_]; a call runs in a state of the
    object and of the rest [W] of the program, which the function of the
    call works on. *)
Record Once := mkOnce { done_ : bool }.

Definition Once_new : Once := {| done_ := false |}.

Definition CallSlow (_func : W -> W * Outcome)
  : Once * W -> (Once * W) * Outcome :=
  fun s =>
    if negb (done_ s.1) then
      DEFER (fun s => ({| done_ := true |}, s.2))
            (fun s => let '(w, outcome) := _func s.2 in ((s.1, w), outcome))
            s
    else (s, Returned).

Definition Call (_f : W -> W * Outcome) : Once * W -> (Once * W) * Outcome :=
  fun s =>
    if negb (done_ s.1) then CallSlow _f s
    else (s, Returned).

(** Calls one after the other, by a caller that catches what they
    throw. *)
Fixpoint Calls (fs : list (W -> W * Outcome)) (s : Once * W) : Once * W :=
  match fs with
  | [] => s
  | f :: fs => Calls fs (Call f s).1
  end.

End Once.

End Once.

Module SingleCall.

Import Defer.

(** What [SingleCall] gives back: a [bool], or the exception of the
    call. *)
Inductive Result := Ret (b : bool) | Throw.

Section SingleCall.
Context {W : Type}.

(** [bool SingleCall(std::atomic_bool &__doCall, __f, __args...)] in a
    state of the flag [__doCall] and of the rest [W] of the program; the
    call can reach both. *)
Definition SingleCall (call : bool * W -> (bool * W) * Outcome)
  : bool * W -> (bool * W) * Result :=
  fun s =>
    let expected := false in
    if negb (bool_decide (s.1 = expected)) then (s, Ret false)
    else
      let s := (true, s.2) in
      let '(s, outcome) := DEFER (fun s => (false, s.2)) call s in
      (s, match outcome with
          | Returned => Ret true
          | Thrown => Throw
          end).

(** A callable that calls [SingleCall] on the same flag and drops its
    result. *)
Definition nested (call : bool * W -> (bool * W) * Outcome)
  : bool * W -> (bool * W) * Outcome :=
  fun s =>
    let '(s, result) := SingleCall call s in
    (s, match result with
        | Ret _ => Returned
        | Throw => Thrown
        end).

End SingleCall.

End SingleCall.

(** ** More states for the examples *)

(** A [*raw] that holds a pair, a cached map after [Put("a", 1)], and a
    list with an added element. *)
Definition raw_a : gmap string Z := {["a" := 5]}.
Definition c_a : CachedMap.CachedMap string Z :=
  (CachedMap.Put "a" 1 CachedMap.CachedMap_new).2.
Definition l_12_3 : SyncList.List Z :=
  SyncList.Add 3 (SyncList.List_of [1; 2]).

(** ** The member functions of [Entry], one thread *)

Section EntryFacts.
Context {Value : Type}.
Implicit Types (e : Entry Value) (val : Value) (ptr : option Value).

Lemma compare_exchange_strong_same desired e :
  compare_exchange_strong (state_ e) desired e
  = (true, state_ e, set_state desired e).
Proof. unfold compare_exchange_strong. by rewrite decide_True. Qed.

Lemma TryStore_eq val e :
  Entry.TryStore val e
  = Some (if decide (state_ e = kExpunged) then (false, e)
          else (true, mkEntry (Some val) kValue)).
Proof.
  unfold Entry.TryStore. simpl. destruct (decide _) as [|Hne]; [done|].
  by rewrite compare_exchange_strong_same.
Qed.

Lemma StoreLocked_eq val e :
  Entry.StoreLocked val e = Some (tt, mkEntry (Some val) kValue).
Proof.
  unfold Entry.StoreLocked. simpl. by rewrite compare_exchange_strong_same.
Qed.

Lemma TryLoadOrStore_eq val e :
  Entry.TryLoadOrStore val e
  = Some match state_ e with
         | kExpunged => (mkTryLoadOrStoreResult None false false, e)
         | kValue => (mkTryLoadOrStoreResult (ptr_ e) true true, e)
         | kNull =>
             (mkTryLoadOrStoreResult (Some val) false true,
              mkEntry (Some val) kValue)
         end.
Proof.
  unfold Entry.TryLoadOrStore. destruct e as [ptr []]; simpl; try done.
Qed.

Lemma Delete_eq e :
  Entry.Delete e
  = match state_ e with
    | kValue =>
        match ptr_ e with
        | Some v => Some (Some v, mkEntry None kNull)
        | None => None
        end
    | _ => Some (None, e)
    end.
Proof. unfold Entry.Delete. by destruct e as [[v|] []]. Qed.

Lemma TryExpungeLocked_eq e :
  Entry.TryExpungeLocked e
  = Some (bool_decide (state_ e <> kValue), expunge e).
Proof. unfold Entry.TryExpungeLocked. by destruct e as [ptr []]. Qed.

Lemma UnexpungeLocked_eq e :
  Entry.UnexpungeLocked e
  = if decide (state_ e = kExpunged) then (true, mkEntry None kNull)
    else (false, e).
Proof. unfold Entry.UnexpungeLocked. by destruct e as [ptr []]. Qed.

(** The bound on the rounds of the loops is not met: every larger bound
    gives the same result. *)
Lemma TryStore_fuel n val e :
  TryStore_loop (S n) val (state_ e) e = Entry.TryStore val e.
Proof.
  rewrite TryStore_eq. simpl. destruct (decide _); [done|].
  by rewrite compare_exchange_strong_same.
Qed.

Lemma StoreLocked_fuel n val e :
  StoreLocked_loop (S n) val (state_ e) e = Entry.StoreLocked val e.
Proof. rewrite StoreLocked_eq. simpl. by rewrite compare_exchange_strong_same. Qed.

Lemma TryLoadOrStore_fuel n val e :
  state_ e = kNull ->
  TryLoadOrStore_loop (S n) val (state_ e) e = Entry.TryLoadOrStore val e.
Proof.
  intros He. rewrite TryLoadOrStore_eq. simpl.
  rewrite compare_exchange_strong_same, He. by destruct e.
Qed.

Lemma Delete_fuel n e : Delete_loop (S n) (state_ e) e = Entry.Delete e.
Proof. rewrite Delete_eq. by destruct e as [[v|] []]. Qed.

Lemma TryExpungeLocked_fuel n e :
  TryExpungeLocked_loop (S n) (state_ e) e = Entry.TryExpungeLocked e.
Proof. rewrite TryExpungeLocked_eq. by destruct e as [ptr []]. Qed.

(** C5: [TryLoadOrStore(v)] on an Expunged entry answers [ok = false] and
    leaves the entry as it is; on a Present entry it answers the stored
    value with [loaded = true], [ok = true] and leaves the entry as it is;
    on a Null entry it makes the entry Present with [v] and answers [v]
    with [loaded = false], [ok = true]. *)
Theorem TryLoadOrStore_by_tag val ptr :
  Entry.TryLoadOrStore val (mkEntry ptr kExpunged)
    = Some (mkTryLoadOrStoreResult None false false, mkEntry ptr kExpunged)
  /\ Entry.TryLoadOrStore val (mkEntry ptr kValue)
    = Some (mkTryLoadOrStoreResult ptr true true, mkEntry ptr kValue)
  /\ Entry.TryLoadOrStore val (mkEntry ptr kNull)
    = Some (mkTryLoadOrStoreResult (Some val) false true,
            mkEntry (Some val) kValue).
Proof. by rewrite !TryLoadOrStore_eq. Qed.

End EntryFacts.

(** ** The invariant is kept *)

Section MapFacts.
Context `{Countable Key} {Value : Type}.
Implicit Types (s : Map Key Value) (k key : Key) (p q : EntryPtr).
Implicit Types (e : Entry Value) (h : list (Entry Value)).
Implicit Types (d : gmap Key EntryPtr) (v : Value).

Lemma lookup_upd h p e' q e0 :
  h !! q = Some e0 ->
  <[p:=e']> h !! q = Some (if decide (q = p) then e' else e0).
Proof.
  intros Hq. destruct (decide (q = p)) as [->|Hne].
  - apply list_lookup_insert_eq. by eapply lookup_lt_Some.
  - by rewrite list_lookup_insert_ne.
Qed.

Lemma lookup_upd_inv h p e' q e1 :
  <[p:=e']> h !! q = Some e1 ->
  (q = p /\ e1 = e') \/ (q <> p /\ h !! q = Some e1).
Proof.
  intros Hq. apply list_lookup_insert_Some in Hq. naive_solver.
Qed.

(** Writing to an entry keeps the invariant when the entry stays on its
    side of Expunged. *)
Lemma WFs_upd s p e e' :
  WFs s -> heap s !! p = Some e ->
  (state_ e = kExpunged <-> state_ e' = kExpunged) -> consistent e' ->
  WFs (set_heap (<[p:=e']> (heap s)) s).
Proof.
  intros [Hrv Hdl Hrd Hdr Hnd Ham Hen Hri Hdi] Hp Htag Hcons.
  constructor; simpl; try done.
  - intros k q Hk. apply lookup_lt_is_Some. rewrite length_insert.
    apply lookup_lt_is_Some. eauto.
  - intros d k q Hd Hk. destruct (Hdl d k q Hd Hk) as (e0 & He0 & Hne).
    eexists. split; [by apply lookup_upd|].
    destruct (decide (q = p)) as [->|]; naive_solver.
  - intros d k q e1 Hd Hk Hq Hne.
    apply lookup_upd_inv in Hq as [[-> ->]|[? Hq]]; naive_solver.
  - intros k q e1 Hd Hk Hq.
    apply lookup_upd_inv in Hq as [[-> ->]|[? Hq]]; naive_solver.
  - intros q e1 Hq.
    apply lookup_upd_inv in Hq as [[-> ->]|[? Hq]]; naive_solver.
Qed.

Lemma WFs_set_misses s n : WFs s -> WFs (set_misses n s).
Proof. intros []. by constructor. Qed.

(** Promotion. *)
Lemma WFs_promoted s d : WFs s -> dirty_ s = Some d -> WFs (promoted d s).
Proof.
  intros [Hrv Hdl Hrd Hdr Hnd Ham Hen Hri Hdi] Hd.
  constructor; simpl; try done.
  - intros k p Hk. destruct (Hdl d k p Hd Hk) as (e & -> & _). eauto.
  - intros k p e _ Hk Hp. destruct (Hdl d k p Hd Hk) as (e' & ? & ?).
    naive_solver.
  - eauto.
Qed.

(** A reset. *)
Lemma WFs_drained s : WFs s -> WFs (drained s).
Proof.
  intros [Hrv Hdl Hrd Hdr Hnd Ham Hen Hri Hdi].
  constructor; simpl; try done; by setoid_rewrite lookup_empty.
Qed.

(** A key of the overlay alone is erased. *)
Lemma WFs_erase s d k :
  WFs s -> dirty_ s = Some d -> m (read_ s) !! k = None ->
  WFs (set_dirty (Some (delete k d)) s).
Proof.
  intros [Hrv Hdl Hrd Hdr Hnd Ham Hen Hri Hdi] Hd Hk.
  constructor; simpl; try done.
  - intros ? k' p [= <-] Hk'. apply lookup_delete_Some in Hk' as [_ Hk'].
    eauto.
  - intros ? k' p e [= <-] Hk' Hp Hne. apply lookup_delete_Some.
    split; [congruence|eauto].
  - intros ? k' p p' [= <-] Hk'. apply lookup_delete_Some in Hk' as [_ Hk'].
    eauto.
  - rewrite Ham, Hd. split; eauto.
  - intros ? k1 k2 p [= <-] H1 H2.
    apply lookup_delete_Some in H1 as [_ H1].
    apply lookup_delete_Some in H2 as [_ H2]. eauto.
Qed.

(** A new entry enters the overlay under a key that neither table has. *)
Lemma WFs_fresh s d k e' :
  WFs s -> dirty_ s = Some d -> m (read_ s) !! k = None -> d !! k = None ->
  consistent e' -> state_ e' <> kExpunged ->
  WFs (set_dirty (Some (<[k:=length (heap s)]> d))
         (set_heap (heap s ++ [e']) s)).
Proof.
  intros [Hrv Hdl Hrd Hdr Hnd Ham Hen Hri Hdi] Hd Hk Hdk Hcons Hne.
  assert (Hold : forall k' p, d !! k' = Some p -> p <> length (heap s)).
  { intros k' p Hk' ->. destruct (Hdl d k' _ Hd Hk') as (e & He & _).
    apply lookup_lt_Some in He. lia. }
  constructor; simpl; try done.
  - intros k' p Hk'. destruct (Hrv k' p Hk') as [e He].
    exists e. by apply lookup_app_l_Some.
  - intros ? k' p [= <-] Hk'. apply lookup_insert_Some in Hk' as [[<- <-]|[? Hk']].
    + exists e'. split; [|done]. by rewrite list_lookup_middle.
    + destruct (Hdl d k' p Hd Hk') as (e & He & ?).
      exists e. split; [|done]. by apply lookup_app_l_Some.
  - intros ? k' p e [= <-] Hk' Hp Hne'.
    destruct (Hrv k' p Hk') as [e0 He0].
    rewrite (lookup_app_l_Some _ _ _ _ He0) in Hp. simplify_eq.
    rewrite lookup_insert_ne by congruence. eauto.
  - intros ? k' p p' [= <-] Hk' Hr.
    apply lookup_insert_Some in Hk' as [[<- <-]|[? Hk']]; [congruence|eauto].
  - rewrite Ham, Hd. split; eauto.
  - intros p e Hp. apply lookup_app_Some in Hp as [Hp|[_ Hp]]; [eauto|].
    apply list_lookup_singleton_Some in Hp as [_ <-]. done.
  - intros ? k1 k2 p [= <-] H1 H2.
    apply lookup_insert_Some in H1 as [[<- <-]|[? H1]];
      apply lookup_insert_Some in H2 as [[<- ?]|[? H2]]; try done.
    + by destruct (Hold _ _ H2).
    + subst. by destruct (Hold _ _ H1).
    + eauto.
Qed.

(** An Expunged entry of the published table is written to and enters the
    overlay. *)
Lemma WFs_resurrect s d k p e e' :
  WFs s -> dirty_ s = Some d -> m (read_ s) !! k = Some p ->
  heap s !! p = Some e -> state_ e = kExpunged ->
  consistent e' -> state_ e' <> kExpunged ->
  WFs (set_heap (<[p:=e']> (heap s)) (set_dirty (Some (<[k:=p]> d)) s)).
Proof.
  intros [Hrv Hdl Hrd Hdr Hnd Ham Hen Hri Hdi] Hd Hk Hp Hexp Hcons Hne.
  assert (Hold : forall k' q, d !! k' = Some q -> q <> p).
  { intros k' q Hk' ->. destruct (Hdl d k' _ Hd Hk') as (e0 & He0 & ?).
    congruence. }
  constructor; simpl; try done.
  - intros k' q Hk'. apply lookup_lt_is_Some. rewrite length_insert.
    apply lookup_lt_is_Some. eauto.
  - intros ? k' q [= <-] Hk'.
    apply lookup_insert_Some in Hk' as [[<- <-]|[? Hk']].
    + exists e'. split; [|done]. apply list_lookup_insert_eq.
      by eapply lookup_lt_Some.
    + destruct (Hdl d k' q Hd Hk') as (e0 & He0 & ?).
      exists e0. split; [|done]. rewrite list_lookup_insert_ne; [done|].
      intros ->. by destruct (Hold _ _ Hk').
  - intros ? k' q e1 [= <-] Hk' Hq Hne'.
    apply lookup_upd_inv in Hq as [[-> ->]|[? Hq]].
    + rewrite (Hri _ _ _ Hk' Hk). by rewrite lookup_insert_eq.
    + rewrite lookup_insert_ne; [eauto|]. intros <-. congruence.
  - intros ? k' q q' [= <-] Hk' Hr.
    apply lookup_insert_Some in Hk' as [[<- <-]|[? Hk']]; [congruence|eauto].
  - rewrite Ham, Hd. split; eauto.
  - intros q e1 Hq.
    apply lookup_upd_inv in Hq as [[-> ->]|[? Hq]]; eauto.
  - intros ? k1 k2 q [= <-] H1 H2.
    apply lookup_insert_Some in H1 as [[<- <-]|[? H1]];
      apply lookup_insert_Some in H2 as [[<- ?]|[? H2]]; try done.
    + by destruct (Hold _ _ H2).
    + subst. by destruct (Hold _ _ H1).
    + eauto.
Qed.

(** *** Building the overlay *)

Lemma expunge_idemp e : expunge (expunge e) = expunge e.
Proof. by destruct e as [ptr []]. Qed.

Lemma expunge_value e : state_ (expunge e) = kValue <-> state_ e = kValue.
Proof. by destruct e as [ptr []]. Qed.

Lemma expunge_consistent e : consistent e -> consistent (expunge e).
Proof. unfold consistent. destruct e as [ptr []]; simpl; naive_solver. Qed.

Lemma on_entry_eq {B} p (f : Entry Value -> option (B * Entry Value)) s e b e' :
  heap s !! p = Some e -> f e = Some (b, e') ->
  on_entry p f s = Some (b, set_heap (<[p:=e']> (heap s)) s).
Proof. intros Hp Hf. unfold on_entry. by rewrite Hp, Hf. Qed.

Lemma DirtyLocked_loop_spec kvs : forall s d,
  dirty_ s = Some d ->
  NoDup kvs.*1 ->
  (forall k p, (k, p) ∈ kvs -> d !! k = None /\ is_Some (heap s !! p)) ->
  exists s' d',
    DirtyLocked_loop kvs s = Some (tt, s')
    /\ read_ s' = read_ s /\ misses_ s' = misses_ s
    /\ dirty_ s' = Some d'
    /\ length (heap s') = length (heap s)
    /\ (forall q e, heap s !! q = Some e ->
          heap s' !! q = Some (if decide (q ∈ kvs.*2) then expunge e else e))
    /\ (forall k p, d' !! k = Some p <->
          d !! k = Some p \/ ((k, p) ∈ kvs /\ is_value (heap s) p)).
Proof.
  induction kvs as [|[k0 p0] kvs IH]; intros s d Hd Hnd Hkvs.
  - exists s, d. simpl. repeat split; try done.
    + naive_solver.
    + intros [?|[Hin _]]; [done|]. by apply elem_of_nil in Hin.
  - apply NoDup_cons in Hnd as [Hk0 Hnd]. simpl in Hk0.
    destruct (Hkvs k0 p0) as [Hdk0 [e0 He0]]; [left|].
    simpl. unfold bind at 1.
    rewrite (on_entry_eq _ _ _ _ _ _ He0 (TryExpungeLocked_eq e0)).
    set (h1 := <[p0:=expunge e0]> (heap s)).
    assert (Hh1 : forall q e, heap s !! q = Some e ->
              h1 !! q = Some (if decide (q = p0) then expunge e0 else e)).
    { intros q e Hq. by apply lookup_upd. }
    assert (Hval : forall q, is_value h1 q <-> is_value (heap s) q).
    { intros q. unfold is_value. split.
      - intros (e & Hq & Hst). apply lookup_upd_inv in Hq as [[-> ->]|[? Hq]].
        + exists e0. split; [done|]. by apply expunge_value.
        + eauto.
      - intros (e & Hq & Hst). rewrite (Hh1 _ _ Hq).
        destruct (decide (q = p0)) as [->|]; [|eauto].
        simplify_eq. eexists. split; [done|]. by apply expunge_value. }
    destruct (decide (state_ e0 = kValue)) as [Hv|Hv].
    + rewrite bool_decide_eq_false_2 by naive_solver. simpl.
      unfold bind at 1. unfold dirty_emplace, bind at 1, deref_dirty. simpl.
      rewrite Hd, Hdk0. unfold put_dirty. simpl.
      edestruct (IH (set_dirty (Some (<[k0:=p0]> d)) (set_heap h1 s)))
        as (s' & d' & Hrun & Hr & Hm & Hd' & Hlen & Hheap & Hdirty);
        [done|done| |].
      { intros k p Hin. destruct (Hkvs k p) as [? [e He]]; [by right|].
        split.
        - rewrite lookup_insert_ne; [done|]. intros <-. apply Hk0.
          apply list_elem_of_fmap. by exists (k0, p).
        - simpl. rewrite (Hh1 _ _ He). eauto. }
      exists s', d'. rewrite Hrun. simpl in *. repeat split; try done.
      * rewrite Hlen. apply length_insert.
      * intros q e Hq. rewrite (Hheap _ _ (Hh1 _ _ Hq)). f_equal.
        repeat case_decide; simplify_eq; rewrite ?expunge_idemp; try done;
          exfalso; set_solver.
      * rewrite Hdirty. setoid_rewrite Hval.
        rewrite lookup_insert_Some, elem_of_cons.
        intros [[[<- <-]|[? ?]]|[? ?]]; eauto.
        right. split; [by left|]. exists e0. eauto.
      * rewrite Hdirty. setoid_rewrite Hval.
        rewrite lookup_insert_Some, elem_of_cons.
        intros [Hk|[[[= <- <-]|Hin] Hq]]; eauto.
        destruct (decide (k0 = k)) as [<-|]; [|eauto].
        congruence.
    + rewrite bool_decide_eq_true_2 by done. simpl.
      unfold bind at 1. unfold ret at 1.
      edestruct (IH (set_heap h1 s))
        as (s' & d' & Hrun & Hr & Hm & Hd' & Hlen & Hheap & Hdirty);
        [done|done| |].
      { intros k p Hin. destruct (Hkvs k p) as [? [e He]]; [by right|].
        split; [done|]. simpl. rewrite (Hh1 _ _ He). eauto. }
      exists s', d'. rewrite Hrun. simpl in *. repeat split; try done.
      * rewrite Hlen. apply length_insert.
      * intros q e Hq. rewrite (Hheap _ _ (Hh1 _ _ Hq)). f_equal.
        repeat case_decide; simplify_eq; rewrite ?expunge_idemp; try done;
          exfalso; set_solver.
      * rewrite Hdirty. setoid_rewrite Hval. rewrite elem_of_cons.
        naive_solver.
      * rewrite Hdirty. setoid_rewrite Hval. rewrite elem_of_cons.
        intros [Hk|[[[= <- <-]|Hin] Hq]]; eauto.
        destruct Hq as (e & He & Hst). congruence.
Qed.

Lemma DirtyLocked_spec s :
  WFs s -> dirty_ s = None ->
  exists s1,
    (DirtyLocked >> read_set_amended true) s = Some (tt, s1)
    /\ overlay_built s s1.
Proof.
  intros Hwf Hd.
  destruct (DirtyLocked_loop_spec (map_to_list (m (read_ s)))
              (set_dirty (Some ∅) s) ∅)
    as (s' & d' & Hrun & Hr & Hm & Hd' & Hlen & Hheap & Hdirty); [done|..].
  { apply NoDup_fst_map_to_list. }
  { intros k p Hin. apply elem_of_map_to_list in Hin. split; [done|].
    simpl. by eapply wf_read_valid. }
  simpl in *.
  exists (set_read {| m := m (read_ s'); amended := true |} s').
  split.
  - unfold bind, DirtyLocked, get_dirty, bind, put_dirty, read_Load.
    rewrite Hd. simpl. rewrite Hrun. done.
  - constructor; cbn [heap read_ dirty_ misses_ set_read]; try done.
    + by rewrite Hr.
    + intros q e Hq. rewrite (Hheap _ _ Hq). case_decide; [|by left].
      destruct (decide (state_ e = kNull)); [by right|]. left. f_equal.
      by destruct e as [ptr []].
    + intros k q e Hk Hq. rewrite (Hheap _ _ Hq). rewrite decide_True; [done|].
      apply list_elem_of_fmap. exists (k, q). split; [done|].
      by apply elem_of_map_to_list.
    + exists d'. split; [done|]. intros k p. rewrite Hdirty, lookup_empty.
      rewrite elem_of_map_to_list. naive_solver.
Qed.

Lemma overlay_built_inv s s1 q e1 :
  overlay_built s s1 -> heap s1 !! q = Some e1 ->
  exists e, heap s !! q = Some e /\ (e1 = e \/ e1 = expunge e).
Proof.
  intros [_ _ Hlen Hheap _ _] Hq.
  destruct (lookup_lt_is_Some_2 (heap s) q) as [e He].
  { rewrite <-Hlen. by eapply lookup_lt_Some. }
  exists e. split; [done|]. destruct (Hheap _ _ He) as [?|[_ ?]]; naive_solver.
Qed.

Lemma WFs_overlay_built s s1 :
  WFs s -> dirty_ s = None -> overlay_built s s1 -> WFs s1.
Proof.
  intros Hwf Hd Hob.
  destruct (Hob) as [Hr Hm Hlen Hheap Hrh (d1 & Hd1 & Hdirty)].
  constructor; rewrite ?Hr, ?Hd1; simpl.
  - intros k p Hk. destruct (wf_read_valid _ Hwf _ _ Hk) as [e He].
    destruct (Hheap _ _ He) as [?|[_ ?]]; eauto.
  - intros ? k p [= <-] Hk. apply Hdirty in Hk as [Hk (e & He & Hv)].
    exists e. rewrite (Hrh _ _ _ Hk He). split; [|congruence].
    by destruct e as [ptr []]; simplify_eq/=.
  - intros ? k p e1 [= <-] Hk Hp Hne. apply Hdirty. split; [done|].
    destruct (wf_read_valid _ Hwf _ _ Hk) as [e He].
    rewrite (Hrh _ _ _ Hk He) in Hp. simplify_eq.
    pose proof (wf_no_dirty _ Hwf _ _ _ Hd Hk He).
    exists e. split; [done|]. by destruct e as [ptr []]; simplify_eq/=.
  - intros ? k p p' [= <-] Hk Hk'. apply Hdirty in Hk as [Hk _]. congruence.
  - done.
  - split; eauto.
  - intros q e1 Hq.
    destruct (overlay_built_inv _ _ _ _ Hob Hq) as (e & He & [->| ->]).
    + by eapply wf_entry.
    + apply expunge_consistent. by eapply wf_entry.
  - apply Hwf.
  - intros ? k k' p [= <-] Hk Hk'.
    apply Hdirty in Hk as [Hk _]. apply Hdirty in Hk' as [Hk' _].
    by eapply wf_read_inj.
Qed.

(** *** Recording a miss *)

Lemma MissLocked_eq s d :
  dirty_ s = Some d ->
  MissLocked s = if misses_ s <? INT_MAX then Some (tt, miss d s) else None.
Proof.
  intros Hd. unfold MissLocked, bind, incr_misses, miss.
  destruct (misses_ s <? INT_MAX); [|done].
  unfold deref_dirty. simpl. rewrite Hd.
  by destruct (_ <? _).
Qed.

Lemma static_cast_int_le n : static_cast_int n <= Z.of_nat n.
Proof.
  unfold static_cast_int.
  pose proof (Z.mod_le (Z.of_nat n) (2 ^ 32)).
  destruct (_ <=? _); lia.
Qed.


Lemma WFs_miss s d : WFs s -> dirty_ s = Some d -> WFs (miss d s).
Proof.
  intros Hwf Hd. unfold miss. destruct (_ <? _).
  - by apply WFs_set_misses.
  - by apply WFs_promoted.
Qed.

Lemma misses_ok_miss s d :
  dirty_ s = Some d -> 0 <= misses_ s -> misses_ok (miss d s).
Proof.
  intros Hd Hm. unfold miss, misses_ok.
  destruct (Z.ltb_spec (misses_ s + 1) (static_cast_int (size d))); simpl.
  - rewrite Hd. pose proof (static_cast_int_le (size d)). lia.
  - done.
Qed.

(** *** The values that the map holds *)

Lemma locate_inj s k k' p :
  WFs s -> locate s k = Some p -> locate s k' = Some p -> k = k'.
Proof.
  intros Hwf. unfold locate. intros Hk Hk'.
  destruct (m (read_ s) !! k) as [q|] eqn:Hr;
    destruct (m (read_ s) !! k') as [q'|] eqn:Hr'; simplify_eq.
  - by eapply wf_read_inj.
  - destruct (amended (read_ s)); [|done].
    destruct (dirty_ s) as [d|] eqn:Hd; [|done]. simpl in Hk'.
    destruct (wf_dirty_live _ Hwf _ _ _ Hd Hk') as (e & He & Hne).
    pose proof (wf_read_dirty _ Hwf _ _ _ _ Hd Hr He Hne).
    by eapply wf_dirty_inj.
  - destruct (amended (read_ s)); [|done].
    destruct (dirty_ s) as [d|] eqn:Hd; [|done]. simpl in Hk.
    destruct (wf_dirty_live _ Hwf _ _ _ Hd Hk) as (e & He & Hne).
    pose proof (wf_read_dirty _ Hwf _ _ _ _ Hd Hr' He Hne).
    by eapply wf_dirty_inj.
  - destruct (amended (read_ s)); [|done].
    destruct (dirty_ s) as [d|] eqn:Hd; [|done]. simpl in *.
    by eapply wf_dirty_inj.
Qed.

Lemma locate_valid s k p :
  WFs s -> locate s k = Some p ->
  exists e, heap s !! p = Some e /\ consistent e.
Proof.
  intros Hwf. unfold locate. intros Hk.
  assert (is_Some (heap s !! p)) as [e He].
  { destruct (m (read_ s) !! k) as [q|] eqn:Hr; simplify_eq.
    - by eapply wf_read_valid.
    - destruct (amended (read_ s)); [|done].
      destruct (dirty_ s) as [d|] eqn:Hd; [|done]. simpl in Hk.
      destruct (wf_dirty_live _ Hwf _ _ _ Hd Hk) as (e & He & Hne). eauto. }
  exists e. split; [done|]. by eapply wf_entry.
Qed.

Lemma entry_value_upd h p e' q :
  is_Some (h !! p) ->
  entry_value (<[p:=e']> h) q
  = if decide (q = p) then value (Entry.Load e') else entry_value h q.
Proof.
  intros Hp. unfold entry_value. case_decide as Hq.
  - subst. rewrite list_lookup_insert_eq; [done|].
    by apply lookup_lt_is_Some.
  - by rewrite list_lookup_insert_ne.
Qed.

Lemma contents_upd s p e' k :
  is_Some (heap s !! p) ->
  contents (upd p e' s) k
  = if decide (locate s k = Some p) then value (Entry.Load e')
    else contents s k.
Proof.
  intros Hp. unfold contents, upd. simpl.
  change (locate (set_heap _ s) k) with (locate s k).
  destruct (locate s k) as [q|]; simpl.
  - rewrite entry_value_upd by done.
    destruct (decide (q = p)) as [->|]; [by rewrite decide_True|].
    rewrite decide_False; [done|congruence].
  - done.
Qed.

Lemma contents_upd_at s p e' k k' :
  WFs s -> locate s k = Some p ->
  contents (upd p e' s) k'
  = if decide (k' = k) then value (Entry.Load e') else contents s k'.
Proof.
  intros Hwf Hk. destruct (locate_valid _ _ _ Hwf Hk) as (e & He & _).
  rewrite contents_upd by eauto.
  destruct (decide (k' = k)) as [->|Hne].
  - by rewrite decide_True.
  - rewrite decide_False; [done|]. intros Hk'. apply Hne.
    by eapply locate_inj.
Qed.

Lemma contents_set_misses s n k : contents (set_misses n s) k = contents s k.
Proof. done. Qed.

Lemma contents_promoted s d k :
  WFs s -> dirty_ s = Some d -> contents (promoted d s) k = contents s k.
Proof.
  intros Hwf Hd. unfold contents, locate. simpl.
  assert (Ham : amended (read_ s) = true) by (apply Hwf; eauto).
  rewrite Ham, Hd. simpl.
  destruct (m (read_ s) !! k) as [p|] eqn:Hr; [|by destruct (d !! k)].
  destruct (wf_read_valid _ Hwf _ _ Hr) as [e He].
  destruct (decide (state_ e = kExpunged)) as [Hexp|Hne].
  - destruct (d !! k) as [p'|] eqn:Hk; simpl.
    + rewrite (wf_dirty_read _ Hwf _ _ _ _ Hd Hk Hr) in Hk.
      destruct (wf_dirty_live _ Hwf _ _ _ Hd Hk) as (e' & ? & ?). congruence.
    + unfold entry_value. rewrite He. simpl.
      unfold Entry.Load. by rewrite decide_True by eauto.
  - by rewrite (wf_read_dirty _ Hwf _ _ _ _ Hd Hr He Hne).
Qed.

Lemma contents_miss s d k :
  WFs s -> dirty_ s = Some d -> contents (miss d s) k = contents s k.
Proof.
  intros Hwf Hd. unfold miss. destruct (_ <? _); [done|].
  by apply contents_promoted.
Qed.

Lemma contents_drained s k : contents (drained s) k = None.
Proof. unfold contents, locate. simpl. by rewrite lookup_empty. Qed.

Lemma contents_erase s d k k' :
  WFs s -> dirty_ s = Some d -> m (read_ s) !! k = None ->
  contents (set_dirty (Some (delete k d)) s) k'
  = if decide (k' = k) then None else contents s k'.
Proof.
  intros Hwf Hd Hk. unfold contents, locate. simpl. rewrite Hd.
  destruct (decide (k' = k)) as [->|Hne].
  - rewrite Hk, lookup_delete_eq. by destruct (amended _).
  - by rewrite lookup_delete_ne.
Qed.

Lemma contents_inserted s d k e' k' :
  WFs s -> dirty_ s = Some d -> m (read_ s) !! k = None ->
  contents (inserted k e' d s) k'
  = if decide (k' = k) then value (Entry.Load e') else contents s k'.
Proof.
  intros Hwf Hd Hk. unfold contents, locate. simpl. rewrite Hd.
  assert (Ham : amended (read_ s) = true) by (apply Hwf; eauto).
  rewrite Ham. simpl.
  destruct (decide (k' = k)) as [->|Hne].
  - rewrite Hk, lookup_insert_eq. simpl. unfold entry_value.
    by rewrite list_lookup_middle.
  - rewrite lookup_insert_ne by done.
    assert (Hold : forall p, is_Some (heap s !! p) ->
              entry_value (heap s ++ [e']) p = entry_value (heap s) p).
    { intros p [e He]. unfold entry_value.
      by rewrite (lookup_app_l_Some _ _ _ _ He), He. }
    destruct (m (read_ s) !! k') as [p|] eqn:Hr; simpl.
    + apply Hold. by eapply wf_read_valid.
    + destruct (d !! k') as [p|] eqn:Hk'; simpl; [|done].
      apply Hold. destruct (wf_dirty_live _ Hwf _ _ _ Hd Hk') as (e & ? & ?).
      eauto.
Qed.

Lemma contents_resurrected s d k p e' k' :
  WFs s -> dirty_ s = Some d -> m (read_ s) !! k = Some p ->
  contents (resurrected k p e' d s) k'
  = if decide (k' = k) then value (Entry.Load e') else contents s k'.
Proof.
  intros Hwf Hd Hk.
  assert (Hloc : forall k1, locate (set_dirty (Some (<[k:=p]> d)) s) k1
                            = locate s k1).
  { intros k1. unfold locate. simpl. rewrite Hd.
    destruct (m (read_ s) !! k1) eqn:Hr; [done|].
    destruct (amended _); [|done]. simpl.
    rewrite lookup_insert_ne; [done|congruence]. }
  assert (Hlk : locate s k = Some p) by (unfold locate; by rewrite Hk).
  destruct (locate_valid _ _ _ Hwf Hlk) as (e & He & _).
  change (resurrected k p e' d s)
    with (upd p e' (set_dirty (Some (<[k:=p]> d)) s)).
  rewrite contents_upd by (simpl; eauto). rewrite Hloc.
  assert (contents (set_dirty (Some (<[k:=p]> d)) s) k' = contents s k')
    as -> by (unfold contents; by rewrite Hloc).
  destruct (decide (k' = k)) as [->|Hne].
  - by rewrite decide_True.
  - rewrite decide_False; [done|]. intros Hk'. apply Hne.
    by eapply locate_inj.
Qed.

Lemma contents_overlay_built s s1 k :
  WFs s -> dirty_ s = None -> overlay_built s s1 ->
  contents s1 k = contents s k.
Proof.
  intros Hwf Hd [Hr Hm Hlen Hheap Hrh (d1 & Hd1 & Hdirty)].
  assert (Ham : amended (read_ s) = false).
  { destruct (amended (read_ s)) eqn:Ham; [|done].
    apply Hwf in Ham as [? ?]. congruence. }
  unfold contents, locate. rewrite Hr, Hd1, Ham. simpl.
  destruct (m (read_ s) !! k) as [p|] eqn:Hk; simpl.
  - destruct (wf_read_valid _ Hwf _ _ Hk) as [e He].
    unfold entry_value. rewrite (Hrh _ _ _ Hk He), He. simpl.
    by destruct e as [ptr []].
  - destruct (d1 !! k) as [p|] eqn:Hk1; [|done].
    apply Hdirty in Hk1 as [? _]. congruence.
Qed.

(** *** [Load] *)

Lemma heap_miss d s : heap (miss d s) = heap s.
Proof. unfold miss. by destruct (_ <? _). Qed.

Lemma table_size_miss s d :
  dirty_ s = Some d -> (table_size (miss d s) <= table_size s)%nat.
Proof.
  intros Hd. unfold miss, table_size. destruct (_ <? _); simpl; rewrite Hd;
    simpl; lia.
Qed.

Lemma misses_lt_INT_MAX n s :
  bounded n s -> Z.of_nat n <= INT_MAX -> (misses_ s <? INT_MAX) = true.
Proof.
  intros (_ & Hm & Hn) Hmax. apply Z.ltb_lt.
  unfold misses_ok, table_size in *. destruct (dirty_ s); simpl in *.
  - lia.
  - rewrite Hm. done.
Qed.

Lemma bounded_miss n s d :
  bounded n s -> dirty_ s = Some d -> bounded n (miss d s).
Proof.
  intros (Hwf & Hm & Hn) Hd. split; [by apply WFs_miss|]. split.
  - apply misses_ok_miss; [done|]. unfold misses_ok in Hm.
    rewrite Hd in Hm. lia.
  - pose proof (table_size_miss _ _ Hd). lia.
Qed.

Lemma Load_found s p :
  (exists e, heap s !! p = Some e /\ consistent e) ->
  (let* load_result := read_entry p Entry.Load in
   if loaded load_result
   then let* v := deref (value load_result) in ret (Some v)
   else ret None) s = Some (entry_value (heap s) p, s).
Proof.
  intros (e & He & Hcons).
  unfold bind, read_entry, entry_value. simpl. rewrite He. simpl.
  unfold consistent in Hcons.
  destruct e as [[v|] []]; simpl in *; try done.
  destruct Hcons as [Hc _]. by destruct (Hc eq_refl).
Qed.

Lemma Load_eq s k :
  WFs s ->
  Load k s
  = match m (read_ s) !! k, dirty_ s with
    | None, Some d =>
        if misses_ s <? INT_MAX then Some (contents s k, miss d s) else None
    | _, _ => Some (contents s k, s)
    end.
Proof.
  intros Hwf. unfold Load. unfold bind at 1 2. unfold read_Load at 1.
  pose proof (locate_valid s k) as Hloc. unfold contents.
  unfold locate in *.
  destruct (m (read_ s) !! k) as [p|] eqn:Hr.
  - unfold ret at 1. rewrite Load_found; [done|]. by apply Hloc.
  - destruct (dirty_ s) as [d|] eqn:Hd.
    + assert (Ham : amended (read_ s) = true) by (apply Hwf; eauto).
      rewrite Ham in *. unfold bind at 1. unfold read_Load at 1.
      rewrite Hr, Ham.
      unfold bind at 1. unfold deref_dirty at 1. rewrite Hd.
      unfold bind at 1. rewrite (MissLocked_eq _ _ Hd).
      destruct (misses_ s <? INT_MAX); [|done].
      unfold ret at 1. simpl in *.
      destruct (d !! k) as [p|] eqn:Hk; simpl.
      * rewrite Load_found; rewrite heap_miss; [done|]. by apply Hloc.
      * done.
    + assert (Ham : amended (read_ s) = false).
      { destruct (amended (read_ s)) eqn:Ham; [|done].
        apply Hwf in Ham as [? ?]. congruence. }
      by rewrite Ham.
Qed.

Lemma returns_Some {A} s (res : A) s' : returns (Some (res, s')) s res s'.
Proof. by left. Qed.

Lemma returns_if {A} s (res : A) s' :
  returns (if misses_ s <? INT_MAX then Some (res, s') else None) s res s'.
Proof.
  unfold returns. destruct (Z.ltb_spec (misses_ s) INT_MAX); [by left|].
  right. split; [done|lia].
Qed.

Lemma returns_inv {A} (o : option (A * Map Key Value)) s res s' r s'' :
  returns o s res s' -> o = Some (r, s'') -> r = res /\ s'' = s'.
Proof. intros [->|[-> _]]; naive_solver. Qed.

Lemma returns_bounded {A} (o : option (A * Map Key Value)) n s res s' :
  returns o s res s' -> bounded n s -> Z.of_nat n <= INT_MAX ->
  o = Some (res, s').
Proof.
  intros [->|[-> Hge]] Hb Hmax; [done|].
  pose proof (misses_lt_INT_MAX _ _ Hb Hmax) as Hlt.
  apply Z.ltb_lt in Hlt. lia.
Qed.

Lemma Load_spec n s k :
  bounded n s ->
  exists s',
    returns (Load k s) s (contents s k) s' /\ bounded n s'
    /\ forall k', contents s' k' = contents s k'.
Proof.
  intros Hb. pose proof Hb as (Hwf & _). rewrite Load_eq by done.
  destruct (m (read_ s) !! k); [by eauto using @returns_Some|].
  destruct (dirty_ s) as [d|] eqn:Hd; [|by eauto using @returns_Some].
  exists (miss d s). split; [apply returns_if|].
  split; [by apply bounded_miss|].
  intros k'. by apply contents_miss.
Qed.

(** *** The member functions of an entry, through its pointer *)

Lemma upd_same s p e : heap s !! p = Some e -> upd p e s = s.
Proof.
  intros He. unfold upd. rewrite list_insert_id by done. by destruct s.
Qed.

Lemma upd_upd s p e1 e2 : upd p e2 (upd p e1 s) = upd p e2 s.
Proof. unfold upd, set_heap. simpl. by rewrite list_insert_insert_eq. Qed.

Lemma heap_upd s p e e' :
  heap s !! p = Some e -> heap (upd p e' s) !! p = Some e'.
Proof.
  intros He. simpl. apply list_lookup_insert_eq. by eapply lookup_lt_Some.
Qed.

Lemma on_TryStore s p e v :
  heap s !! p = Some e ->
  on_entry p (Entry.TryStore v) s
  = Some (if decide (state_ e = kExpunged) then (false, s)
          else (true, upd p (present v) s)).
Proof.
  intros He. unfold on_entry. rewrite He, TryStore_eq.
  destruct (decide _); [|done]. fold (upd p e s). by rewrite upd_same.
Qed.

Lemma on_StoreLocked s p e v :
  heap s !! p = Some e ->
  on_entry p (Entry.StoreLocked v) s = Some (tt, upd p (present v) s).
Proof. intros He. unfold on_entry. by rewrite He, StoreLocked_eq. Qed.

Lemma on_UnexpungeLocked s p e :
  heap s !! p = Some e ->
  on_entry p (fun e => Some (Entry.UnexpungeLocked e)) s
  = Some (if decide (state_ e = kExpunged)
          then (true, upd p (mkEntry None kNull) s)
          else (false, s)).
Proof.
  intros He. unfold on_entry. rewrite He, UnexpungeLocked_eq.
  destruct (decide _); [done|]. fold (upd p e s). by rewrite upd_same.
Qed.

Lemma on_TryLoadOrStore s p e v :
  heap s !! p = Some e ->
  on_entry p (Entry.TryLoadOrStore v) s
  = Some match state_ e with
         | kExpunged => (mkTryLoadOrStoreResult None false false, s)
         | kValue => (mkTryLoadOrStoreResult (ptr_ e) true true, s)
         | kNull =>
             (mkTryLoadOrStoreResult (Some v) false true,
              upd p (present v) s)
         end.
Proof.
  intros He. unfold on_entry. rewrite He, TryLoadOrStore_eq.
  destruct (state_ e); try done; fold (upd p e s); by rewrite upd_same.
Qed.

Lemma on_Delete s p e :
  heap s !! p = Some e ->
  on_entry p Entry.Delete s
  = match state_ e with
    | kValue =>
        match ptr_ e with
        | Some v => Some (Some v, upd p (mkEntry None kNull) s)
        | None => None
        end
    | _ => Some (None, s)
    end.
Proof.
  intros He. unfold on_entry. rewrite He, Delete_eq.
  destruct (state_ e); try done; try (fold (upd p e s); by rewrite upd_same).
  by destruct (ptr_ e).
Qed.

(** *** [Store], path by path *)

Lemma Store_fast s k v p e :
  m (read_ s) !! k = Some p -> heap s !! p = Some e ->
  state_ e <> kExpunged ->
  Store k v s = Some (tt, upd p (present v) s).
Proof.
  intros Hr He Hne. unfold Store. unfold bind at 1 2. unfold read_Load at 1.
  rewrite Hr, (on_TryStore _ _ _ _ He), decide_False by done. done.
Qed.

Lemma Store_resurrect s k v p e d :
  m (read_ s) !! k = Some p -> heap s !! p = Some e ->
  state_ e = kExpunged -> dirty_ s = Some d ->
  Store k v s = Some (tt, resurrected k p (present v) d s).
Proof.
  intros Hr He Hexp Hd. unfold Store. unfold bind at 1 2.
  unfold read_Load at 1.
  rewrite Hr, (on_TryStore _ _ _ _ He), decide_True by done.
  unfold bind at 1. unfold read_Load at 1. rewrite Hr.
  unfold bind at 1. rewrite (on_UnexpungeLocked _ _ _ He), decide_True by done.
  unfold bind at 1. unfold dirty_assign, bind at 1, deref_dirty, put_dirty.
  simpl. rewrite Hd.
  erewrite on_StoreLocked; [|simpl; apply list_lookup_insert_eq;
                              by eapply lookup_lt_Some].
  unfold upd, resurrected, set_heap, set_dirty. simpl.
  by rewrite list_insert_insert_eq.
Qed.

Lemma Store_dirty s k v p e d :
  m (read_ s) !! k = None -> dirty_ s = Some d -> d !! k = Some p ->
  heap s !! p = Some e ->
  Store k v s = Some (tt, upd p (present v) s).
Proof.
  intros Hr Hd Hk He. unfold Store. unfold bind at 1 2.
  unfold read_Load at 1. rewrite Hr. unfold ret at 1.
  unfold bind at 1. unfold read_Load at 1. rewrite Hr.
  unfold bind at 1. unfold get_dirty at 1. rewrite Hd. simpl. rewrite Hk.
  by erewrite on_StoreLocked.
Qed.

Lemma insert_new s k e' d :
  dirty_ s = Some d ->
  (let* entry := new_entry e' in dirty_assign k entry) s
  = Some (tt, inserted k e' d s).
Proof.
  intros Hd. unfold bind, new_entry, dirty_assign, bind, deref_dirty.
  simpl. by rewrite Hd.
Qed.

Lemma Store_fresh s k v d :
  m (read_ s) !! k = None -> dirty_ s = Some d -> d !! k = None ->
  amended (read_ s) = true ->
  Store k v s = Some (tt, inserted k (present v) d s).
Proof.
  intros Hr Hd Hk Ham. unfold Store. unfold bind at 1 2.
  unfold read_Load at 1. rewrite Hr. unfold ret at 1.
  unfold bind at 1. unfold read_Load at 1. rewrite Hr.
  unfold bind at 1. unfold get_dirty at 1. rewrite Hd. simpl. rewrite Hk, Ham.
  simpl. unfold bind at 1. unfold ret at 1. by apply insert_new.
Qed.

Lemma Store_build s k v s1 d1 :
  m (read_ s) !! k = None -> dirty_ s = None ->
  amended (read_ s) = false ->
  (DirtyLocked >> read_set_amended true) s = Some (tt, s1) ->
  dirty_ s1 = Some d1 ->
  Store k v s = Some (tt, inserted k (present v) d1 s1).
Proof.
  intros Hr Hd Ham Hrun Hd1. unfold Store. unfold bind at 1 2.
  unfold read_Load at 1. rewrite Hr. unfold ret at 1.
  unfold bind at 1. unfold read_Load at 1. rewrite Hr.
  unfold bind at 1. unfold get_dirty at 1. rewrite Hd. simpl. rewrite Ham.
  simpl. unfold bind at 1. rewrite Hrun. by apply insert_new.
Qed.

Lemma bounded_upd n s p e e' :
  bounded n s -> heap s !! p = Some e ->
  (state_ e = kExpunged <-> state_ e' = kExpunged) -> consistent e' ->
  bounded n (upd p e' s).
Proof.
  intros (Hwf & Hm & Hn) He Htag Hcons. split; [|done].
  by eapply WFs_upd.
Qed.

Lemma bounded_inserted n s d k e' :
  WFs s -> dirty_ s = Some d -> m (read_ s) !! k = None -> d !! k = None ->
  consistent e' -> state_ e' <> kExpunged ->
  0 <= misses_ s <= Z.of_nat (size d) -> (table_size s <= n)%nat ->
  bounded (S n) (inserted k e' d s).
Proof.
  intros Hwf Hd Hr Hk Hcons Hne Hm Hn. split; [by apply WFs_fresh|].
  unfold misses_ok, table_size in *. simpl. rewrite Hd in Hn. simpl in Hn.
  rewrite map_size_insert_None by done. lia.
Qed.

Lemma bounded_resurrected n s d k p e e' :
  bounded n s -> dirty_ s = Some d -> m (read_ s) !! k = Some p ->
  heap s !! p = Some e -> state_ e = kExpunged ->
  consistent e' -> state_ e' <> kExpunged ->
  bounded (S n) (resurrected k p e' d s).
Proof.
  intros (Hwf & Hm & Hn) Hd Hr He Hexp Hcons Hne.
  split; [by eapply WFs_resurrect|].
  unfold misses_ok, table_size in *. simpl. rewrite Hd in Hm, Hn.
  simpl in Hn. rewrite map_size_insert. destruct (d !! k); simpl; lia.
Qed.

Lemma present_consistent v : consistent (present v).
Proof. unfold consistent. simpl. split; eauto. Qed.

Lemma not_amended s : WFs s -> dirty_ s = None -> amended (read_ s) = false.
Proof.
  intros Hwf Hd. destruct (amended (read_ s)) eqn:Ham; [|done].
  apply Hwf in Ham as [? ?]. congruence.
Qed.

Lemma is_amended s d : WFs s -> dirty_ s = Some d -> amended (read_ s) = true.
Proof. intros Hwf Hd. apply Hwf. eauto. Qed.

(** The overlay that [DirtyLocked] builds, ready for a new key. *)
Lemma overlay_built_ready n s s1 k :
  bounded n s -> dirty_ s = None -> m (read_ s) !! k = None ->
  overlay_built s s1 ->
  exists d1, dirty_ s1 = Some d1 /\ WFs s1 /\ m (read_ s1) !! k = None
    /\ d1 !! k = None /\ 0 <= misses_ s1 <= Z.of_nat (size d1)
    /\ (table_size s1 <= n)%nat.
Proof.
  intros (Hwf & Hm & Hn) Hd Hr Hob.
  pose proof (WFs_overlay_built _ _ Hwf Hd Hob) as Hwf1.
  destruct Hob as [Hr1 Hm1 _ _ _ (d1 & Hd1 & Hdirty)].
  exists d1. split; [done|]. split; [done|]. rewrite Hr1. simpl.
  split; [done|]. split.
  { destruct (d1 !! k) as [p|] eqn:Hk; [|done].
    apply Hdirty in Hk as [? _]. congruence. }
  unfold misses_ok, table_size in *. rewrite Hd in Hm, Hn.
  rewrite Hm1, Hm, Hr1, Hd1. simpl in *.
  assert (size d1 <= size (m (read_ s)))%nat.
  { apply map_subseteq_size, map_subseteq_spec. intros k' p Hk'.
    by apply Hdirty in Hk' as [? _]. }
  lia.
Qed.

Lemma Store_spec n s k v :
  bounded n s ->
  exists s',
    Store k v s = Some (tt, s') /\ bounded (S n) s'
    /\ forall k', contents s' k'
                 = if decide (k' = k) then Some v else contents s k'.
Proof.
  intros Hb. pose proof Hb as (Hwf & Hm & Hn).
  assert (Hb' : bounded (S n) s).
  { split; [done|]. split; [done|]. lia. }
  destruct (m (read_ s) !! k) as [p|] eqn:Hr.
  - destruct (wf_read_valid _ Hwf _ _ Hr) as [e He].
    assert (Hloc : locate s k = Some p) by (unfold locate; by rewrite Hr).
    destruct (decide (state_ e = kExpunged)) as [Hexp|Hne].
    + destruct (dirty_ s) as [d|] eqn:Hd.
      * exists (resurrected k p (present v) d s).
        split; [by eapply Store_resurrect|].
        split; [eapply bounded_resurrected; eauto using present_consistent;
                done|].
        intros k'. by rewrite contents_resurrected.
      * by destruct (wf_no_dirty _ Hwf _ _ _ Hd Hr He).
    + exists (upd p (present v) s). split; [by eapply Store_fast|].
      split; [eapply bounded_upd; eauto using present_consistent; done|].
      intros k'. by rewrite (contents_upd_at _ _ _ k) by done.
  - destruct (dirty_ s) as [d|] eqn:Hd.
    + pose proof (is_amended _ _ Hwf Hd) as Ham.
      destruct (d !! k) as [p|] eqn:Hk.
      * destruct (wf_dirty_live _ Hwf _ _ _ Hd Hk) as (e & He & Hne).
        assert (Hloc : locate s k = Some p).
        { unfold locate. by rewrite Hr, Ham, Hd. }
        exists (upd p (present v) s). split; [by eapply Store_dirty|].
        split; [eapply bounded_upd; eauto using present_consistent; done|].
        intros k'. by rewrite (contents_upd_at _ _ _ k) by done.
      * exists (inserted k (present v) d s). split; [by eapply Store_fresh|].
        split.
        { apply bounded_inserted; try done; try apply present_consistent.
          unfold misses_ok in Hm. rewrite Hd in Hm. lia. }
        intros k'. by rewrite contents_inserted.
    + destruct (DirtyLocked_spec _ Hwf Hd) as (s1 & Hrun & Hob).
      destruct (overlay_built_ready _ _ _ _ Hb Hd Hr Hob)
        as (d1 & Hd1 & Hwf1 & Hr1 & Hk1 & Hm1 & Hn1).
      exists (inserted k (present v) d1 s1).
      split; [by eapply Store_build, Hd1; try apply not_amended|].
      split; [by apply bounded_inserted; try apply present_consistent|].
      intros k'. rewrite contents_inserted by done.
      by rewrite (contents_overlay_built _ _ _ Hwf Hd Hob).
Qed.

(** *** [LoadOrStore], path by path *)

Lemma LoadOrStore_fast_value s k v p e v0 :
  m (read_ s) !! k = Some p -> heap s !! p = Some e ->
  state_ e = kValue -> ptr_ e = Some v0 ->
  LoadOrStore k v s = Some ((v0, true), s).
Proof.
  intros Hr He Hst Hptr. unfold LoadOrStore. unfold bind at 1 2 3.
  unfold read_Load at 1.
  by rewrite Hr, (on_TryLoadOrStore _ _ _ _ He), Hst, Hptr.
Qed.

Lemma LoadOrStore_fast_null s k v p e :
  m (read_ s) !! k = Some p -> heap s !! p = Some e -> state_ e = kNull ->
  LoadOrStore k v s = Some ((v, false), upd p (present v) s).
Proof.
  intros Hr He Hst. unfold LoadOrStore. unfold bind at 1 2 3.
  unfold read_Load at 1.
  by rewrite Hr, (on_TryLoadOrStore _ _ _ _ He), Hst.
Qed.

Lemma LoadOrStore_resurrect s k v p e d :
  m (read_ s) !! k = Some p -> heap s !! p = Some e ->
  state_ e = kExpunged -> dirty_ s = Some d ->
  LoadOrStore k v s = Some ((v, false), resurrected k p (present v) d s).
Proof.
  intros Hr He Hexp Hd. unfold LoadOrStore. unfold bind at 1 2 3.
  unfold read_Load at 1.
  rewrite Hr, (on_TryLoadOrStore _ _ _ _ He), Hexp. simpl.
  unfold ret at 1.
  unfold bind at 1. unfold read_Load at 1. rewrite Hr.
  unfold bind at 1. rewrite (on_UnexpungeLocked _ _ _ He), decide_True by done.
  unfold bind at 1. unfold dirty_assign, bind at 1, deref_dirty, put_dirty.
  simpl. rewrite Hd.
  unfold bind at 1. erewrite on_TryLoadOrStore;
    [|simpl; apply list_lookup_insert_eq; by eapply lookup_lt_Some].
  simpl. unfold upd, resurrected, set_heap, set_dirty, bind, ret. simpl.
  by rewrite list_insert_insert_eq.
Qed.

Lemma LoadOrStore_dirty_value s k v p e d v0 :
  m (read_ s) !! k = None -> dirty_ s = Some d -> d !! k = Some p ->
  heap s !! p = Some e -> state_ e = kValue -> ptr_ e = Some v0 ->
  LoadOrStore k v s
  = if misses_ s <? INT_MAX then Some ((v0, true), miss d s) else None.
Proof.
  intros Hr Hd Hk He Hst Hptr. unfold LoadOrStore. unfold bind at 1 2.
  unfold read_Load at 1. rewrite Hr. unfold ret at 1.
  unfold bind at 1. unfold read_Load at 1. rewrite Hr.
  unfold bind at 1. unfold get_dirty at 1. rewrite Hd. simpl. rewrite Hk.
  unfold bind at 1. rewrite (on_TryLoadOrStore _ _ _ _ He), Hst.
  unfold bind at 1. rewrite (MissLocked_eq _ _ Hd).
  destruct (_ <? _); [|done]. simpl. by rewrite Hptr.
Qed.

Lemma LoadOrStore_dirty_null s k v p e d :
  m (read_ s) !! k = None -> dirty_ s = Some d -> d !! k = Some p ->
  heap s !! p = Some e -> state_ e = kNull ->
  LoadOrStore k v s
  = if misses_ s <? INT_MAX
    then Some ((v, false), miss d (upd p (present v) s)) else None.
Proof.
  intros Hr Hd Hk He Hst. unfold LoadOrStore. unfold bind at 1 2.
  unfold read_Load at 1. rewrite Hr. unfold ret at 1.
  unfold bind at 1. unfold read_Load at 1. rewrite Hr.
  unfold bind at 1. unfold get_dirty at 1. rewrite Hd. simpl. rewrite Hk.
  unfold bind at 1. rewrite (on_TryLoadOrStore _ _ _ _ He), Hst.
  unfold bind at 1. rewrite (MissLocked_eq _ d) by done. simpl.
  by destruct (_ <? _).
Qed.

Lemma insert_new_ret s k e' d {A} (a : A) :
  dirty_ s = Some d ->
  (let* entry := new_entry e' in dirty_assign k entry >> ret a) s
  = Some (a, inserted k e' d s).
Proof.
  intros Hd. unfold bind, new_entry, dirty_assign, bind, deref_dirty.
  simpl. by rewrite Hd.
Qed.

Lemma LoadOrStore_fresh s k v d :
  m (read_ s) !! k = None -> dirty_ s = Some d -> d !! k = None ->
  amended (read_ s) = true ->
  LoadOrStore k v s = Some ((v, false), inserted k (present v) d s).
Proof.
  intros Hr Hd Hk Ham. unfold LoadOrStore. unfold bind at 1 2.
  unfold read_Load at 1. rewrite Hr. unfold ret at 1.
  unfold bind at 1. unfold read_Load at 1. rewrite Hr.
  unfold bind at 1. unfold get_dirty at 1. rewrite Hd. simpl. rewrite Hk, Ham.
  simpl. unfold bind at 1. unfold ret at 1. by apply insert_new_ret.
Qed.

Lemma LoadOrStore_build s k v s1 d1 :
  m (read_ s) !! k = None -> dirty_ s = None ->
  amended (read_ s) = false ->
  (DirtyLocked >> read_set_amended true) s = Some (tt, s1) ->
  dirty_ s1 = Some d1 ->
  LoadOrStore k v s = Some ((v, false), inserted k (present v) d1 s1).
Proof.
  intros Hr Hd Ham Hrun Hd1. unfold LoadOrStore. unfold bind at 1 2.
  unfold read_Load at 1. rewrite Hr. unfold ret at 1.
  unfold bind at 1. unfold read_Load at 1. rewrite Hr.
  unfold bind at 1. unfold get_dirty at 1. rewrite Hd. simpl. rewrite Ham.
  simpl. unfold bind at 1. rewrite Hrun. by apply insert_new_ret.
Qed.

Lemma entry_value_at h p e :
  h !! p = Some e -> consistent e ->
  entry_value h p = match state_ e with kValue => ptr_ e | _ => None end
  /\ (state_ e = kValue -> is_Some (ptr_ e)).
Proof.
  intros He Hcons. unfold entry_value. rewrite He. simpl.
  split; [by destruct e as [ptr []]|]. apply Hcons.
Qed.

Lemma LoadOrStore_spec n s k v :
  bounded n s ->
  exists s',
    returns (LoadOrStore k v s) s
      match contents s k with
      | Some v0 => (v0, true)
      | None => (v, false)
      end s'
    /\ bounded (S n) s'
    /\ forall k', contents s' k'
                 = if decide (k' = k) then Some (default v (contents s k))
                   else contents s k'.
Proof.
  intros Hb. pose proof Hb as (Hwf & Hm & Hn).
  assert (Hb' : bounded (S n) s).
  { split; [done|]. split; [done|]. lia. }
  destruct (m (read_ s) !! k) as [p|] eqn:Hr.
  - destruct (wf_read_valid _ Hwf _ _ Hr) as [e He].
    assert (Hloc : locate s k = Some p) by (unfold locate; by rewrite Hr).
    destruct (entry_value_at _ _ _ He (wf_entry _ Hwf _ _ He)) as [Hval Hsome].
    assert (Hc : contents s k = entry_value (heap s) p).
    { unfold contents. by rewrite Hloc. }
    rewrite Hc, Hval. destruct (state_ e) eqn:Hst.
    + exists (upd p (present v) s).
      split; [erewrite LoadOrStore_fast_null by done; apply returns_Some|].
      split; [eapply bounded_upd; eauto using present_consistent;
              by rewrite Hst|].
      intros k'. by rewrite (contents_upd_at _ _ _ k) by done.
    + destruct Hsome as [v0 Hptr]; [done|]. rewrite Hptr.
      exists s. split; [erewrite LoadOrStore_fast_value by done; apply returns_Some|].
      split; [done|]. intros k'.
      destruct (decide (k' = k)) as [->|]; [by rewrite Hc, Hval, Hptr|done].
    + destruct (dirty_ s) as [d|] eqn:Hd.
      * exists (resurrected k p (present v) d s).
        split; [erewrite LoadOrStore_resurrect by done; apply returns_Some|].
        split; [eapply bounded_resurrected; eauto using present_consistent;
                done|].
        intros k'. by rewrite contents_resurrected.
      * by destruct (wf_no_dirty _ Hwf _ _ _ Hd Hr He).
  - destruct (dirty_ s) as [d|] eqn:Hd.
    + pose proof (is_amended _ _ Hwf Hd) as Ham.
      destruct (d !! k) as [p|] eqn:Hk.
      * destruct (wf_dirty_live _ Hwf _ _ _ Hd Hk) as (e & He & Hne).
        assert (Hloc : locate s k = Some p).
        { unfold locate. by rewrite Hr, Ham, Hd. }
        destruct (entry_value_at _ _ _ He (wf_entry _ Hwf _ _ He))
          as [Hval Hsome].
        assert (Hc : contents s k = entry_value (heap s) p).
        { unfold contents. by rewrite Hloc. }
        rewrite Hc, Hval. destruct (state_ e) eqn:Hst; [| |done].
        -- exists (miss d (upd p (present v) s)).
           split; [erewrite LoadOrStore_dirty_null by done; apply returns_if|].
           assert (bounded (S n) (upd p (present v) s)) as Hb1.
           { eapply bounded_upd; eauto using present_consistent.
             by rewrite Hst. }
           split; [by apply bounded_miss|].
           intros k'. rewrite contents_miss; [|apply Hb1|done].
           by rewrite (contents_upd_at _ _ _ k) by done.
        -- destruct Hsome as [v0 Hptr]; [done|]. rewrite Hptr.
           exists (miss d s).
           split; [erewrite LoadOrStore_dirty_value by done; apply returns_if|].
           split; [by apply bounded_miss|].
           intros k'. rewrite contents_miss by done.
           destruct (decide (k' = k)) as [->|]; [by rewrite Hc, Hval, Hptr|done].
      * assert (Hc : contents s k = None).
        { unfold contents, locate. by rewrite Hr, Ham, Hd; simpl; rewrite Hk. }
        rewrite Hc. exists (inserted k (present v) d s).
        split; [erewrite LoadOrStore_fresh by done; apply returns_Some|].
        split.
        { apply bounded_inserted; try done; try apply present_consistent.
          unfold misses_ok in Hm. rewrite Hd in Hm. lia. }
        intros k'. by rewrite contents_inserted.
    + assert (Hc : contents s k = None).
      { unfold contents, locate. by rewrite Hr, (not_amended _ Hwf Hd). }
      rewrite Hc.
      destruct (DirtyLocked_spec _ Hwf Hd) as (s1 & Hrun & Hob).
      destruct (overlay_built_ready _ _ _ _ Hb Hd Hr Hob)
        as (d1 & Hd1 & Hwf1 & Hr1 & Hk1 & Hm1 & Hn1).
      exists (inserted k (present v) d1 s1).
      split.
      { rewrite (LoadOrStore_build s k v s1 d1) by (try apply not_amended; done).
        apply returns_Some. }
      split; [by apply bounded_inserted; try apply present_consistent|].
      intros k'. rewrite contents_inserted by done.
      by rewrite (contents_overlay_built _ _ _ Hwf Hd Hob).
Qed.

(** *** [Delete], path by path *)

Lemma Delete_read s k p :
  m (read_ s) !! k = Some p -> Delete k s = on_entry p Entry.Delete s.
Proof.
  intros Hr. unfold Delete. unfold bind at 1 2. unfold read_Load at 1.
  by rewrite Hr.
Qed.

Lemma Delete_absent s k :
  m (read_ s) !! k = None -> amended (read_ s) = false ->
  Delete k s = Some (None, s).
Proof.
  intros Hr Ham. unfold Delete. unfold bind at 1 2. unfold read_Load at 1.
  by rewrite Hr, Ham.
Qed.

Lemma Delete_dirty s k d p :
  m (read_ s) !! k = None -> amended (read_ s) = true ->
  dirty_ s = Some d -> d !! k = Some p ->
  Delete k s
  = if misses_ s <? INT_MAX
    then on_entry p Entry.Delete
           (miss (delete k d) (set_dirty (Some (delete k d)) s))
    else None.
Proof.
  intros Hr Ham Hd Hk. unfold Delete. unfold bind at 1 2.
  unfold read_Load at 1. rewrite Hr, Ham.
  unfold bind at 1. unfold read_Load at 1. rewrite Hr, Ham.
  unfold bind at 1. unfold deref_dirty at 1. rewrite Hd, Hk.
  unfold bind at 1. unfold dirty_erase, bind at 1, deref_dirty, put_dirty.
  rewrite Hd. unfold bind at 1.
  rewrite (MissLocked_eq _ (delete k d)) by done. simpl.
  by destruct (_ <? _).
Qed.

Lemma Delete_miss s k d :
  m (read_ s) !! k = None -> amended (read_ s) = true ->
  dirty_ s = Some d -> d !! k = None ->
  Delete k s
  = if misses_ s <? INT_MAX then Some (None, miss d s) else None.
Proof.
  intros Hr Ham Hd Hk. unfold Delete. unfold bind at 1 2.
  unfold read_Load at 1. rewrite Hr, Ham.
  unfold bind at 1. unfold read_Load at 1. rewrite Hr, Ham.
  unfold bind at 1. unfold deref_dirty at 1. rewrite Hd, Hk.
  unfold bind at 1. unfold ret at 1. unfold bind at 1.
  rewrite (MissLocked_eq _ d) by done.
  by destruct (_ <? _).
Qed.

Lemma upd_miss s p e' d :
  upd p e' (miss d s) = miss d (upd p e' s).
Proof. unfold miss, upd. simpl. by destruct (_ <? _). Qed.

Lemma upd_set_dirty s p e' (od : option (gmap Key EntryPtr)) :
  upd p e' (set_dirty od s) = set_dirty od (upd p e' s).
Proof. done. Qed.

Lemma null_consistent : consistent (mkEntry (None : option Value) kNull).
Proof. unfold consistent. simpl. split; [done|]. by intros [? ?]. Qed.

Lemma bounded_erase n s d k :
  bounded n s -> dirty_ s = Some d -> m (read_ s) !! k = None ->
  bounded n (miss (delete k d) (set_dirty (Some (delete k d)) s)).
Proof.
  intros (Hwf & Hm & Hn) Hd Hr.
  pose proof (WFs_erase _ _ _ Hwf Hd Hr) as Hwf'.
  split; [by apply WFs_miss|]. split.
  - apply misses_ok_miss; [done|]. unfold misses_ok in Hm.
    rewrite Hd in Hm. simpl. lia.
  - etrans; [by apply table_size_miss|].
    unfold table_size in *. rewrite Hd in Hn. simpl in *.
    rewrite map_size_delete. destruct (d !! k); simpl; lia.
Qed.

Lemma contents_erase_miss s d k k' :
  WFs s -> dirty_ s = Some d -> m (read_ s) !! k = None ->
  contents (miss (delete k d) (set_dirty (Some (delete k d)) s)) k'
  = if decide (k' = k) then None else contents s k'.
Proof.
  intros Hwf Hd Hr. rewrite contents_miss; [|by apply WFs_erase|done].
  by apply contents_erase.
Qed.

Lemma Delete_spec n s k :
  bounded n s ->
  exists s',
    returns (Delete k s) s (contents s k) s' /\ bounded n s'
    /\ forall k', contents s' k'
                 = if decide (k' = k) then None else contents s k'.
Proof.
  intros Hb. pose proof Hb as (Hwf & Hm & Hn).
  assert (Hnone : contents s k = None -> forall k',
            contents s k' = if decide (k' = k) then None else contents s k').
  { intros Hc k'. by destruct (decide (k' = k)) as [->|]. }
  destruct (m (read_ s) !! k) as [p|] eqn:Hr.
  - destruct (wf_read_valid _ Hwf _ _ Hr) as [e He].
    assert (Hloc : locate s k = Some p) by (unfold locate; by rewrite Hr).
    destruct (entry_value_at _ _ _ He (wf_entry _ Hwf _ _ He)) as [Hval Hsome].
    assert (Hc : contents s k = entry_value (heap s) p).
    { unfold contents. by rewrite Hloc. }
    rewrite (Delete_read _ _ _ Hr), (on_Delete _ _ _ He).
    rewrite Hval in Hc. destruct (state_ e) eqn:Hst.
    + exists s. rewrite Hc. split; [apply returns_Some|]. eauto.
    + destruct Hsome as [v0 Hptr]; [done|]. rewrite Hptr in *. rewrite Hc.
      exists (upd p (mkEntry None kNull) s). split; [apply returns_Some|].
      split; [eapply bounded_upd; eauto using null_consistent;
              by rewrite Hst|].
      intros k'. by rewrite (contents_upd_at _ _ _ k) by done.
    + exists s. rewrite Hc. split; [apply returns_Some|]. eauto.
  - destruct (dirty_ s) as [d|] eqn:Hd.
    + pose proof (is_amended _ _ Hwf Hd) as Ham.
      destruct (d !! k) as [p|] eqn:Hk.
      * destruct (wf_dirty_live _ Hwf _ _ _ Hd Hk) as (e & He & Hne).
        assert (Hloc : locate s k = Some p).
        { unfold locate. by rewrite Hr, Ham, Hd. }
        destruct (entry_value_at _ _ _ He (wf_entry _ Hwf _ _ He))
          as [Hval Hsome].
        assert (Hc : contents s k = entry_value (heap s) p).
        { unfold contents. by rewrite Hloc. }
        rewrite Hval in Hc.
        rewrite (Delete_dirty _ _ _ _ Hr Ham Hd Hk).
        erewrite on_Delete; [|by rewrite heap_miss].
        destruct (state_ e) eqn:Hst; [| |done].
        -- rewrite Hc.
           exists (miss (delete k d) (set_dirty (Some (delete k d)) s)).
           split; [apply returns_if|]. split; [by apply bounded_erase|].
           intros k'. by apply contents_erase_miss.
        -- destruct Hsome as [v0 Hptr]; [done|]. rewrite Hptr in *. rewrite Hc.
           rewrite upd_miss, upd_set_dirty.
           set (s1 := upd p (mkEntry None kNull) s).
           assert (Hb1 : bounded n s1).
           { eapply bounded_upd; eauto using null_consistent.
             by rewrite Hst. }
           exists (miss (delete k d) (set_dirty (Some (delete k d)) s1)).
           split; [apply returns_if|]. split; [by apply bounded_erase|].
           intros k'. rewrite contents_erase_miss; [|apply Hb1|done..].
           unfold s1. rewrite (contents_upd_at _ _ _ k) by done.
           by destruct (decide (k' = k)).
      * assert (Hc : contents s k = None).
        { unfold contents, locate. by rewrite Hr, Ham, Hd; simpl; rewrite Hk. }
        rewrite (Delete_miss _ _ _ Hr Ham Hd Hk), Hc.
        exists (miss d s). split; [apply returns_if|].
        split; [by apply bounded_miss|].
        intros k'. rewrite contents_miss by done. by apply Hnone.
    + assert (Hc : contents s k = None).
      { unfold contents, locate. by rewrite Hr, (not_amended _ Hwf Hd). }
      rewrite (Delete_absent _ _ Hr (not_amended _ Hwf Hd)), Hc.
      exists s. split; [apply returns_Some|]. eauto.
Qed.

(** *** [Range] and [Reset] *)

Lemma entries_ok_cons h k p kvs :
  entries_ok h ((k, p) :: kvs) ->
  (exists e, h !! p = Some e /\ consistent e) /\ entries_ok h kvs.
Proof.
  intros Hok. split; [apply (Hok k p); left|].
  intros k' p' Hin. apply (Hok k' p'). by right.
Qed.

Lemma read_entry_Load s p e :
  heap s !! p = Some e -> consistent e ->
  read_entry p Entry.Load s = Some (Entry.Load e, s)
  /\ (loaded (Entry.Load e) = true ->
      exists v, value (Entry.Load e) = Some v)
  /\ (loaded (Entry.Load e) = false -> value (Entry.Load e) = None).
Proof.
  intros He Hcons. unfold read_entry. rewrite He. split; [done|].
  unfold consistent in Hcons. destruct e as [[v|] []]; simpl in *; split;
    try done; eauto.
  intros _. destruct Hcons as [Hc _]. by destruct (Hc eq_refl).
Qed.

Lemma Range_loop_eq f kvs s :
  entries_ok (heap s) kvs ->
  Range_loop f kvs s
  = Some (visited f (omap (found_pair (heap s)) kvs), s).
Proof.
  induction kvs as [|[k p] kvs IH]; intros Hok; [done|].
  apply entries_ok_cons in Hok as [(e & He & Hcons) Hok].
  destruct (read_entry_Load _ _ _ He Hcons) as (Hrun & Hyes & Hno).
  simpl. unfold bind at 1. rewrite Hrun.
  unfold found_pair at 1, entry_value. simpl. rewrite He. simpl.
  destruct (loaded (Entry.Load e)).
  - destruct Hyes as [v Hv]; [done|]. rewrite Hv. simpl.
    unfold bind at 1. unfold ret at 1.
    destruct (f k v); simpl; [|done].
    unfold bind. by rewrite IH.
  - rewrite Hno by done. simpl. by apply IH.
Qed.

Lemma entries_ok_table s (table : gmap Key EntryPtr) :
  WFs s -> final_table s = Some table \/ table = m (read_ s) ->
  entries_ok (heap s) (map_to_list table).
Proof.
  intros Hwf Htable k p Hin. apply elem_of_map_to_list in Hin.
  assert (is_Some (heap s !! p)) as [e He].
  { unfold final_table in Htable.
    destruct Htable as [Htable| ->]; [|by eapply wf_read_valid].
    destruct (amended (read_ s)); simplify_eq; [|by eapply wf_read_valid].
    destruct (wf_dirty_live _ Hwf _ _ _ Htable Hin) as (e & ? & ?). eauto. }
  exists e. split; [done|]. by eapply wf_entry.
Qed.

Lemma Range_eq s f :
  WFs s ->
  Range (Some f) s
  = match dirty_ s with
    | Some d => Some (visited f (found_pairs (heap s) d), promoted d s)
    | None => Some (visited f (found_pairs (heap s) (m (read_ s))), s)
    end.
Proof.
  intros Hwf. unfold Range. unfold bind at 1 2. unfold read_Load at 1.
  destruct (dirty_ s) as [d|] eqn:Hd.
  - rewrite (is_amended _ _ Hwf Hd).
    unfold bind at 1. unfold read_Load at 1.
    rewrite (is_amended _ _ Hwf Hd).
    unfold bind at 1. unfold deref_dirty at 1. rewrite Hd.
    unfold bind, read_Store, put_dirty, put_misses, ret. simpl.
    change (set_misses 0 (set_dirty None (set_read (ReadOnly_of d) s)))
      with (promoted d s).
    rewrite Range_loop_eq; [done|].
    apply (entries_ok_table s); [done|]. left. unfold final_table.
    by rewrite (is_amended _ _ Hwf Hd).
  - rewrite (not_amended _ Hwf Hd). unfold ret at 1.
    rewrite Range_loop_eq; [done|]. apply entries_ok_table; eauto.
Qed.

Lemma Reset_loop_spec kvs : forall (raw : gmap Key Value) s,
  NoDup kvs.*1 -> entries_ok (heap s) kvs ->
  exists raw',
    Reset_loop kvs raw s = Some (raw', s)
    /\ forall k, raw' !! k
         = match raw !! k with
           | Some v => Some v
           | None =>
               (list_to_map kvs : gmap Key EntryPtr) !! k
               ≫= entry_value (heap s)
           end.
Proof.
  induction kvs as [|[k0 p0] kvs IH]; intros raw s Hnd Hok.
  - exists raw. split; [done|]. intros k. simpl. rewrite lookup_empty.
    by destruct (raw !! k).
  - apply NoDup_cons in Hnd as [Hk0 Hnd].
    apply entries_ok_cons in Hok as [(e & He & Hcons) Hok].
    destruct (read_entry_Load _ _ _ He Hcons) as (Hrun & Hyes & Hno).
    simpl. unfold bind at 1. rewrite Hrun.
    assert (Hev : entry_value (heap s) p0 = value (Entry.Load e)).
    { unfold entry_value. by rewrite He. }
    destruct (loaded (Entry.Load e)).
    + destruct Hyes as [v Hv]; [done|]. rewrite Hv in *. simpl.
      unfold bind at 1. unfold ret at 1.
      destruct (IH (raw_emplace k0 v raw) s Hnd Hok) as (raw' & -> & Hraw).
      exists raw'. split; [done|]. intros k. rewrite Hraw.
      unfold raw_emplace. destruct (decide (k = k0)) as [->|Hne].
      * rewrite lookup_insert_eq. simpl. rewrite Hev.
        destruct (raw !! k0) eqn:Hk; [by rewrite Hk|].
        by rewrite lookup_insert_eq.
      * rewrite (lookup_insert_ne _ k0 k) by done.
        destruct (raw !! k0) eqn:Hk; [done|].
        by rewrite lookup_insert_ne by done.
    + rewrite Hno in Hev by done.
      destruct (IH raw s Hnd Hok) as (raw' & -> & Hraw).
      exists raw'. split; [done|]. intros k. rewrite Hraw.
      destruct (raw !! k); [done|].
      destruct (decide (k = k0)) as [->|Hne].
      * rewrite lookup_insert_eq. simpl. rewrite Hev.
        by rewrite (not_elem_of_list_to_map_1 _ _ Hk0).
      * by rewrite lookup_insert_ne by done.
Qed.

Lemma final_table_is_Some s :
  WFs s -> exists table, final_table s = Some table.
Proof.
  intros Hwf. unfold final_table. destruct (amended (read_ s)) eqn:Ham.
  - apply Hwf in Ham as [d ->]. eauto.
  - eauto.
Qed.

Lemma Reset_eq s (raw : gmap Key Value) :
  WFs s ->
  exists raw' table,
    Reset (Some raw) s = Some (Some raw', drained s)
    /\ final_table s = Some table
    /\ forall k, raw' !! k
         = match raw !! k with
           | Some v => Some v
           | None => table !! k ≫= entry_value (heap s)
           end.
Proof.
  intros Hwf. destruct (final_table_is_Some _ Hwf) as [table Htable].
  destruct (Reset_loop_spec (map_to_list table) raw (drained s))
    as (raw' & Hrun & Hraw).
  { apply NoDup_fst_map_to_list. }
  { apply (entries_ok_table s); eauto. }
  exists raw', table. split; [|split; [done|]].
  - unfold Reset. unfold bind at 1 2. unfold read_Load, get_dirty.
    fold (final_table s). rewrite Htable.
    unfold bind, read_Store, put_dirty, put_misses, deref, ret. simpl.
    change (set_misses 0 (set_dirty None (set_read ReadOnly_new s)))
      with (drained s).
    by rewrite Hrun.
  - intros k. rewrite Hraw. by rewrite list_to_map_to_list.
Qed.

Lemma Reset_null s : Reset None s = Some (None, drained s).
Proof. done. Qed.

Lemma final_table_contents s table k :
  WFs s -> final_table s = Some table ->
  table !! k ≫= entry_value (heap s) = contents s k.
Proof.
  intros Hwf. unfold final_table. destruct (dirty_ s) as [d|] eqn:Hd.
  - rewrite (is_amended _ _ Hwf Hd). intros [= <-].
    rewrite <-(contents_promoted _ _ k Hwf Hd).
    unfold contents, locate. simpl. by destruct (d !! k).
  - rewrite (not_amended _ Hwf Hd). intros [= <-].
    unfold contents, locate. rewrite (not_amended _ Hwf Hd).
    by destruct (m (read_ s) !! k).
Qed.

(** *** Every state that calls reach *)

Lemma bounded_promoted n s d :
  bounded n s -> dirty_ s = Some d -> bounded n (promoted d s).
Proof.
  intros (Hwf & Hm & Hn) Hd. split; [by apply WFs_promoted|].
  split; [done|]. unfold table_size in *. rewrite Hd in Hn. simpl in *. lia.
Qed.

Lemma bounded_drained n s : bounded n s -> bounded n (drained s).
Proof.
  intros (Hwf & Hm & Hn). split; [by apply WFs_drained|].
  split; [done|]. unfold table_size. simpl. rewrite map_size_empty. lia.
Qed.

Lemma bounded_mono n n' s : bounded n s -> (n <= n')%nat -> bounded n' s.
Proof. intros (Hwf & Hm & Hn) Hle. split; [done|]. split; [done|lia]. Qed.

Lemma bounded_new : bounded 0 (Map_new : Map Key Value).
Proof.
  split; [|split; [done|]].
  - constructor; simpl; try done; by setoid_rewrite lookup_empty.
  - unfold table_size. simpl. rewrite map_size_empty. lia.
Qed.

Lemma step_bounded n s s' : bounded n s -> step s s' -> bounded (S n) s'.
Proof.
  intros Hb [k v Hrun|k r Hrun|k v r Hrun|k r Hrun|f r Hrun|raw r Hrun].
  - destruct (Store_spec _ _ k v Hb) as (s1 & Hs1 & Hb1 & _). congruence.
  - destruct (Load_spec _ _ k Hb) as (s1 & Hs1 & Hb1 & _).
    destruct (returns_inv _ _ _ _ _ _ Hs1 Hrun) as [_ ->].
    eapply bounded_mono; [done|lia].
  - destruct (LoadOrStore_spec _ _ k v Hb) as (s1 & Hs1 & Hb1 & _).
    by destruct (returns_inv _ _ _ _ _ _ Hs1 Hrun) as [_ ->].
  - destruct (Delete_spec _ _ k Hb) as (s1 & Hs1 & Hb1 & _).
    destruct (returns_inv _ _ _ _ _ _ Hs1 Hrun) as [_ ->].
    eapply bounded_mono; [done|lia].
  - destruct f as [f|].
    + rewrite Range_eq in Hrun by apply Hb.
      destruct (dirty_ s) as [d|] eqn:Hd; simplify_eq.
      * eapply bounded_mono; [by apply bounded_promoted|lia].
      * eapply bounded_mono; [done|lia].
    + simpl in Hrun. unfold ret in Hrun. simplify_eq.
      eapply bounded_mono; [done|lia].
  - destruct raw as [raw|].
    + destruct (Reset_eq s raw) as (raw' & table & Hs1 & _); [apply Hb|].
      rewrite Hs1 in Hrun. simplify_eq.
      eapply bounded_mono; [by apply bounded_drained|lia].
    + rewrite Reset_null in Hrun. simplify_eq.
      eapply bounded_mono; [by apply bounded_drained|lia].
Qed.

Lemma reachable_bounded s : reachable s -> exists n, bounded n s.
Proof.
  unfold reachable. intros Hs.
  eapply (rtc_ind_r (fun s => exists n, bounded n s)); [| |exact Hs].
  - exists 0%nat. apply bounded_new.
  - intros s1 s2 _ Hstep [n Hn]. exists (S n). by eapply step_bounded.
Qed.

Lemma reachable_WFs s : reachable s -> WFs s.
Proof. intros Hs. destruct (reachable_bounded s Hs) as [n Hn]. apply Hn. Qed.

Lemma reachable_table_size s : reachable s -> bounded (table_size s) s.
Proof.
  intros Hs. destruct (reachable_bounded s Hs) as [n (Hwf & Hm & _)].
  split; [done|]. split; [done|lia].
Qed.

(** ** The properties of the map *)



(** C3: in every state that calls of Store, Load, LoadOrStore, Delete,
    Range and Reset reach from a new map and that has an overlay, every
    entry of the published table that is not Expunged is in the overlay,
    under the same key and as the same entry; no entry of the overlay is
    Expunged, and the key of an Expunged entry of the published table is
    not in the overlay. *)
Theorem overlay_invariant s d :
  reachable s -> dirty_ s = Some d ->
  (forall k p e, m (read_ s) !! k = Some p -> heap s !! p = Some e ->
     state_ e <> kExpunged -> d !! k = Some p)
  /\ (forall k p, d !! k = Some p ->
       exists e, heap s !! p = Some e /\ state_ e <> kExpunged)
  /\ (forall k p e, m (read_ s) !! k = Some p -> heap s !! p = Some e ->
       state_ e = kExpunged -> d !! k = None).
Proof.
  intros Hs Hd. pose proof (reachable_WFs s Hs) as Hwf.
  split; [|split].
  - intros k p e. by apply wf_read_dirty.
  - intros k p. by apply wf_dirty_live.
  - intros k p e Hr He Hexp. destruct (d !! k) as [p'|] eqn:Hk; [|done].
    rewrite (wf_dirty_read _ Hwf _ _ _ _ Hd Hk Hr) in Hk.
    destruct (wf_dirty_live _ Hwf _ _ _ Hd Hk) as (e' & ? & ?). congruence.
Qed.

(** C4: [k] is a key of the published table of a map without overlay.
    After [Delete(k)], a [Store] to a key [k2] that the table lacks builds
    the overlay: the entry of [k] is Expunged and [k] is not in the
    overlay.  A later [Store(k, v)] puts the entry of [k] into the overlay
    with the value [v]: [Load(k)] finds [v], and still finds it once the
    overlay is promoted. *)
Theorem store_resurrects_expunged s k k2 p v2 v :
  reachable s -> dirty_ s = None ->
  m (read_ s) !! k = Some p -> m (read_ s) !! k2 = None ->
  exists r s1 s2 s3 d2 d3 e2,
    Delete k s = Some (r, s1)
    /\ Store k2 v2 s1 = Some (tt, s2)
    /\ dirty_ s2 = Some d2 /\ d2 !! k = None
    /\ heap s2 !! p = Some e2 /\ state_ e2 = kExpunged
    /\ Store k v s2 = Some (tt, s3)
    /\ dirty_ s3 = Some d3 /\ d3 !! k = Some p
    /\ heap s3 !! p = Some (present v)
    /\ Load k s3 = Some (Some v, s3)
    /\ Load k (promoted d3 s3) = Some (Some v, promoted d3 s3).
Proof.
  intros Hs Hd Hr Hr2. destruct (reachable_bounded s Hs) as [n Hb].
  pose proof Hb as (Hwf & _).
  destruct (wf_read_valid _ Hwf _ _ Hr) as [e He].
  pose proof (wf_no_dirty _ Hwf _ _ _ Hd Hr He) as Hne.
  assert (Hne2 : k <> k2) by congruence.
  (* Delete(k) *)
  assert (exists r s1 e1, Delete k s = Some (r, s1) /\ bounded n s1
            /\ read_ s1 = read_ s /\ dirty_ s1 = None
            /\ heap s1 !! p = Some e1 /\ state_ e1 = kNull)
    as (r & s1 & e1 & Hdel & Hb1 & Hread1 & Hd1 & He1 & Hst1).
  { rewrite (Delete_read _ _ _ Hr), (on_Delete _ _ _ He).
    destruct (entry_value_at _ _ _ He (wf_entry _ Hwf _ _ He)) as [_ Hsome].
    destruct (state_ e) eqn:Hst; [|destruct Hsome as [v0 Hptr]; [done|]|done].
    - exists None, s, e. eauto 10.
    - rewrite Hptr. exists (Some v0), (upd p (mkEntry None kNull) s), (mkEntry None kNull).
      split; [done|].
      split; [eapply bounded_upd; eauto using null_consistent;
              by rewrite Hst|].
      split; [done|]. split; [done|]. split; [|done]. by eapply heap_upd. }
  pose proof Hb1 as (Hwf1 & _). rewrite <-Hread1 in Hr, Hr2.
  (* Store(k2, v2) builds the overlay *)
  destruct (DirtyLocked_spec _ Hwf1 Hd1) as (s1' & Hrun & Hob).
  destruct (overlay_built_ready _ _ _ _ Hb1 Hd1 Hr2 Hob)
    as (d1 & Hd1' & Hwf1' & Hr1' & Hk1' & Hm1' & Hn1').
  pose proof (Store_build s1 k2 v2 s1' d1 Hr2 Hd1
                (not_amended _ Hwf1 Hd1) Hrun Hd1') as Hst2.
  set (s2 := inserted k2 (present v2) d1 s1') in *.
  assert (Hb2 : bounded (S n) s2).
  { by apply bounded_inserted; try apply present_consistent. }
  pose proof Hb2 as (Hwf2 & _).
  assert (Hread2 : m (read_ s2) !! k = Some p).
  { simpl. by rewrite (ob_read _ _ Hob). }
  assert (Hk1 : d1 !! k = None).
  { destruct (d1 !! k) as [p'|] eqn:Hk; [|done].
    destruct (ob_dirty _ _ Hob) as (d1'' & Hd1'' & Hdirty). simplify_eq.
    apply Hdirty in Hk as [Hk (e' & He' & Hv)]. simplify_eq. congruence. }
  assert (He2 : heap s2 !! p = Some (expunge e1)).
  { simpl. apply lookup_app_l_Some. by eapply ob_read_heap. }
  (* Store(k, v) *)
  assert (Hexp : state_ (expunge e1) = kExpunged).
  { unfold expunge. by rewrite Hst1. }
  pose proof (Store_resurrect s2 k v p (expunge e1)
                (<[k2:=length (heap s1')]> d1) Hread2 He2 Hexp eq_refl)
    as Hst3.
  set (d2 := <[k2:=length (heap s1')]> d1) in *.
  set (s3 := resurrected k p (present v) d2 s2) in *.
  assert (Hb3 : bounded (S (S n)) s3).
  { eapply bounded_resurrected; eauto using present_consistent; done. }
  pose proof Hb3 as (Hwf3 & _).
  assert (He3 : heap s3 !! p = Some (present v)).
  { simpl. apply list_lookup_insert_eq. eapply lookup_lt_Some. exact He2. }
  exists r, s1, s2, s3, d2, (<[k:=p]> d2), (expunge e1).
  split; [done|]. split; [done|]. split; [done|].
  split; [unfold d2; by rewrite lookup_insert_ne|].
  split; [done|]. split; [done|].
  split; [done|]. split; [done|]. split; [by rewrite lookup_insert_eq|].
  split; [done|]. split.
  - rewrite Load_eq by done.
    change (m (read_ s3)) with (m (read_ s2)). rewrite Hread2.
    unfold contents, locate. change (m (read_ s3)) with (m (read_ s2)).
    rewrite Hread2. simpl. unfold entry_value.
    change (<[p:=present v]> (heap s1' ++ [present v2])) with (heap s3).
    by rewrite He3.
  - rewrite Load_eq by (by apply WFs_promoted). simpl.
    rewrite lookup_insert_eq. unfold contents, locate. simpl.
    rewrite lookup_insert_eq. simpl. unfold entry_value.
    change (<[p:=present v]> (heap s1' ++ [present v2])) with (heap s3).
    by rewrite He3.
Qed.

(** C6: when a load of [k] finds nothing, [LoadOrStore(k, v)] answers [v]
    and [false], and a load of [k] after it finds [v]; when a load of [k]
    finds [v0], [LoadOrStore(k, v)] answers [v0] and [true], and a load of
    [k] after it still finds [v0].  The tables are of a size that [int]
    holds. *)
Theorem LoadOrStore_correct s k v :
  reachable s -> Z.of_nat (table_size s) < INT_MAX ->
  (forall s0, Load k s = Some (None, s0) ->
     exists s' s'',
       LoadOrStore k v s = Some ((v, false), s')
       /\ Load k s' = Some (Some v, s''))
  /\ (forall v0 s0, Load k s = Some (Some v0, s0) ->
     exists s' s'',
       LoadOrStore k v s = Some ((v0, true), s')
       /\ Load k s' = Some (Some v0, s'')).
Proof.
  intros Hs Hmax. pose proof (reachable_table_size s Hs) as Hb.
  destruct (LoadOrStore_spec _ _ k v Hb) as (s' & Hrun & Hb' & Hc').
  pose proof (returns_bounded _ _ _ _ _ Hrun Hb ltac:(lia)) as Hrun'.
  destruct (Load_spec _ _ k Hb') as (s'' & Hret' & _).
  pose proof (returns_bounded _ _ _ _ _ Hret' Hb' ltac:(lia)) as Hload'.
  rewrite Hc', decide_True in Hload' by done.
  assert (Hobs : forall r s0, Load k s = Some (r, s0) -> contents s k = r).
  { intros r s0 Hload. destruct (Load_spec _ _ k Hb) as (s1 & Hret & _).
    by destruct (returns_inv _ _ _ _ _ _ Hret Hload) as [-> _]. }
  split.
  - intros s0 Hload. apply Hobs in Hload. rewrite Hload in *. eauto.
  - intros v0 s0 Hload. apply Hobs in Hload. rewrite Hload in *. eauto.
Qed.

Lemma entry_value_Some h p v :
  entry_value h p = Some v <->
  exists e, h !! p = Some e /\ state_ e = kValue /\ ptr_ e = Some v.
Proof.
  unfold entry_value. destruct (h !! p) as [e|]; simpl.
  - destruct e as [ptr []]; simpl; naive_solver.
  - naive_solver.
Qed.

(** What [found_pairs] and [visited] list. *)
Lemma elem_of_found_pairs h (table : gmap Key EntryPtr) k v :
  (k, v) ∈ found_pairs h table <->
  exists p e, table !! k = Some p /\ h !! p = Some e
              /\ loaded (Entry.Load e) = true /\ ptr_ e = Some v.
Proof.
  unfold found_pairs. rewrite list_elem_of_omap. split.
  - intros ([k' p] & Hin & Hf). apply elem_of_map_to_list in Hin.
    unfold found_pair in Hf. simpl in Hf.
    destruct (entry_value h p) as [v'|] eqn:Hv; simplify_eq/=.
    apply entry_value_Some in Hv as (e & He & Hst & Hptr).
    exists p, e. repeat split; try done. unfold Entry.Load.
    rewrite decide_False; [done|]. rewrite Hst. by intros [?|?].
  - intros (p & e & Hk & He & Hl & Hptr). exists (k, p).
    split; [by apply elem_of_map_to_list|].
    unfold found_pair, entry_value. simpl. rewrite He. simpl.
    unfold Entry.Load in *. destruct (decide _); [done|]. simpl.
    by rewrite Hptr.
Qed.

Lemma visited_all (f : Key -> Value -> bool) kvs :
  (forall k v, (k, v) ∈ kvs -> f k v = true) -> visited f kvs = kvs.
Proof.
  induction kvs as [|[k v] kvs IH]; intros Hall; [done|]. simpl.
  rewrite Hall by left. rewrite IH; [done|].
  intros k' v' Hin. apply Hall. by right.
Qed.

Lemma visited_stop (f : Key -> Value -> bool) kvs1 k v kvs2 :
  (forall k' v', (k', v') ∈ kvs1 -> f k' v' = true) -> f k v = false ->
  visited f (kvs1 ++ (k, v) :: kvs2) = kvs1 ++ [(k, v)].
Proof.
  induction kvs1 as [|[k1 v1] kvs1 IH]; intros Hall Hstop; simpl.
  - by rewrite Hstop.
  - rewrite Hall by left. rewrite IH; [done| |done].
    intros k' v' Hin. apply Hall. by right.
Qed.

(** C7: on an amended map, [Range] with a predicate, whatever the
    predicate answers, first promotes the overlay: it is the published
    table, not amended, there is no overlay and the counter is zero.  It
    then offers to the predicate the pairs of that table whose entry
    [Load] finds, in the order of the table, up to the first that the
    predicate answers [false] to. *)
Theorem Range_promotes_first s f :
  reachable s -> amended (read_ s) = true ->
  exists d calls s',
    dirty_ s = Some d
    /\ Range (Some f) s = Some (calls, s')
    /\ read_ s' = {| m := d; amended := false |}
    /\ dirty_ s' = None /\ misses_ s' = 0 /\ heap s' = heap s
    /\ calls = visited f (found_pairs (heap s') d).
Proof.
  intros Hs Ham. pose proof (reachable_WFs s Hs) as Hwf.
  apply Hwf in Ham as [d Hd].
  exists d, (visited f (found_pairs (heap s) d)), (promoted d s).
  by rewrite Range_eq, Hd.
Qed.

(** C10: [Range] with an empty predicate returns at once: it calls
    nothing and leaves the published table, the overlay and the counter
    as they are, also on an amended map. *)
Theorem Range_empty_predicate (s : Map Key Value) :
  Range None s = Some ([], s).
Proof. done. Qed.

(** C8: [Reset] with an empty [*raw] fills it with the keys whose entry is
    Present, each with the value of its entry, the entries being those of
    the overlay when the map is amended and of the published table when
    it is not; this is what the map holds.  Afterwards the published table
    is empty and not amended, there is no overlay, the counter is zero,
    and a load of any key finds nothing. *)
Theorem Reset_drains s :
  reachable s ->
  exists raw table s',
    Reset (Some ∅) s = Some (Some raw, s')
    /\ final_table s = Some table
    /\ (forall k v, raw !! k = Some v <->
          exists p e, table !! k = Some p /\ heap s !! p = Some e
                      /\ state_ e = kValue /\ ptr_ e = Some v)
    /\ (forall k, raw !! k = contents s k)
    /\ read_ s' = {| m := ∅; amended := false |}
    /\ dirty_ s' = None /\ misses_ s' = 0
    /\ (forall k, Load k s' = Some (None, s')).
Proof.
  intros Hs. pose proof (reachable_WFs s Hs) as Hwf.
  destruct (Reset_eq s ∅ Hwf) as (raw & table & Hrun & Htable & Hraw).
  setoid_rewrite lookup_empty in Hraw.
  exists raw, table, (drained s). repeat split; try done.
  - rewrite Hraw. destruct (table !! k) as [p|]; simpl; [|done].
    intros Hv. apply entry_value_Some in Hv. naive_solver.
  - intros (p & e & Hk & He & Hst & Hptr). rewrite Hraw, Hk. simpl.
    apply entry_value_Some. eauto.
  - intros k. rewrite Hraw. by apply final_table_contents.
Qed.

End MapFacts.

(** ** The map from strings to integers of the examples *)

Section Scenario.

(** C1: on a new map, after [store("a",1)] and [store("b",2)],
    [load("a")] finds 1, [delete("a")] removes 1, [load("a")] finds
    nothing, [load_or_store("a",9)] answers 9 and [false], [load("a")]
    finds 9, and a [range] that collects visits the pairs of "a" with 9
    and of "b" with 2, in some order. *)
Theorem scenario_results :
  exists calls s,
    scenario Map_new
    = Some ((Some 1, Some 1, None, (9, false), Some 9, calls), s)
    /\ calls ≡ₚ [("a", 9); ("b", 2)].
Proof. eexists _, _. split; [vm_compute; reflexivity|done]. Qed.

Lemma reachable_s_a : reachable s_a.
Proof.
  apply rtc_once. apply (step_Store _ _ "a" 1). vm_compute. reflexivity.
Qed.

Lemma reachable_s_ab : reachable s_ab.
Proof.
  eapply rtc_r; [apply reachable_s_a|].
  apply (step_Store _ _ "b" 2). vm_compute. reflexivity.
Qed.

Lemma reachable_s_a_promoted : reachable s_a_promoted.
Proof.
  eapply rtc_r; [apply reachable_s_a|].
  apply (step_Range _ _ collect [("a", 1)]). vm_compute. reflexivity.
Qed.

(** C9: the one-argument [Load] calls [Get], and the class declares no
    [Get]: on the map with "a" stored the call binds to nothing, where
    [Load(key, &result)] finds 1. *)
Theorem Load_value_calls_Get :
  Load_value 0 "a" s_a = None
  /\ exists s', Load "a" s_a = Some (Some 1, s').
Proof. split; [reflexivity|]. eexists. vm_compute. reflexivity. Qed.

(** *** The theorems at these states *)



Lemma overlay_invariant_witness :
  (reachable s_ab /\ dirty_ s_ab = Some d_ab)
  /\ (forall k p e, m (read_ s_ab) !! k = Some p -> heap s_ab !! p = Some e ->
       state_ e <> kExpunged -> d_ab !! k = Some p)
  /\ (forall k p, d_ab !! k = Some p ->
       exists e, heap s_ab !! p = Some e /\ state_ e <> kExpunged)
  /\ (forall k p e, m (read_ s_ab) !! k = Some p -> heap s_ab !! p = Some e ->
       state_ e = kExpunged -> d_ab !! k = None).
Proof.
  assert (H1 : reachable s_ab) by apply reachable_s_ab.
  assert (H2 : dirty_ s_ab = Some d_ab) by (vm_compute; reflexivity).
  split; [by split|]. exact (overlay_invariant s_ab d_ab H1 H2).
Defined.

Lemma store_resurrects_expunged_witness :
  (reachable s_a_promoted /\ dirty_ s_a_promoted = None
   /\ m (read_ s_a_promoted) !! "a" = Some 0%nat
   /\ m (read_ s_a_promoted) !! "b" = None)
  /\ exists r s1 s2 s3 d2 d3 e2,
    Delete "a" s_a_promoted = Some (r, s1)
    /\ Store "b" 2 s1 = Some (tt, s2)
    /\ dirty_ s2 = Some d2 /\ d2 !! "a" = None
    /\ heap s2 !! 0%nat = Some e2 /\ state_ e2 = kExpunged
    /\ Store "a" 5 s2 = Some (tt, s3)
    /\ dirty_ s3 = Some d3 /\ d3 !! "a" = Some 0%nat
    /\ heap s3 !! 0%nat = Some (present 5)
    /\ Load "a" s3 = Some (Some 5, s3)
    /\ Load "a" (promoted d3 s3) = Some (Some 5, promoted d3 s3).
Proof.
  assert (H1 : reachable s_a_promoted) by apply reachable_s_a_promoted.
  assert (H2 : dirty_ s_a_promoted = None) by (vm_compute; reflexivity).
  assert (H3 : m (read_ s_a_promoted) !! "a" = Some 0%nat)
    by (vm_compute; reflexivity).
  assert (H4 : m (read_ s_a_promoted) !! "b" = None)
    by (vm_compute; reflexivity).
  split; [by repeat split|].
  exact (store_resurrects_expunged s_a_promoted "a" "b" 0%nat 2 5 H1 H2 H3 H4).
Defined.

Lemma LoadOrStore_correct_witness :
  (reachable s_ab /\ Z.of_nat (table_size s_ab) < INT_MAX)
  /\ (exists s' s'',
        LoadOrStore "c" 7 s_ab = Some ((7, false), s')
        /\ Load "c" s' = Some (Some 7, s''))
  /\ (exists s' s'',
        LoadOrStore "a" 7 s_ab = Some ((1, true), s')
        /\ Load "a" s' = Some (Some 1, s'')).
Proof.
  assert (H1 : reachable s_ab) by apply reachable_s_ab.
  assert (H2 : Z.of_nat (table_size s_ab) < INT_MAX)
    by (vm_compute; reflexivity).
  split; [by split|]. split.
  - destruct (LoadOrStore_correct s_ab "c" 7 H1 H2) as [Habsent _].
    apply (Habsent (after (Load "c") s_ab)). vm_compute. reflexivity.
  - destruct (LoadOrStore_correct s_ab "a" 7 H1 H2) as [_ Hpresent].
    apply (Hpresent 1 (after (Load "a") s_ab)). vm_compute. reflexivity.
Defined.

Lemma Range_promotes_first_witness :
  (reachable s_ab /\ amended (read_ s_ab) = true)
  /\ exists d calls s',
    dirty_ s_ab = Some d
    /\ Range (Some (fun _ _ => false)) s_ab = Some (calls, s')
    /\ read_ s' = {| m := d; amended := false |}
    /\ dirty_ s' = None /\ misses_ s' = 0 /\ heap s' = heap s_ab
    /\ calls = visited (fun _ _ => false) (found_pairs (heap s') d).
Proof.
  assert (H1 : reachable s_ab) by apply reachable_s_ab.
  assert (H2 : amended (read_ s_ab) = true) by (vm_compute; reflexivity).
  split; [by split|].
  exact (Range_promotes_first s_ab (fun _ _ => false) H1 H2).
Defined.

Lemma Reset_drains_witness :
  reachable s_ab
  /\ exists raw table s',
    Reset (Some ∅) s_ab = Some (Some raw, s')
    /\ final_table s_ab = Some table
    /\ (forall k v, raw !! k = Some v <->
          exists p e, table !! k = Some p /\ heap s_ab !! p = Some e
                      /\ state_ e = kValue /\ ptr_ e = Some v)
    /\ (forall k, raw !! k = contents s_ab k)
    /\ read_ s' = {| m := ∅; amended := false |}
    /\ dirty_ s' = None /\ misses_ s' = 0
    /\ (forall k, Load k s' = Some (None, s')).
Proof.
  assert (H1 : reachable s_ab) by apply reachable_s_ab.
  split; [exact H1|]. exact (Reset_drains s_ab H1).
Defined.

End Scenario.

(** ** More on the map: what a caller sees *)

Section MapUse.
Context `{Countable Key} {Value : Type}.
Implicit Types (s : Map Key Value) (k key : Key) (p q : EntryPtr).
Implicit Types (e : Entry Value) (h : list (Entry Value)).
Implicit Types (d : gmap Key EntryPtr) (v : Value).

(** A load answers with the value that the map holds, in a state whose
    tables [int] can count. *)
Lemma Load_returns n s k :
  bounded n s -> Z.of_nat n <= INT_MAX ->
  exists s',
    Load k s = Some (contents s k, s') /\ bounded n s'
    /\ forall k', contents s' k' = contents s k'.
Proof.
  intros Hb Hmax. destruct (Load_spec _ _ k Hb) as (s' & Hret & Hb' & Hc).
  exists s'. split; [|done]. by eapply returns_bounded.
Qed.

Lemma Load_answer n s k r s0 :
  bounded n s -> Load k s = Some (r, s0) -> r = contents s k.
Proof.
  intros Hb Hload. destruct (Load_spec _ _ k Hb) as (s' & Hret & _).
  by destruct (returns_inv _ _ _ _ _ _ Hret Hload) as [-> _].
Qed.

(** X1: [Store(k, v)] returns, a load of [k] after it finds [v], and a
    load of another key finds what it found before. *)
Theorem Store_then_Load s k v :
  reachable s -> Z.of_nat (table_size s) < INT_MAX ->
  exists s',
    Store k v s = Some (tt, s')
    /\ (exists s'', Load k s' = Some (Some v, s''))
    /\ (forall k' r s0, k' <> k -> Load k' s = Some (r, s0) ->
          exists s'', Load k' s' = Some (r, s'')).
Proof.
  intros Hs Hmax. pose proof (reachable_table_size s Hs) as Hb.
  destruct (Store_spec _ _ k v Hb) as (s' & Hrun & Hb' & Hc).
  exists s'. split; [done|]. split.
  - destruct (Load_returns _ _ k Hb') as (s'' & Hload & _); [lia|].
    rewrite Hc, decide_True in Hload by done. eauto.
  - intros k' r s0 Hne Hload. apply (Load_answer _ _ _ _ _ Hb) in Hload.
    destruct (Load_returns _ _ k' Hb') as (s'' & Hload' & _); [lia|].
    rewrite Hc, decide_False in Hload' by done. subst. eauto.
Qed.

(** X2: [Delete(k)] answers what a load of [k] finds; a load of [k]
    after it finds nothing, and a load of another key finds what it found
    before. *)
Theorem Delete_then_Load s k :
  reachable s -> Z.of_nat (table_size s) <= INT_MAX ->
  exists r s',
    Delete k s = Some (r, s')
    /\ (exists s0, Load k s = Some (r, s0))
    /\ (exists s'', Load k s' = Some (None, s''))
    /\ (forall k' r' s0, k' <> k -> Load k' s = Some (r', s0) ->
          exists s'', Load k' s' = Some (r', s'')).
Proof.
  intros Hs Hmax. pose proof (reachable_table_size s Hs) as Hb.
  destruct (Delete_spec _ _ k Hb) as (s' & Hret & Hb' & Hc).
  pose proof (returns_bounded _ _ _ _ _ Hret Hb Hmax) as Hrun.
  exists (contents s k), s'. split; [done|]. split; [|split].
  - destruct (Load_returns _ _ k Hb Hmax) as (s0 & Hload & _). eauto.
  - destruct (Load_returns _ _ k Hb' Hmax) as (s'' & Hload & _).
    rewrite Hc, decide_True in Hload by done. eauto.
  - intros k' r' s0 Hne Hload. apply (Load_answer _ _ _ _ _ Hb) in Hload.
    destruct (Load_returns _ _ k' Hb' Hmax) as (s'' & Hload' & _).
    rewrite Hc, decide_False in Hload' by done. subst. eauto.
Qed.

(** X3: a load changes the answer of no load, also when it promotes the
    overlay. *)
Theorem Load_changes_no_answer s k k' :
  reachable s -> Z.of_nat (table_size s) <= INT_MAX ->
  exists r s' r' s1 s2,
    Load k s = Some (r, s')
    /\ Load k' s = Some (r', s1) /\ Load k' s' = Some (r', s2).
Proof.
  intros Hs Hmax. pose proof (reachable_table_size s Hs) as Hb.
  destruct (Load_returns _ _ k Hb Hmax) as (s' & Hload & Hb' & Hc).
  destruct (Load_returns _ _ k' Hb Hmax) as (s1 & Hload1 & _).
  destruct (Load_returns _ _ k' Hb' Hmax) as (s2 & Hload2 & _).
  rewrite Hc in Hload2. eauto 10.
Qed.

(** X4: [LoadOrStore(k, v)] changes the answer of no load of another
    key. *)
Theorem LoadOrStore_other_keys s k v k' :
  reachable s -> Z.of_nat (table_size s) < INT_MAX -> k' <> k ->
  exists r s' r' s1 s2,
    LoadOrStore k v s = Some (r, s')
    /\ Load k' s = Some (r', s1) /\ Load k' s' = Some (r', s2).
Proof.
  intros Hs Hmax Hne. pose proof (reachable_table_size s Hs) as Hb.
  destruct (LoadOrStore_spec _ _ k v Hb) as (s' & Hret & Hb' & Hc).
  pose proof (returns_bounded _ _ _ _ _ Hret Hb ltac:(lia)) as Hrun.
  destruct (Load_returns _ _ k' Hb) as (s1 & Hload1 & _); [lia|].
  destruct (Load_returns _ _ k' Hb') as (s2 & Hload2 & _); [lia|].
  rewrite Hc, decide_False in Hload2 by done. eauto 10.
Qed.

Lemma elem_of_found_pairs_value h (table : gmap Key EntryPtr) k v :
  (k, v) ∈ found_pairs h table <-> table !! k ≫= entry_value h = Some v.
Proof.
  rewrite elem_of_found_pairs. split.
  - intros (p & e & -> & He & Hl & Hptr). simpl. apply entry_value_Some.
    exists e. repeat split; try done. unfold Entry.Load in Hl.
    destruct (decide _) as [|Hn]; [done|]. destruct (state_ e); naive_solver.
  - destruct (table !! k) as [p|]; [|done]. simpl. intros Hv.
    apply entry_value_Some in Hv as (e & He & Hst & Hptr).
    exists p, e. repeat split; try done. unfold Entry.Load.
    rewrite decide_False; [done|]. rewrite Hst. by intros [?|?].
Qed.

Lemma found_pairs_keys h (kvs : list (Key * EntryPtr)) :
  (omap (found_pair h) kvs).*1 `sublist_of` kvs.*1.
Proof.
  induction kvs as [|[k p] kvs IH]; [done|]. simpl.
  unfold found_pair at 1. simpl. destruct (entry_value h p); simpl.
  - by apply sublist_skip.
  - by apply sublist_cons.
Qed.

Lemma Range_table s f :
  WFs s ->
  exists table s',
    final_table s = Some table
    /\ Range (Some f) s = Some (visited f (found_pairs (heap s) table), s')
    /\ (s' = s \/ exists d, dirty_ s = Some d /\ s' = promoted d s).
Proof.
  intros Hwf. rewrite Range_eq by done. unfold final_table.
  destruct (dirty_ s) as [d|] eqn:Hd.
  - rewrite (is_amended _ _ Hwf Hd). eauto 10.
  - rewrite (not_amended _ Hwf Hd). eauto 10.
Qed.

(** X5: [Range] with a predicate that always answers [true] calls it
    once for each key that a load finds, with the value that the load
    finds, and for nothing else. *)
Theorem Range_collects_all s :
  reachable s -> Z.of_nat (table_size s) <= INT_MAX ->
  exists calls s',
    Range (Some (fun _ _ => true)) s = Some (calls, s')
    /\ NoDup calls.*1
    /\ forall k v, (k, v) ∈ calls <->
         exists s0, Load k s = Some (Some v, s0).
Proof.
  intros Hs Hmax. pose proof (reachable_table_size s Hs) as Hb.
  pose proof Hb as (Hwf & _).
  destruct (Range_table s (fun _ _ => true) Hwf)
    as (table & s' & Htable & Hrun & _).
  rewrite visited_all in Hrun by done.
  exists (found_pairs (heap s) table), s'. split; [done|]. split.
  - eapply sublist_NoDup; [|apply found_pairs_keys].
    apply NoDup_fst_map_to_list.
  - intros k v. rewrite elem_of_found_pairs_value.
    rewrite (final_table_contents _ _ _ Hwf Htable).
    destruct (Load_returns _ _ k Hb Hmax) as (s0 & Hload & _). split.
    + intros Hc. rewrite Hc in Hload. eauto.
    + intros [s1 Hload1]. by apply (Load_answer _ _ _ _ _ Hb) in Hload1.
Qed.

(** X6: [Range], with any predicate or none, changes the answer of no
    load. *)
Theorem Range_changes_no_answer s (f : Enumerator Key Value) k :
  reachable s -> Z.of_nat (table_size s) <= INT_MAX ->
  exists calls s' r s1 s2,
    Range f s = Some (calls, s')
    /\ Load k s = Some (r, s1) /\ Load k s' = Some (r, s2).
Proof.
  intros Hs Hmax. pose proof (reachable_table_size s Hs) as Hb.
  pose proof Hb as (Hwf & _).
  destruct (Load_returns _ _ k Hb Hmax) as (s1 & Hload & _).
  destruct f as [f|]; [|by eauto 10].
  destruct (Range_table s f Hwf) as (table & s' & _ & Hrun & Hs').
  destruct Hs' as [->|(d & Hd & ->)]; [by eauto 10|].
  destruct (Load_returns _ _ k (bounded_promoted _ _ _ Hb Hd) Hmax)
    as (s2 & Hload2 & _).
  rewrite contents_promoted in Hload2 by done. eauto 10.
Qed.

(** X7: [Reset] into a [*raw] that holds pairs keeps them: a key of
    [*raw] keeps its value there, another key gets what a load finds. *)
Theorem Reset_keeps_raw s (raw : gmap Key Value) :
  reachable s -> Z.of_nat (table_size s) <= INT_MAX ->
  exists raw' s',
    Reset (Some raw) s = Some (Some raw', s')
    /\ (forall k v, raw !! k = Some v -> raw' !! k = Some v)
    /\ (forall k, raw !! k = None ->
          exists s0, Load k s = Some (raw' !! k, s0)).
Proof.
  intros Hs Hmax. pose proof (reachable_table_size s Hs) as Hb.
  pose proof Hb as (Hwf & _).
  destruct (Reset_eq s raw Hwf) as (raw' & table & Hrun & Htable & Hraw).
  exists raw', (drained s). split; [done|]. split.
  - intros k v Hk. by rewrite Hraw, Hk.
  - intros k Hk. rewrite Hraw, Hk.
    rewrite (final_table_contents _ _ _ Hwf Htable).
    destruct (Load_returns _ _ k Hb Hmax) as (s0 & Hload & _). eauto.
Qed.

(** *** The out-parameters *)

Lemma Load_out_eq s k (p : option Value) :
  Load_out k p s
  = match Load k s with
    | Some (Some v, s') =>
        match p with
        | Some _ => Some ((true, Some v), s')
        | None => None
        end
    | Some (None, s') => Some ((false, p), s')
    | None => None
    end.
Proof.
  unfold Load_out, Load, bind, assert_ptr, assign, ret, fail.
  repeat (case_match; simplify_eq; try done).
Qed.

Lemma LoadOrStore_out_eq s k v (p : option Value) :
  LoadOrStore_out k v p s
  = match p, LoadOrStore k v s with
    | Some _, Some ((a, loaded), s') => Some ((loaded, Some a), s')
    | _, _ => None
    end.
Proof.
  unfold LoadOrStore_out, LoadOrStore, bind, assert_ptr, assign, ret, fail.
  repeat (case_match; simplify_eq; try done).
Qed.

(** X8: no call fails: in a state that calls reach and whose tables
    [int] can count, each of the six functions returns, [Load] and
    [LoadOrStore] when their out-parameter is not null.  With a null
    out-parameter [Load] fails, by its [assert], exactly when the map
    holds a value for the key, and [LoadOrStore] fails always. *)
Theorem every_call_returns s k v (f : Enumerator Key Value)
    (raw : option (gmap Key Value)) (v1 v2 : Value) :
  reachable s -> Z.of_nat (table_size s) <= INT_MAX ->
  is_Some (Store k v s) /\ is_Some (Load_out k (Some v1) s)
  /\ is_Some (LoadOrStore_out k v (Some v2) s) /\ is_Some (Delete k s)
  /\ is_Some (Range f s) /\ is_Some (Reset raw s)
  /\ (Load_out k None s = None <-> is_Some (contents s k))
  /\ LoadOrStore_out k v None s = None.
Proof.
  intros Hs Hmax. pose proof (reachable_table_size s Hs) as Hb.
  pose proof Hb as (Hwf & _).
  destruct (Load_returns _ _ k Hb Hmax) as (s0 & Hload & _).
  split; [|split; [|split; [|split; [|split; [|split; [|split]]]]]].
  - destruct (Store_spec _ _ k v Hb) as (s' & -> & _). eauto.
  - rewrite Load_out_eq, Hload. destruct (contents s k); eauto.
  - destruct (LoadOrStore_spec _ _ k v Hb) as (s' & Hret & _).
    rewrite LoadOrStore_out_eq, (returns_bounded _ _ _ _ _ Hret Hb Hmax).
    destruct (contents s k); eauto.
  - destruct (Delete_spec _ _ k Hb) as (s' & Hret & _).
    rewrite (returns_bounded _ _ _ _ _ Hret Hb Hmax). eauto.
  - destruct f as [f|]; [|by eexists].
    destruct (Range_table s f Hwf) as (table & s' & _ & -> & _). eauto.
  - destruct raw as [raw|]; [|rewrite Reset_null; by eauto].
    destruct (Reset_eq s raw Hwf) as (raw' & table & -> & _). eauto.
  - rewrite Load_out_eq, Hload. destruct (contents s k) as [v0|].
    + split; [eauto|done].
    + split; [done|]. by intros [? ?].
  - by rewrite LoadOrStore_out_eq.
Qed.

(** X9: the map is amended exactly when it has an overlay; the miss
    counter is zero without an overlay and otherwise stays below the size
    of the overlay. *)
Theorem counter_below_overlay_size s :
  reachable s ->
  match dirty_ s with
  | Some d =>
      amended (read_ s) = true /\ 0 <= misses_ s < Z.of_nat (size d)
  | None => amended (read_ s) = false /\ misses_ s = 0
  end.
Proof.
  intros Hs. destruct (reachable_bounded s Hs) as [n (Hwf & Hm & _)].
  unfold misses_ok in Hm. destruct (dirty_ s) as [d|] eqn:Hd.
  - split; [by eapply is_amended|done].
  - split; [by apply not_amended|done].
Qed.

(** X10: in every state that calls reach, an entry is Present exactly
    when it has a value; no entry serves two keys of the published table
    or two keys of the overlay; and without an overlay the published
    table holds no Expunged entry, so that the [assert(dirty_ != nullptr)]
    after a successful [UnexpungeLocked] holds. *)
Theorem entries_consistent_unshared s :
  reachable s ->
  (forall p e, heap s !! p = Some e ->
     (state_ e = kValue <-> is_Some (ptr_ e)))
  /\ (forall k k' p, m (read_ s) !! k = Some p ->
        m (read_ s) !! k' = Some p -> k = k')
  /\ (forall d k k' p, dirty_ s = Some d -> d !! k = Some p ->
        d !! k' = Some p -> k = k')
  /\ (forall k p e, dirty_ s = None -> m (read_ s) !! k = Some p ->
        heap s !! p = Some e -> state_ e <> kExpunged).
Proof.
  intros Hs. pose proof (reachable_WFs s Hs) as Hwf. split; [|split; [|split]].
  - intros p e He. by apply (wf_entry _ Hwf p).
  - apply Hwf.
  - apply Hwf.
  - apply Hwf.
Qed.

(** X11: on a map without overlay [DirtyLocked] builds the overlay from
    the Present entries of the published table, under their keys, and
    makes the Null entries of that table Expunged; it leaves the published
    table and the counter.  On a map with an overlay it does nothing. *)
Theorem DirtyLocked_builds_overlay s :
  reachable s ->
  match dirty_ s with
  | Some _ => DirtyLocked s = Some (tt, s)
  | None =>
      exists s1 d1,
        DirtyLocked s = Some (tt, s1)
        /\ dirty_ s1 = Some d1 /\ read_ s1 = read_ s
        /\ misses_ s1 = misses_ s
        /\ (forall k p, d1 !! k = Some p <->
              m (read_ s) !! k = Some p /\ is_value (heap s) p)
        /\ (forall k p e, m (read_ s) !! k = Some p ->
              heap s !! p = Some e -> heap s1 !! p = Some (expunge e))
  end.
Proof.
  intros Hs. pose proof (reachable_WFs s Hs) as Hwf.
  destruct (dirty_ s) as [d|] eqn:Hd.
  - unfold DirtyLocked, bind, get_dirty. by rewrite Hd.
  - destruct (DirtyLocked_loop_spec (map_to_list (m (read_ s)))
                (set_dirty (Some ∅) s) ∅)
      as (s1 & d1 & Hrun & Hr & Hm & Hd1 & _ & Hheap & Hdirty); [done|..].
    { apply NoDup_fst_map_to_list. }
    { intros k p Hin. apply elem_of_map_to_list in Hin. split; [done|].
      simpl. by eapply wf_read_valid. }
    simpl in *. exists s1, d1. split.
    { unfold DirtyLocked, bind, get_dirty, put_dirty, read_Load.
      by rewrite Hd. }
    split; [done|]. split; [done|]. split; [done|]. split.
    + intros k p. rewrite Hdirty, lookup_empty, elem_of_map_to_list.
      naive_solver.
    + intros k p e Hk He. rewrite (Hheap _ _ He). rewrite decide_True; [done|].
      apply list_elem_of_fmap. exists (k, p). split; [done|].
      by apply elem_of_map_to_list.
Qed.

(** X12: [Store] to a key of the published table whose entry is not
    Expunged writes to that entry alone: the tables and the counter stay
    as they are. *)
Theorem Store_fast_path s k v p e :
  m (read_ s) !! k = Some p -> heap s !! p = Some e ->
  state_ e <> kExpunged ->
  exists s',
    Store k v s = Some (tt, s')
    /\ heap s' = <[p:=present v]> (heap s)
    /\ read_ s' = read_ s /\ dirty_ s' = dirty_ s
    /\ misses_ s' = misses_ s.
Proof.
  intros Hr He Hne. exists (upd p (present v) s).
  by rewrite (Store_fast _ _ _ _ _ Hr He Hne).
Qed.

(** X13: a load leaves the map as it is, unless the map is amended and
    the published table lacks the key. *)
Theorem Load_hit_leaves_state s k :
  reachable s ->
  is_Some (m (read_ s) !! k) \/ amended (read_ s) = false ->
  exists r, Load k s = Some (r, s).
Proof.
  intros Hs Hcase. pose proof (reachable_WFs s Hs) as Hwf.
  rewrite Load_eq by done. destruct Hcase as [[p ->]|Ham]; [by eauto|].
  destruct (m (read_ s) !! k); [by eauto|].
  destruct (dirty_ s) as [d|] eqn:Hd; [|by eauto].
  rewrite (is_amended _ _ Hwf Hd) in Ham. done.
Qed.

End MapUse.

(** ** More on the entries *)

Section EntryUse.
Context {Value : Type}.
Implicit Types (e : Entry Value) (val : Value) (ptr : option Value).

(** X14: on an entry whose tag and value agree no member function fails,
    and each leaves an entry whose tag and value agree. *)
Theorem Entry_functions_keep_consistent e val :
  consistent e ->
  (exists b e', Entry.TryStore val e = Some (b, e') /\ consistent e')
  /\ (exists e', Entry.StoreLocked val e = Some (tt, e') /\ consistent e')
  /\ (exists r e', Entry.TryLoadOrStore val e = Some (r, e')
                    /\ consistent e')
  /\ (exists r e', Entry.Delete e = Some (r, e') /\ consistent e')
  /\ (exists b e', Entry.TryExpungeLocked e = Some (b, e')
                    /\ consistent e')
  /\ consistent (Entry.UnexpungeLocked e).2.
Proof.
  intros Hcons.
  assert (Hgoal : forall e0 : Entry Value,
            e0 = e \/ e0 = mkEntry (Some val) kValue
            \/ e0 = mkEntry None kNull \/ e0 = expunge e ->
            consistent e0).
  { intros e0 [->|[->|[->| ->]]]; [done|split; eauto| |].
    - split; [done|]. by intros [? ?].
    - unfold consistent in *. destruct e as [ptr []]; simpl in *; naive_solver. }
  rewrite TryStore_eq, StoreLocked_eq, TryLoadOrStore_eq, Delete_eq,
    TryExpungeLocked_eq, UnexpungeLocked_eq.
  split; [|split; [|split; [|split; [|split]]]].
  - destruct (decide _); eauto 10.
  - eauto 10.
  - destruct (state_ e); eauto 10.
  - destruct (state_ e) eqn:Hst; eauto 10.
    destruct (ptr_ e) eqn:Hptr; eauto 10.
    destruct Hcons as [Hc _]. rewrite Hptr in Hc. by destruct (Hc Hst).
  - eauto 10.
  - destruct (decide _); simpl; eauto 10.
Qed.

(** X15: an Expunged entry stays as it is under [Load], [TryStore],
    [Delete] and [TryExpungeLocked], which answer not loaded, [false],
    [false] and [true]; an entry that is not Expunged becomes Expunged
    under no member function but [TryExpungeLocked], and under that one
    exactly when it is Null. *)
Theorem Expunged_transitions e val :
  (state_ e = kExpunged ->
     loaded (Entry.Load e) = false
     /\ Entry.TryStore val e = Some (false, e)
     /\ Entry.Delete e = Some (None, e)
     /\ Entry.TryExpungeLocked e = Some (true, e))
  /\ (state_ e <> kExpunged ->
       (forall b e', Entry.TryStore val e = Some (b, e') ->
          state_ e' <> kExpunged)
       /\ (forall r e', Entry.TryLoadOrStore val e = Some (r, e') ->
            state_ e' <> kExpunged)
       /\ (forall r e', Entry.Delete e = Some (r, e') ->
            state_ e' <> kExpunged)
       /\ (forall b e', Entry.TryExpungeLocked e = Some (b, e') ->
            (state_ e' = kExpunged <-> state_ e = kNull)
            /\ (b = true <-> state_ e = kNull)))
  /\ (forall e', Entry.StoreLocked val e = Some (tt, e') ->
       state_ e' = kValue)
  /\ state_ (Entry.UnexpungeLocked e).2 <> kExpunged.
Proof.
  rewrite TryStore_eq, StoreLocked_eq, TryLoadOrStore_eq, Delete_eq,
    TryExpungeLocked_eq, UnexpungeLocked_eq.
  destruct e as [[v|] []]; simpl; repeat split; intros; simplify_eq/=;
    try done.
Qed.

(** X16: a [TryStore] succeeds on an entry that is not Expunged, and a
    [Load] then finds the value; a [Delete] on an entry whose tag and value
    agree answers what [Load] finds, and a [Load] then finds nothing. *)
Theorem Entry_round_trips e val :
  (state_ e <> kExpunged ->
     exists e', Entry.TryStore val e = Some (true, e')
       /\ Entry.Load e' = mkLoadResult (Some val) true)
  /\ (consistent e ->
       exists e', Entry.Delete e = Some (value (Entry.Load e), e')
         /\ loaded (Entry.Load e') = false
         /\ value (Entry.Load e') = None).
Proof.
  rewrite TryStore_eq, Delete_eq. unfold consistent. split.
  - intros Hne. rewrite decide_False by done. eauto.
  - intros [Hc1 Hc2]. destruct e as [[v|] []]; simpl in *; eauto.
    by destruct (Hc1 eq_refl).
Qed.

End EntryUse.

(** ** The hash table *)

Section HashTableFacts.
Context `{Countable Key} {Value : Type}.
Implicit Types (t : HashTable.HashTable Key Value) (k key : Key) (v : Value).

(** X17: after [Put(k, v)] a [Get] of [k] finds [v] and a [Get] of
    another key finds what it found before; the status is [PUT_NEW] when
    [k] was missing and [PUT_OVERWRITE] when it was there. *)
Theorem HashTable_Put_then_Get t k v :
  HashTable.Get k (HashTable.Put k v t).2 = Some v
  /\ (forall k', k' <> k ->
        HashTable.Get k' (HashTable.Put k v t).2 = HashTable.Get k' t)
  /\ (HashTable.Put k v t).1
     = match HashTable.Get k t with
       | None => HashTable.PUT_NEW
       | Some _ => HashTable.PUT_OVERWRITE
       end.
Proof.
  unfold HashTable.Put, HashTable.emplace, HashTable.Get.
  destruct (HashTable.map_ t !! k) eqn:Hk; simpl;
    (split; [by rewrite lookup_insert_eq|]);
    (split; [|done]); intros k' Hne; by rewrite lookup_insert_ne.
Qed.

(** X18: [TryPut(k, v)] never overwrites: when [k] is there it answers
    [PUT_SKIPPED] and leaves the table; when [k] is missing it answers
    [PUT_NEW] and a [Get] of [k] finds [v].  Other keys keep their
    values. *)
Theorem HashTable_TryPut_keeps t k v :
  (forall v0, HashTable.Get k t = Some v0 ->
     HashTable.TryPut k v t = (HashTable.PUT_SKIPPED, t))
  /\ (HashTable.Get k t = None ->
       (HashTable.TryPut k v t).1 = HashTable.PUT_NEW
       /\ HashTable.Get k (HashTable.TryPut k v t).2 = Some v)
  /\ (forall k', k' <> k ->
        HashTable.Get k' (HashTable.TryPut k v t).2 = HashTable.Get k' t).
Proof.
  unfold HashTable.TryPut, HashTable.emplace, HashTable.Get.
  split; [|split].
  - intros v0 ->. by destruct t.
  - intros ->. simpl. by rewrite lookup_insert_eq.
  - intros k' Hne. destruct (HashTable.map_ t !! k); simpl; [done|].
    by rewrite lookup_insert_ne.
Qed.

(** X19: [Remove(k)] answers what a [Get] of [k] finds; a [Get] of [k]
    then finds nothing, and a [Get] of another key finds what it found
    before. *)
Theorem HashTable_Remove_then_Get t k :
  (HashTable.Remove k t).1 = HashTable.Get k t
  /\ HashTable.Get k (HashTable.Remove k t).2 = None
  /\ (forall k', k' <> k ->
        HashTable.Get k' (HashTable.Remove k t).2 = HashTable.Get k' t).
Proof.
  unfold HashTable.Remove, HashTable.Get.
  destruct (HashTable.map_ t !! k) eqn:Hk; simpl.
  - split; [done|]. split; [by rewrite lookup_delete_eq|].
    intros k' Hne. by rewrite lookup_delete_ne.
  - done.
Qed.

Lemma RemoveIf_loop_count predicator (kvs : list (Key * Value)) n count c :
  (length kvs <= n)%nat ->
  HashTable.RemoveIf_loop predicator kvs count = Some c ->
  c = count /\ Nat.Even (length kvs).
Proof.
  revert kvs. induction n as [|n IH]; intros kvs Hlen;
    destruct kvs as [|[k v] [|kv kvs]]; simpl in *; try lia.
  - intros [= <-]. split; [done|]. by exists 0%nat.
  - intros [= <-]. split; [done|]. by exists 0%nat.
  - by destruct (predicator k v).
  - destruct (predicator k v); [|done]. intros Hrun.
    destruct (IH kvs ltac:(lia) Hrun) as [-> [j Hj]].
    split; [done|]. exists (S j). lia.
Qed.

(** X20: [RemoveIf] removes nothing: whenever it returns, it answers 0
    and the table is as it was.  On a table with an odd number of keys,
    and whenever the predicate answers [false] to the first pair, the
    iterator is stepped past the end or after its erasure. *)
Theorem HashTable_RemoveIf_removes_nothing t
    (predicator : option (Key -> Value -> bool)) :
  (forall count t',
     HashTable.RemoveIf predicator t = Some (count, t') ->
     count = 0 /\ t' = t)
  /\ (forall p, predicator = Some p -> Nat.Odd (size (HashTable.map_ t)) ->
       HashTable.RemoveIf predicator t = None)
  /\ (forall p k v rest, predicator = Some p ->
       map_to_list (HashTable.map_ t) = (k, v) :: rest -> p k v = false ->
       HashTable.RemoveIf predicator t = None).
Proof.
  unfold HashTable.RemoveIf. split; [|split].
  - intros count t'. destruct predicator as [p|]; [|by intros [= <- <-]].
    destruct (HashTable.RemoveIf_loop _ _ _) as [c|] eqn:Hrun; [|done].
    intros [= <- <-].
    by destruct (RemoveIf_loop_count _ _ _ _ _ (Nat.le_refl _) Hrun) as [-> _].
  - intros p -> Hodd.
    destruct (HashTable.RemoveIf_loop _ _ _) as [c|] eqn:Hrun; [|done].
    destruct (RemoveIf_loop_count _ _ _ _ _ (Nat.le_refl _) Hrun)
      as [_ Heven].
    rewrite length_map_to_list in Heven.
    destruct (Nat.Even_Odd_False _ Heven Hodd).
  - intros p k v rest -> -> Hp. simpl. by rewrite Hp.
Qed.

End HashTableFacts.

(** ** The cached map *)

Section CachedMapFacts.
Context `{Countable Key} {Value : Type}.
Implicit Types (c : CachedMap.CachedMap Key Value) (k key : Key) (v : Value).

(** The value that the table behind [write_] holds for [k]. *)
Local Notation held c k :=
  (mjoin (HashTable.map_ (CachedMap.write_ c) !! k)).

Lemma CachedMap_Get_eq c k :
  CachedMap.coherent c ->
  (CachedMap.Get k c).1 = held c k
  /\ CachedMap.coherent (CachedMap.Get k c).2
  /\ CachedMap.write_ (CachedMap.Get k c).2 = CachedMap.write_ c.
Proof.
  intros [Hread Hwrite]. unfold CachedMap.Get, cached.Get.
  destruct (cached.map_ (CachedMap.read_ c) !! k) as [e|] eqn:Hk; simpl.
  - split; [by apply Hread|]. by split.
  - assert (Hval : HashTable.Get_value None k (CachedMap.write_ c)
                   = held c k).
    { unfold HashTable.Get_value, HashTable.Get.
      by destruct (HashTable.map_ (CachedMap.write_ c) !! k). }
    split; [done|]. split; [|done]. split; [|done].
    unfold cached.Update. rewrite Hk. simpl. intros k' e.
    rewrite lookup_insert_Some. intros [[<- <-]|[_ Hk']]; [done|eauto].
Qed.

Lemma CachedMap_Put_eq c k v :
  CachedMap.coherent c ->
  CachedMap.coherent (CachedMap.Put k v c).2
  /\ forall k', held (CachedMap.Put k v c).2 k'
                = if decide (k' = k) then Some v else held c k'.
Proof.
  intros [Hread Hwrite].
  assert (Hw : HashTable.map_ (CachedMap.write_ (CachedMap.Put k v c).2)
               = <[k:=Some v]> (HashTable.map_ (CachedMap.write_ c))).
  { unfold CachedMap.Put, HashTable.Put, HashTable.emplace.
    destruct (HashTable.map_ (CachedMap.write_ c) !! k) eqn:Hk; simpl; done. }
  assert (Hr : cached.map_ (CachedMap.read_ (CachedMap.Put k v c).2)
               = match cached.map_ (CachedMap.read_ c) !! k with
                 | Some _ =>
                     <[k:=cached.mkEntry (Some v)]>
                       (cached.map_ (CachedMap.read_ c))
                 | None => cached.map_ (CachedMap.read_ c)
                 end).
  { unfold CachedMap.Put, HashTable.Put, HashTable.emplace.
    destruct (HashTable.map_ (CachedMap.write_ c) !! k); simpl;
      unfold cached.TryStore, cached.Get;
      by destruct (cached.map_ (CachedMap.read_ c) !! k). }
  assert (Hheld : forall k', held (CachedMap.Put k v c).2 k'
                  = if decide (k' = k) then Some v else held c k').
  { intros k'. rewrite Hw. destruct (decide (k' = k)) as [->|Hne].
    - by rewrite lookup_insert_eq.
    - by rewrite lookup_insert_ne. }
  split; [|done]. split.
  - intros k' e. rewrite Hheld, Hr. intros Hk'.
    destruct (decide (k' = k)) as [->|Hne].
    + destruct (cached.map_ (CachedMap.read_ c) !! k) eqn:Hk.
      * rewrite lookup_insert_eq in Hk'. by simplify_eq.
      * congruence.
    + apply Hread.
      destruct (cached.map_ (CachedMap.read_ c) !! k); [|done].
      by rewrite lookup_insert_ne in Hk'.
  - intros k' val. rewrite Hw, lookup_insert_Some.
    intros [[_ <-]|[_ Hk']]; eauto.
Qed.

Lemma CachedMap_TryPut_coherent c k v :
  CachedMap.coherent c -> CachedMap.coherent (CachedMap.TryPut k v c).2.
Proof.
  intros [Hread Hwrite]. unfold CachedMap.TryPut, HashTable.TryPut,
    HashTable.emplace.
  destruct (HashTable.map_ (CachedMap.write_ c) !! k) eqn:Hk; simpl.
  - split; [|by destruct (CachedMap.write_ c)].
    intros k' e Hk'. rewrite (Hread _ _ Hk'). by destruct (CachedMap.write_ c).
  - unfold cached.TryStore, cached.Get. split.
    + intros k' e. simpl.
      destruct (cached.map_ (CachedMap.read_ c) !! k) eqn:Hc; simpl.
      * rewrite lookup_insert_Some. intros [[<- <-]|[Hne Hk']].
        -- by rewrite lookup_insert_eq.
        -- rewrite lookup_insert_ne by done. eauto.
      * intros Hk'. destruct (decide (k' = k)) as [->|Hne]; [congruence|].
        rewrite lookup_insert_ne by done. eauto.
    + intros k' val. simpl. rewrite lookup_insert_Some.
      intros [[_ <-]|[_ Hk']]; eauto.
Qed.

Lemma CachedMap_Remove_eq c k :
  CachedMap.coherent c ->
  exists c',
    CachedMap.Remove k c = Some (held c k, c')
    /\ CachedMap.coherent c'
    /\ forall k', held c' k' = if decide (k' = k) then None else held c k'.
Proof.
  intros [Hread Hwrite]. unfold CachedMap.Remove, HashTable.Remove.
  destruct (HashTable.map_ (CachedMap.write_ c) !! k) as [val|] eqn:Hk.
  - destruct (Hwrite _ _ Hk) as [value ->]. simpl. eexists. split; [done|].
    simpl. split; [split|].
    + intros k' e. unfold cached.Update. simpl.
      assert (cached.map_
                match cached.map_ (CachedMap.read_ c) !! k with
                | Some entry =>
                    {| cached.map_ :=
                         <[k:=cached.Entry_Store None entry]>
                           (cached.map_ (CachedMap.read_ c)) |}
                | None =>
                    {| cached.map_ :=
                         <[k:=cached.mkEntry None]>
                           (cached.map_ (CachedMap.read_ c)) |}
                end
              = <[k:=cached.mkEntry None]> (cached.map_ (CachedMap.read_ c)))
        as -> by (by destruct (cached.map_ (CachedMap.read_ c) !! k)).
      rewrite lookup_insert_Some. intros [[<- <-]|[Hne Hk']].
      * by rewrite lookup_delete_eq.
      * rewrite lookup_delete_ne by done. eauto.
    + intros k' val. simpl. rewrite lookup_delete_Some. intros [_ Hk']. eauto.
    + intros k'. destruct (decide (k' = k)) as [->|Hne].
      * by rewrite lookup_delete_eq.
      * by rewrite lookup_delete_ne.
  - simpl. exists c. split; [done|]. split; [done|].
    intros k'. destruct (decide (k' = k)) as [->|]; [by rewrite Hk|done].
Qed.

Lemma CachedMap_Clear_loop_spec (kvs : list (Key * option Value)) :
  forall m : gmap Key Value,
  NoDup kvs.*1 -> (forall k val, (k, val) ∈ kvs -> is_Some val) ->
  exists m',
    CachedMap.Clear_loop kvs m = Some m'
    /\ forall k, m' !! k
         = match m !! k with
           | Some x => Some x
           | None => mjoin ((list_to_map kvs : gmap Key (option Value)) !! k)
           end.
Proof.
  induction kvs as [|[k0 val0] kvs IH]; intros m Hnd Hok.
  - exists m. split; [done|]. intros k. simpl. rewrite lookup_empty.
    by destruct (m !! k).
  - apply NoDup_cons in Hnd as [Hk0 Hnd].
    destruct (Hok k0 val0) as [v0 ->]; [left|]. simpl.
    edestruct IH as (m' & -> & Hm'); [done| |].
    { intros k val Hin. apply (Hok k val). by right. }
    exists m'. split; [done|]. intros k. rewrite Hm'.
    destruct (decide (k = k0)) as [->|Hne].
    + rewrite lookup_insert_eq. simpl.
      destruct (m !! k0) eqn:Hk; [by rewrite Hk|].
      by rewrite lookup_insert_eq.
    + rewrite (lookup_insert_ne _ k0 k) by done.
      destruct (m !! k0) eqn:Hk; [done|].
      by rewrite lookup_insert_ne by done.
Qed.

Lemma CachedMap_Clear_eq c (m : gmap Key Value) :
  CachedMap.coherent c ->
  exists m',
    CachedMap.Clear m c = Some (m', CachedMap.CachedMap_new)
    /\ forall k, m' !! k
         = match m !! k with
           | Some x => Some x
           | None => held c k
           end.
Proof.
  intros [Hread Hwrite]. unfold CachedMap.Clear, HashTable.Clear.
  destruct (CachedMap_Clear_loop_spec
              (map_to_list (HashTable.map_ (CachedMap.write_ c))) m)
    as (m' & -> & Hm').
  { apply NoDup_fst_map_to_list. }
  { intros k val Hin. apply elem_of_map_to_list in Hin. eauto. }
  exists m'. split; [done|]. intros k. rewrite Hm'.
  by rewrite list_to_map_to_list.
Qed.

Lemma CachedMap_new_coherent :
  CachedMap.coherent (CachedMap.CachedMap_new : CachedMap.CachedMap Key Value).
Proof. split; intros k x; simpl; by rewrite lookup_empty. Qed.

Lemma CachedMap_step_coherent c c' :
  CachedMap.coherent c -> CachedMap.step c c' -> CachedMap.coherent c'.
Proof.
  intros Hc [k v st Hrun|k v st Hrun|k r Hrun|k r Hrun|m m' Hrun].
  - destruct (CachedMap_Put_eq c k v Hc) as [Hc' _]. by rewrite Hrun in Hc'.
  - pose proof (CachedMap_TryPut_coherent c k v Hc) as Hc'.
    by rewrite Hrun in Hc'.
  - destruct (CachedMap_Get_eq c k Hc) as (_ & Hc' & _).
    by rewrite Hrun in Hc'.
  - destruct (CachedMap_Remove_eq c k Hc) as (c1 & Hrun1 & Hc' & _).
    congruence.
  - destruct (CachedMap_Clear_eq c m Hc) as (m1 & Hrun1 & _).
    rewrite Hrun1 in Hrun. simplify_eq. apply CachedMap_new_coherent.
Qed.

Lemma CachedMap_reachable_coherent c :
  CachedMap.reachable c -> CachedMap.coherent c.
Proof.
  intros Hc.
  eapply (rtc_ind_r (fun c => CachedMap.coherent c)); [| |exact Hc].
  - apply CachedMap_new_coherent.
  - intros c1 c2 _ Hstep Hc1. by eapply CachedMap_step_coherent.
Qed.

(** X21: in every state that calls of [Put], [TryPut], [Get], [Remove]
    and [Clear] reach from a new cached map, an entry of the cache holds
    what the table holds for its key, null when the table lacks the key;
    and the table holds no null pointer. *)
Theorem CachedMap_cache_coherent c :
  CachedMap.reachable c -> CachedMap.coherent c.
Proof. apply CachedMap_reachable_coherent. Qed.

(** X22: after [Put(k, v)] a [Get] of [k] finds [v], whether [k] was
    cached or not, and a [Get] of another key finds what it found
    before. *)
Theorem CachedMap_Put_then_Get c k v :
  CachedMap.reachable c ->
  (CachedMap.Get k (CachedMap.Put k v c).2).1 = Some v
  /\ forall k', k' <> k ->
       (CachedMap.Get k' (CachedMap.Put k v c).2).1 = (CachedMap.Get k' c).1.
Proof.
  intros Hc. apply CachedMap_reachable_coherent in Hc.
  destruct (CachedMap_Put_eq c k v Hc) as [Hc' Hheld]. split.
  - destruct (CachedMap_Get_eq _ k Hc') as (-> & _).
    by rewrite Hheld, decide_True.
  - intros k' Hne. destruct (CachedMap_Get_eq _ k' Hc') as (-> & _).
    destruct (CachedMap_Get_eq _ k' Hc) as (-> & _).
    by rewrite Hheld, decide_False.
Qed.

(** X23: a [Get] changes the answer of no [Get], also when it puts the
    key, found or missing, into the cache. *)
Theorem CachedMap_Get_changes_no_answer c k k' :
  CachedMap.reachable c ->
  (CachedMap.Get k' (CachedMap.Get k c).2).1 = (CachedMap.Get k' c).1.
Proof.
  intros Hc. apply CachedMap_reachable_coherent in Hc.
  destruct (CachedMap_Get_eq c k Hc) as (_ & Hc' & Hw).
  destruct (CachedMap_Get_eq _ k' Hc') as (-> & _).
  destruct (CachedMap_Get_eq _ k' Hc) as (-> & _). by rewrite Hw.
Qed.

(** X24: [Remove(k)] returns, answers what a [Get] of [k] finds, and a
    [Get] of [k] then finds nothing, also when [k] was cached; a [Get] of
    another key finds what it found before. *)
Theorem CachedMap_Remove_then_Get c k :
  CachedMap.reachable c ->
  exists c',
    CachedMap.Remove k c = Some ((CachedMap.Get k c).1, c')
    /\ (CachedMap.Get k c').1 = None
    /\ forall k', k' <> k ->
         (CachedMap.Get k' c').1 = (CachedMap.Get k' c).1.
Proof.
  intros Hc. apply CachedMap_reachable_coherent in Hc.
  destruct (CachedMap_Remove_eq c k Hc) as (c' & Hrun & Hc' & Hheld).
  exists c'. destruct (CachedMap_Get_eq _ k Hc) as (-> & _).
  split; [done|]. split.
  - destruct (CachedMap_Get_eq _ k Hc') as (-> & _).
    by rewrite Hheld, decide_True.
  - intros k' Hne. destruct (CachedMap_Get_eq _ k' Hc') as (-> & _).
    destruct (CachedMap_Get_eq _ k' Hc) as (-> & _).
    by rewrite Hheld, decide_False.
Qed.

(** X25: [Clear] into an empty [m] returns, fills [m] with each key and
    the value that a [Get] finds for it, and leaves a new cached map. *)
Theorem CachedMap_Clear_drains c :
  CachedMap.reachable c ->
  exists m',
    CachedMap.Clear ∅ c = Some (m', CachedMap.CachedMap_new)
    /\ forall k, m' !! k = (CachedMap.Get k c).1.
Proof.
  intros Hc. apply CachedMap_reachable_coherent in Hc.
  destruct (CachedMap_Clear_eq c ∅ Hc) as (m' & Hrun & Hm').
  exists m'. split; [done|]. intros k.
  destruct (CachedMap_Get_eq _ k Hc) as (-> & _).
  by rewrite Hm', lookup_empty.
Qed.

End CachedMapFacts.

(** ** The list *)

Section SyncListFacts.
Context {Type_ : Type}.
Implicit Types (l : SyncList.List Type_) (x : Type_).

Lemma drain_eq (buffer list_ : list Type_) :
  SyncList.drain buffer list_ = list_ ++ buffer.
Proof.
  revert list_. induction buffer as [|v buffer IH]; intros list_; simpl.
  - by rewrite app_nil_r.
  - by rewrite IH, <-app_assoc.
Qed.

Lemma visit_eq (list_ calls : list Type_) :
  SyncList.visit list_ calls = calls ++ list_.
Proof.
  revert calls. induction list_ as [|v list_ IH]; intros calls; simpl.
  - by rewrite app_nil_r.
  - by rewrite IH, <-app_assoc.
Qed.

(** X26: [ForEach] calls the function on the elements of the list and
    then on the added ones, in the order of their addition, and keeps them
    all: a second [ForEach] makes the same calls, and after [Add(x)] the
    calls are those of before and then [x]. *)
Theorem ForEach_visits_in_order l x :
  (SyncList.ForEach l).1 = SyncList.list_ l ++ SyncList.buffer_ l
  /\ (SyncList.ForEach (SyncList.ForEach l).2).1 = (SyncList.ForEach l).1
  /\ (SyncList.ForEach (SyncList.Add x l)).1 = (SyncList.ForEach l).1 ++ [x].
Proof.
  unfold SyncList.ForEach, SyncList.Add. simpl.
  rewrite !visit_eq. simpl. by rewrite app_assoc.
Qed.

Lemma erase_loop_eq (func : Type_ -> bool) (rest : list Type_) count :
  0 <= count ->
  count + Z.of_nat (length rest) <= INT_MAX ->
  SyncList.erase_loop func rest count
  = Some (List.filter func rest,
          count + Z.of_nat (length (List.filter (fun x => negb (func x)) rest))).
Proof.
  revert count. induction rest as [|x rest IH]; intros count H0 Hmax; simpl.
  - by rewrite Z.add_0_r.
  - simpl in Hmax. destruct (func x); simpl.
    + rewrite IH by lia. done.
    + unfold SyncList.incr. destruct (Z.ltb_spec count INT_MAX); [|lia].
      rewrite IH by lia. do 2 f_equal. lia.
Qed.

Lemma buffer_loop_eq (func : Type_ -> bool) (buffer list_ : list Type_) count :
  0 <= count ->
  count + Z.of_nat (length buffer) <= INT_MAX ->
  SyncList.buffer_loop func buffer list_ count
  = Some (list_ ++ List.filter func buffer,
          count
          + Z.of_nat (length (List.filter (fun x => negb (func x)) buffer))).
Proof.
  revert list_ count.
  induction buffer as [|x buffer IH]; intros list_ count H0 Hmax; simpl.
  - by rewrite Z.add_0_r, app_nil_r.
  - simpl in Hmax. destruct (func x); simpl.
    + rewrite IH by lia. by rewrite <-app_assoc.
    + unfold SyncList.incr. destruct (Z.ltb_spec count INT_MAX); [|lia].
      rewrite IH by lia. do 2 f_equal. lia.
Qed.

Lemma filter_negb_length (func : Type_ -> bool) (xs : list Type_) :
  (length (List.filter func xs)
   + length (List.filter (fun x => negb (func x)) xs) = length xs)%nat.
Proof.
  induction xs as [|x xs IH]; [done|]. simpl.
  destruct (func x); simpl; lia.
Qed.

(** X27: [ForEachRemove] keeps the elements, of the list and of the added
    ones, that the function answers [true] to, in their order, and answers
    the number of the others: the count and the length of the list left
    add up to the number of elements.  The number is one that [int]
    holds. *)
Theorem ForEachRemove_keeps_true (func : Type_ -> bool) l :
  Z.of_nat (length (SyncList.list_ l ++ SyncList.buffer_ l)) <= INT_MAX ->
  exists count l',
    SyncList.ForEachRemove func l = Some (count, l')
    /\ SyncList.list_ l'
       = List.filter func (SyncList.list_ l ++ SyncList.buffer_ l)
    /\ SyncList.buffer_ l' = []
    /\ count
       = Z.of_nat (length (List.filter (fun x => negb (func x))
                             (SyncList.list_ l ++ SyncList.buffer_ l)))
    /\ count + Z.of_nat (length (SyncList.list_ l'))
       = Z.of_nat (length (SyncList.list_ l ++ SyncList.buffer_ l)).
Proof.
  intros Hmax. rewrite length_app in Hmax. unfold SyncList.ForEachRemove.
  rewrite erase_loop_eq by lia.
  pose proof (filter_negb_length func (SyncList.list_ l)) as Hl.
  pose proof (filter_negb_length func (SyncList.buffer_ l)) as Hb.
  rewrite buffer_loop_eq by lia.
  eexists _, _. split; [done|]. simpl.
  rewrite !List.filter_app, !length_app.
  repeat split; lia.
Qed.

End SyncListFacts.

(** ** Once and SingleCall *)

Section OnceFacts.
Context {W : Type}.
Implicit Types (w : W) (f : W -> W * Defer.Outcome).

Lemma Calls_done (fs : list (W -> W * Defer.Outcome)) w :
  Once.Calls fs (Once.mkOnce true, w) = (Once.mkOnce true, w).
Proof. induction fs as [|f fs IH]; [done|]. simpl. apply IH. Qed.

(** X28: of the calls on a new [Once] only the first runs its function,
    whether the function returns or throws, and the object is done
    afterwards. *)
Theorem Once_runs_the_first_only f (fs : list (W -> W * Defer.Outcome)) w :
  Once.Calls (f :: fs) (Once.Once_new, w) = (Once.mkOnce true, (f w).1).
Proof.
  simpl. unfold Once.Call, Once.CallSlow, Defer.DEFER. simpl.
  destruct (f w) as [w' outcome]. simpl. apply Calls_done.
Qed.

(** X29: [SingleCall] on a set flag answers [false] and calls nothing.
    On a clear flag it runs the call with the flag set and clears the flag
    when the call is over, by a return, which it answers with [true], or by
    an exception, which it passes on. *)
Theorem SingleCall_sets_and_clears_flag
    (call : bool * W -> (bool * W) * Defer.Outcome) w :
  SingleCall.SingleCall call (true, w) = ((true, w), SingleCall.Ret false)
  /\ SingleCall.SingleCall call (false, w)
     = ((false, (call (true, w)).1.2),
        match (call (true, w)).2 with
        | Defer.Returned => SingleCall.Ret true
        | Defer.Thrown => SingleCall.Throw
        end).
Proof.
  split; [done|]. unfold SingleCall.SingleCall, Defer.DEFER. simpl.
  by destruct (call (true, w)) as [[flag w'] []].
Qed.

(** X30: a call of [SingleCall] from inside the call of a [SingleCall] on
    the same flag runs nothing: the outer one answers [true] and leaves
    the rest of the state as it was. *)
Theorem SingleCall_excludes_nested
    (call : bool * W -> (bool * W) * Defer.Outcome) w :
  SingleCall.SingleCall (SingleCall.nested call) (false, w)
  = ((false, w), SingleCall.Ret true).
Proof. done. Qed.

End OnceFacts.

(** ** The further theorems at the states of the examples *)

Section MoreExamples.

Lemma bound_s_ab : Z.of_nat (table_size s_ab) < INT_MAX.
Proof. vm_compute. reflexivity. Qed.

Lemma bound_le_s_ab : Z.of_nat (table_size s_ab) <= INT_MAX.
Proof. vm_compute. discriminate. Qed.

Lemma Store_then_Load_witness :
  (reachable s_ab /\ Z.of_nat (table_size s_ab) < INT_MAX)
  /\ exists s',
    Store "c" 3 s_ab = Some (tt, s')
    /\ (exists s'', Load "c" s' = Some (Some 3, s''))
    /\ (forall k' r s0, k' <> "c" -> Load k' s_ab = Some (r, s0) ->
          exists s'', Load k' s' = Some (r, s'')).
Proof.
  split; [split; [apply reachable_s_ab|apply bound_s_ab]|].
  exact (Store_then_Load s_ab "c" 3 reachable_s_ab bound_s_ab).
Defined.

Lemma Delete_then_Load_witness :
  (reachable s_ab /\ Z.of_nat (table_size s_ab) <= INT_MAX)
  /\ exists r s',
    Delete "a" s_ab = Some (r, s')
    /\ (exists s0, Load "a" s_ab = Some (r, s0))
    /\ (exists s'', Load "a" s' = Some (None, s''))
    /\ (forall k' r' s0, k' <> "a" -> Load k' s_ab = Some (r', s0) ->
          exists s'', Load k' s' = Some (r', s'')).
Proof.
  split; [split; [apply reachable_s_ab|apply bound_le_s_ab]|].
  exact (Delete_then_Load s_ab "a" reachable_s_ab bound_le_s_ab).
Defined.

Lemma Load_changes_no_answer_witness :
  (reachable s_ab /\ Z.of_nat (table_size s_ab) <= INT_MAX)
  /\ exists r s' r' s1 s2,
    Load "c" s_ab = Some (r, s')
    /\ Load "a" s_ab = Some (r', s1) /\ Load "a" s' = Some (r', s2).
Proof.
  split; [split; [apply reachable_s_ab|apply bound_le_s_ab]|].
  exact (Load_changes_no_answer s_ab "c" "a" reachable_s_ab bound_le_s_ab).
Defined.

Lemma LoadOrStore_other_keys_witness :
  (reachable s_ab /\ Z.of_nat (table_size s_ab) < INT_MAX /\ "a" <> "c")
  /\ exists r s' r' s1 s2,
    LoadOrStore "c" 7 s_ab = Some (r, s')
    /\ Load "a" s_ab = Some (r', s1) /\ Load "a" s' = Some (r', s2).
Proof.
  assert (Hne : "a" <> "c") by discriminate.
  split; [split; [apply reachable_s_ab|split; [apply bound_s_ab|exact Hne]]|].
  exact (LoadOrStore_other_keys s_ab "c" 7 "a" reachable_s_ab bound_s_ab Hne).
Defined.

Lemma Range_collects_all_witness :
  (reachable s_ab /\ Z.of_nat (table_size s_ab) <= INT_MAX)
  /\ exists calls s',
    Range (Some (fun _ _ => true)) s_ab = Some (calls, s')
    /\ NoDup calls.*1
    /\ forall k v, (k, v) ∈ calls <->
         exists s0, Load k s_ab = Some (Some v, s0).
Proof.
  split; [split; [apply reachable_s_ab|apply bound_le_s_ab]|].
  exact (Range_collects_all s_ab reachable_s_ab bound_le_s_ab).
Defined.

Lemma Range_changes_no_answer_witness :
  (reachable s_ab /\ Z.of_nat (table_size s_ab) <= INT_MAX)
  /\ exists calls s' r s1 s2,
    Range collect s_ab = Some (calls, s')
    /\ Load "a" s_ab = Some (r, s1) /\ Load "a" s' = Some (r, s2).
Proof.
  split; [split; [apply reachable_s_ab|apply bound_le_s_ab]|].
  exact (Range_changes_no_answer s_ab collect "a" reachable_s_ab
           bound_le_s_ab).
Defined.

Lemma Reset_keeps_raw_witness :
  (reachable s_ab /\ Z.of_nat (table_size s_ab) <= INT_MAX)
  /\ exists raw' s',
    Reset (Some raw_a) s_ab = Some (Some raw', s')
    /\ (forall k v, raw_a !! k = Some v -> raw' !! k = Some v)
    /\ (forall k, raw_a !! k = None ->
          exists s0, Load k s_ab = Some (raw' !! k, s0)).
Proof.
  split; [split; [apply reachable_s_ab|apply bound_le_s_ab]|].
  exact (Reset_keeps_raw s_ab raw_a reachable_s_ab bound_le_s_ab).
Defined.

Lemma every_call_returns_witness :
  (reachable s_ab /\ Z.of_nat (table_size s_ab) <= INT_MAX)
  /\ is_Some (Store "a" 3 s_ab) /\ is_Some (Load_out "a" (Some 0) s_ab)
  /\ is_Some (LoadOrStore_out "a" 3 (Some 0) s_ab)
  /\ is_Some (Delete "a" s_ab)
  /\ is_Some (Range collect s_ab) /\ is_Some (Reset (Some raw_a) s_ab)
  /\ (Load_out "a" None s_ab = None <-> is_Some (contents s_ab "a"))
  /\ LoadOrStore_out "a" 3 None s_ab = None.
Proof.
  split; [split; [apply reachable_s_ab|apply bound_le_s_ab]|].
  exact (every_call_returns s_ab "a" 3 collect (Some raw_a) 0 0
           reachable_s_ab bound_le_s_ab).
Defined.

Lemma counter_below_overlay_size_witness :
  reachable s_ab
  /\ match dirty_ s_ab with
     | Some d =>
         amended (read_ s_ab) = true
         /\ 0 <= misses_ s_ab < Z.of_nat (size d)
     | None => amended (read_ s_ab) = false /\ misses_ s_ab = 0
     end.
Proof.
  split; [apply reachable_s_ab|].
  exact (counter_below_overlay_size s_ab reachable_s_ab).
Defined.

Lemma entries_consistent_unshared_witness :
  reachable s_ab
  /\ (forall p e, heap s_ab !! p = Some e ->
        (state_ e = kValue <-> is_Some (ptr_ e)))
  /\ (forall k k' p, m (read_ s_ab) !! k = Some p ->
        m (read_ s_ab) !! k' = Some p -> k = k')
  /\ (forall d k k' p, dirty_ s_ab = Some d -> d !! k = Some p ->
        d !! k' = Some p -> k = k')
  /\ (forall k p e, dirty_ s_ab = None -> m (read_ s_ab) !! k = Some p ->
        heap s_ab !! p = Some e -> state_ e <> kExpunged).
Proof.
  split; [apply reachable_s_ab|].
  exact (entries_consistent_unshared s_ab reachable_s_ab).
Defined.

Lemma DirtyLocked_builds_overlay_witness :
  reachable s_a_promoted
  /\ exists s1 d1,
    DirtyLocked s_a_promoted = Some (tt, s1)
    /\ dirty_ s1 = Some d1 /\ read_ s1 = read_ s_a_promoted
    /\ misses_ s1 = misses_ s_a_promoted
    /\ (forall k p, d1 !! k = Some p <->
          m (read_ s_a_promoted) !! k = Some p
          /\ is_value (heap s_a_promoted) p)
    /\ (forall k p e, m (read_ s_a_promoted) !! k = Some p ->
          heap s_a_promoted !! p = Some e ->
          heap s1 !! p = Some (expunge e)).
Proof.
  split; [apply reachable_s_a_promoted|].
  exact (DirtyLocked_builds_overlay s_a_promoted reachable_s_a_promoted).
Defined.

Lemma Store_fast_path_witness :
  (m (read_ s_a_promoted) !! "a" = Some 0%nat
   /\ heap s_a_promoted !! 0%nat = Some (present 1)
   /\ state_ (present 1) <> kExpunged)
  /\ exists s',
    Store "a" 4 s_a_promoted = Some (tt, s')
    /\ heap s' = <[0%nat:=present 4]> (heap s_a_promoted)
    /\ read_ s' = read_ s_a_promoted /\ dirty_ s' = dirty_ s_a_promoted
    /\ misses_ s' = misses_ s_a_promoted.
Proof.
  assert (H1 : m (read_ s_a_promoted) !! "a" = Some 0%nat)
    by (vm_compute; reflexivity).
  assert (H2 : heap s_a_promoted !! 0%nat = Some (present 1))
    by (vm_compute; reflexivity).
  assert (H3 : state_ (present 1 : Entry Z) <> kExpunged) by discriminate.
  split; [by repeat split|].
  exact (Store_fast_path s_a_promoted "a" 4 0%nat (present 1) H1 H2 H3).
Defined.

Lemma Load_hit_leaves_state_witness :
  (reachable s_a_promoted
   /\ (is_Some (m (read_ s_a_promoted) !! "a")
       \/ amended (read_ s_a_promoted) = false))
  /\ exists r, Load "a" s_a_promoted = Some (r, s_a_promoted).
Proof.
  assert (H2 : is_Some (m (read_ s_a_promoted) !! "a")
               \/ amended (read_ s_a_promoted) = false)
    by (right; vm_compute; reflexivity).
  split; [split; [apply reachable_s_a_promoted|exact H2]|].
  exact (Load_hit_leaves_state s_a_promoted "a" reachable_s_a_promoted H2).
Defined.

Lemma Entry_functions_keep_consistent_witness :
  consistent (present 1 : Entry Z)
  /\ (exists b e', Entry.TryStore 2 (present 1) = Some (b, e')
                    /\ consistent e')
  /\ (exists e', Entry.StoreLocked 2 (present 1) = Some (tt, e')
                  /\ consistent e')
  /\ (exists r e', Entry.TryLoadOrStore 2 (present 1) = Some (r, e')
                    /\ consistent e')
  /\ (exists r e', Entry.Delete (present 1 : Entry Z) = Some (r, e')
                    /\ consistent e')
  /\ (exists b e', Entry.TryExpungeLocked (present 1 : Entry Z)
                    = Some (b, e') /\ consistent e')
  /\ consistent (Entry.UnexpungeLocked (present 1 : Entry Z)).2.
Proof.
  assert (H1 : consistent (present 1 : Entry Z)).
  { split; [intros _; by exists 1|reflexivity]. }
  split; [exact H1|].
  exact (Entry_functions_keep_consistent (present 1) 2 H1).
Defined.

Lemma reachable_c_a : CachedMap.reachable c_a.
Proof.
  apply rtc_once. apply (CachedMap.step_Put _ _ "a" 1 HashTable.PUT_NEW).
  vm_compute. reflexivity.
Qed.

Lemma CachedMap_cache_coherent_witness :
  CachedMap.reachable c_a /\ CachedMap.coherent c_a.
Proof.
  split; [apply reachable_c_a|].
  exact (CachedMap_cache_coherent c_a reachable_c_a).
Defined.

Lemma CachedMap_Put_then_Get_witness :
  CachedMap.reachable c_a
  /\ (CachedMap.Get "b" (CachedMap.Put "b" 2 c_a).2).1 = Some 2
  /\ forall k', k' <> "b" ->
       (CachedMap.Get k' (CachedMap.Put "b" 2 c_a).2).1
       = (CachedMap.Get k' c_a).1.
Proof.
  split; [apply reachable_c_a|].
  exact (CachedMap_Put_then_Get c_a "b" 2 reachable_c_a).
Defined.

Lemma CachedMap_Get_changes_no_answer_witness :
  CachedMap.reachable c_a
  /\ (CachedMap.Get "a" (CachedMap.Get "b" c_a).2).1
     = (CachedMap.Get "a" c_a).1.
Proof.
  split; [apply reachable_c_a|].
  exact (CachedMap_Get_changes_no_answer c_a "b" "a" reachable_c_a).
Defined.

Lemma CachedMap_Remove_then_Get_witness :
  CachedMap.reachable c_a
  /\ exists c',
    CachedMap.Remove "a" c_a = Some ((CachedMap.Get "a" c_a).1, c')
    /\ (CachedMap.Get "a" c').1 = None
    /\ forall k', k' <> "a" ->
         (CachedMap.Get k' c').1 = (CachedMap.Get k' c_a).1.
Proof.
  split; [apply reachable_c_a|].
  exact (CachedMap_Remove_then_Get c_a "a" reachable_c_a).
Defined.

Lemma CachedMap_Clear_drains_witness :
  CachedMap.reachable c_a
  /\ exists m',
    CachedMap.Clear ∅ c_a = Some (m', CachedMap.CachedMap_new)
    /\ forall k, m' !! k = (CachedMap.Get k c_a).1.
Proof.
  split; [apply reachable_c_a|].
  exact (CachedMap_Clear_drains c_a reachable_c_a).
Defined.

Lemma ForEachRemove_keeps_true_witness :
  Z.of_nat (length (SyncList.list_ l_12_3 ++ SyncList.buffer_ l_12_3))
    <= INT_MAX
  /\ exists count l',
    SyncList.ForEachRemove Z.odd l_12_3 = Some (count, l')
    /\ SyncList.list_ l'
       = List.filter Z.odd (SyncList.list_ l_12_3 ++ SyncList.buffer_ l_12_3)
    /\ SyncList.buffer_ l' = []
    /\ count
       = Z.of_nat (length (List.filter (fun x => negb (Z.odd x))
                     (SyncList.list_ l_12_3 ++ SyncList.buffer_ l_12_3)))
    /\ count + Z.of_nat (length (SyncList.list_ l'))
       = Z.of_nat (length (SyncList.list_ l_12_3
                           ++ SyncList.buffer_ l_12_3)).
Proof.
  assert (H1 : Z.of_nat (length (SyncList.list_ l_12_3
                                 ++ SyncList.buffer_ l_12_3)) <= INT_MAX)
    by (vm_compute; discriminate).
  split; [exact H1|].
  exact (ForEachRemove_keeps_true Z.odd l_12_3 H1).
Defined.

End MoreExamples.
